(** * semantic-webapp: the encode / score / learn / detect core

    A shallow embedding of the TypeScript sources of the repository
    ([lib/quantum/complex.ts], [lib/quantum/wavefunction.ts],
    [lib/quantum/evolution.ts], [lib/quantum/field.ts],
    [lib/quantum/learner.ts], [lib/network/graph.ts] and
    [lib/analysis/patterns.ts]) together with the properties the
    specification states about them.

    Conventions of the embedding.
    - A JavaScript [number] that carries a measurement (amplitude, weight,
      time, score) is a real number: rounding, overflow, signed zeros and
      NaN are outside the model.  [Math.sqrt], [Math.exp], [Math.log],
      [Math.cos] and [Math.sin] are the functions of the same name on [R].
      A statement about such numbers is made for the range in which
      doubles neither underflow nor overflow, and up to a tolerance
      where rounding enters.
    - Where underflow, overflow or NaN decide what the code does, the
      code is embedded a second time over the binary64 numbers of the
      kernel (module [Double]), whose [+], [-], [*], [/] and square root
      are those of JavaScript; a score that may be [NaN] or infinite is
      a [NumberOrNaN.t].
    - A [number] that is an integer by construction (a hash, a prime
      factor, an array length, a limit on a count) is a [Z] or a [nat].
    - A JavaScript [Map] is an association list in insertion order with
      unique keys, the order in which [values()] and [entries()] walk it.
    - An object mutated in place is threaded explicitly: a method
      [o.m(a)] becomes a function from the object before to the object
      after.
    - Sources of fresh values ([uuidv4], [Math.random], [Date.now]) are
      arguments of the operation that draws from them. *)

From Stdlib Require Import Floats.
From Stdlib Require Import Reals Lra Lia ZArith List String Ascii Permutation Sorted.
From stdpp Require Import gmap strings list.

Local Open Scope R_scope.

(* ===================================================================== *)
(** * Part I: the program                                                 *)
(* ===================================================================== *)

(** ** Results of operations that can throw *)

Inductive result (A : Type) : Type :=
| Ok (a : A)
| Throw (message : string).
Arguments Ok {A} a.
Arguments Throw {A} message.

Definition bind_result {A B} (r : result A) (k : A -> result B) : result B :=
  match r with
  | Ok a => k a
  | Throw m => Throw m
  end.

(** ** [Math] *)

Module JSMath.

(** [Math.atan2(y, x)] on the reals. *)
Definition atan2 (y x : R) : R :=
  if Rlt_dec 0 x then atan (y / x)
  else if Rlt_dec x 0 then
    (if Rle_dec 0 y then atan (y / x) + PI else atan (y / x) - PI)
  else if Rlt_dec 0 y then PI / 2
  else if Rlt_dec y 0 then - (PI / 2)
  else 0.

(** [Math.max(0, Math.min(1, value))]. *)
Definition clamp01 (value : R) : R := Rmax 0 (Rmin 1 value).

(** [Math.pow(base, n)] for the non-negative integer exponents the
    sources pass. *)
Definition pow (base : R) (n : nat) : R := base ^ n.

(** [Math.trunc] and the remainder [a % b] of two numbers, which takes
    the sign of [a]. *)
Definition trunc (x : R) : R :=
  if Rle_dec 0 x then IZR (Int_part x) else - IZR (Int_part (- x)).

Definition rem (a b : R) : R := a - b * trunc (a / b).

End JSMath.

(** ** [complex.ts] *)

Module Complex.

Record t : Type := mk { real : R; imag : R }.

Definition fromPolar (r theta : R) : t :=
  mk (r * cos theta) (r * sin theta).

Definition add (this other : t) : t :=
  mk (real this + real other) (imag this + imag other).

Definition multiply (this other : t) : t :=
  mk (real this * real other - imag this * imag other)
     (real this * imag other + imag this * real other).

Definition conjugate (this : t) : t :=
  mk (real this) (- imag this).

Definition scale (this : t) (factor : R) : t :=
  mk (real this * factor) (imag this * factor).

Definition magnitude (this : t) : R :=
  sqrt (real this * real this + imag this * imag this).

Definition phase (this : t) : R :=
  JSMath.atan2 (imag this) (real this).

End Complex.

(** ** [Map<K, V>] with its insertion order *)

Module JSMap.
Section Ordered.
Context {K : Type} `{EqDecision K} {V : Type}.

Definition t : Type := list (K * V).

Definition empty : t := [].

Fixpoint get (m : t) (key : K) : option V :=
  match m with
  | [] => None
  | (k, v) :: rest => if decide (k = key) then Some v else get rest key
  end.

Definition has (m : t) (key : K) : bool :=
  match get m key with Some _ => true | None => false end.

(** [set] overwrites in place when the key is present and appends
    otherwise, as the iteration order of a [Map] requires. *)
Fixpoint set (m : t) (key : K) (value : V) : t :=
  match m with
  | [] => [(key, value)]
  | (k, v) :: rest =>
      if decide (k = key) then (k, value) :: rest
      else (k, v) :: set rest key value
  end.

Fixpoint delete (m : t) (key : K) : t :=
  match m with
  | [] => []
  | (k, v) :: rest =>
      if decide (k = key) then delete rest key
      else (k, v) :: delete rest key
  end.

Definition keys (m : t) : list K := map fst m.
Definition values (m : t) : list V := map snd m.
Definition entries (m : t) : list (K * V) := m.

End Ordered.
Arguments t K V : clear implicits.
End JSMap.

(** ** [graph.ts] *)

(** The values a property bag [Record<string, unknown>] holds. *)
Inductive JSValue : Type :=
| JSString (s : string)
| JSNumber (x : R)
| JSBoolean (b : bool).

Record Position : Type := mkPosition { pos_x : R; pos_y : R }.

Record GraphNode : Type := mkGraphNode {
  node_id : string;
  node_label : string;
  node_type : string;
  node_properties : list (string * JSValue);
  node_position : option Position
}.

Record GraphEdge : Type := mkGraphEdge {
  edge_id : string;
  edge_source : string;
  edge_target : string;
  edge_type : string;
  edge_weight : R;
  edge_properties : list (string * JSValue)
}.

Record GraphData : Type := mkGraphData {
  data_nodes : list GraphNode;
  data_edges : list GraphEdge
}.

Module Graph.

Record t : Type := mk {
  nodes : JSMap.t string GraphNode;
  edges : JSMap.t string GraphEdge
}.

(** [new Graph()] *)
Definition new : t := mk JSMap.empty JSMap.empty.

(** [addNode]; [uuid] is the value [uuidv4()] returns. *)
Definition addNode (this : t) (uuid : string) (label type : string)
    (properties : option (list (string * JSValue))) : t * GraphNode :=
  let node := mkGraphNode uuid label type (default [] properties) None in
  (mk (JSMap.set (nodes this) (node_id node) node) (edges this), node).

(** [addEdge]; [weight] defaults to [1.0] and [properties] to [{}]. *)
Definition addEdge (this : t) (uuid : string) (source target type : string)
    (weight : option R) (properties : option (list (string * JSValue)))
    : result (t * GraphEdge) :=
  if negb (JSMap.has (nodes this) source) || negb (JSMap.has (nodes this) target)
  then Throw "Source or target node does not exist"
  else
    let edge := mkGraphEdge uuid source target type
                  (default 1 weight) (default [] properties) in
    Ok (mk (nodes this) (JSMap.set (edges this) (edge_id edge) edge), edge).

(** [removeNode]: the loop walks the entries of [this.edges] and deletes
    from the same map; an entry is visited unless it was deleted before
    the iterator reached it. *)
Definition removeNode (this : t) (id : string) : t :=
  let edges' :=
    fold_left
      (fun (es : JSMap.t string GraphEdge) (entry : string * GraphEdge) =>
         let (edgeId, edge) := entry in
         if decide (edge_source edge = id \/ edge_target edge = id)
         then JSMap.delete es edgeId
         else es)
      (JSMap.entries (edges this)) (edges this) in
  mk (JSMap.delete (nodes this) id) edges'.

Definition removeEdge (this : t) (id : string) : t :=
  mk (nodes this) (JSMap.delete (edges this) id).

Definition getNode (this : t) (id : string) : option GraphNode :=
  JSMap.get (nodes this) id.

Definition getEdge (this : t) (id : string) : option GraphEdge :=
  JSMap.get (edges this) id.

Definition getNodeEdges (this : t) (id : string) : list GraphEdge :=
  List.filter
    (fun edge => bool_decide (edge_source edge = id \/ edge_target edge = id))
    (JSMap.values (edges this)).

(** [updateNodePosition] assigns to the node object held by the map. *)
Definition updateNodePosition (this : t) (id : string) (x y : R) : t :=
  match JSMap.get (nodes this) id with
  | Some node =>
      let node' := mkGraphNode (node_id node) (node_label node) (node_type node)
                     (node_properties node) (Some (mkPosition x y)) in
      mk (JSMap.set (nodes this) id node') (edges this)
  | None => this
  end.

(** [updateEdgeWeight] assigns to the edge object held by the map. *)
Definition updateEdgeWeight (this : t) (id : string) (weight : R) : t :=
  match JSMap.get (edges this) id with
  | Some edge =>
      let edge' := mkGraphEdge (edge_id edge) (edge_source edge) (edge_target edge)
                     (edge_type edge) (JSMath.clamp01 weight) (edge_properties edge) in
      mk (nodes this) (JSMap.set (edges this) id edge')
  | None => this
  end.

Definition clear (this : t) : t := mk JSMap.empty JSMap.empty.

Definition toJSON (this : t) : GraphData :=
  mkGraphData (JSMap.values (nodes this)) (JSMap.values (edges this)).

Definition fromJSON (this : t) (data : GraphData) : t :=
  let this := clear this in
  let nodes' :=
    fold_left (fun ns node => JSMap.set ns (node_id node) node)
              (data_nodes data) (nodes this) in
  let edges' :=
    fold_left (fun es edge => JSMap.set es (edge_id edge) edge)
              (data_edges data) (edges this) in
  mk nodes' edges'.

Definition getNodeDegree (this : t) (id : string) : nat :=
  length (getNodeEdges this id).

(** The methods that change a graph, with their arguments. *)
Inductive call : Type :=
| CallAddNode (uuid label type : string) (properties : option (list (string * JSValue)))
| CallAddEdge (uuid source target type : string) (weight : option R)
              (properties : option (list (string * JSValue)))
| CallRemoveNode (id : string)
| CallRemoveEdge (id : string)
| CallUpdateNodePosition (id : string) (x y : R)
| CallUpdateEdgeWeight (id : string) (weight : R)
| CallClear
| CallFromJSON (data : GraphData).

(** One call; a call that throws leaves the graph as it was. *)
Definition step (this : t) (c : call) : t :=
  match c with
  | CallAddNode uuid label type properties =>
      fst (addNode this uuid label type properties)
  | CallAddEdge uuid source target type weight properties =>
      match addEdge this uuid source target type weight properties with
      | Ok (this', _) => this'
      | Throw _ => this
      end
  | CallRemoveNode id => removeNode this id
  | CallRemoveEdge id => removeEdge this id
  | CallUpdateNodePosition id x y => updateNodePosition this id x y
  | CallUpdateEdgeWeight id weight => updateEdgeWeight this id weight
  | CallClear => clear this
  | CallFromJSON data => fromJSON this data
  end.

(** The graphs a program can build: any sequence of calls on [new Graph()]. *)
Definition run (calls : list call) : t := fold_left step calls new.

Definition reachable (g : t) : Prop := exists calls, g = run calls.

(** [getNodeNeighbors]: for each edge at [id] the node at its other end,
    when the map of nodes holds one. *)
Definition getNodeNeighbors (this : t) (id : string) : list GraphNode :=
  fold_left
    (fun neighbors edge =>
       if decide (edge_source edge = id) then
         match JSMap.get (nodes this) (edge_target edge) with
         | Some targetNode => neighbors ++ [targetNode]
         | None => neighbors
         end
       else if decide (edge_target edge = id) then
         match JSMap.get (nodes this) (edge_source edge) with
         | Some sourceNode => neighbors ++ [sourceNode]
         | None => neighbors
         end
       else neighbors)
    (JSMap.values (edges this)) [].

(** The sum [degrees.reduce((sum, degree) => sum + degree, 0)] of
    [getAverageNodeDegree]. *)
Definition totalNodeDegree (this : t) : nat :=
  fold_left Nat.add
    (map (fun id => getNodeDegree this id) (JSMap.keys (nodes this))) 0%nat.

Definition getAverageNodeDegree (this : t) : R :=
  INR (totalNodeDegree this) / INR (length (JSMap.keys (nodes this))).

(** The calls other than [fromJSON]. *)
Definition isFromJSON (c : call) : bool :=
  match c with
  | CallFromJSON _ => true
  | _ => false
  end.

(** A distance read from the map of distances, [None] when the map has
    none: [distances.get(id) ?? Infinity]. *)
Definition ltDistance (a b : option nat) : bool :=
  match a, b with
  | Some x, Some y => (x <? y)%nat
  | Some _, None => true
  | None, _ => false
  end.

(** The scan of [getShortestPath] for the unvisited node at the shortest
    distance: the first one in the order of the set, none when every
    unvisited node is at [Infinity]. *)
Definition closestUnvisited (distances : JSMap.t string nat) (unvisited : list string)
    : option string :=
  fst (fold_left
         (fun (acc : option string * option nat) nodeId =>
            let distance := JSMap.get distances nodeId in
            if ltDistance distance acc.2 then (Some nodeId, distance) else acc)
         unvisited (None, None)).

(** The loop over the neighbours of [current].  [current] was chosen for
    its finite distance; without one, [Infinity + 1] is below no
    distance and the loop changes nothing. *)
Definition relaxNeighbors (unvisited : list string) (current : string)
    (neighbors : list GraphNode)
    (maps : JSMap.t string nat * JSMap.t string string)
    : JSMap.t string nat * JSMap.t string string :=
  fold_left
    (fun (maps : JSMap.t string nat * JSMap.t string string) neighbor =>
       let (distances, previous) := maps in
       if negb (bool_decide (node_id neighbor ∈ unvisited)) then maps
       else
         match JSMap.get distances current with
         | Some d =>
             let distance := S d in
             if ltDistance (Some distance) (JSMap.get distances (node_id neighbor))
             then (JSMap.set distances (node_id neighbor) distance,
                   JSMap.set previous (node_id neighbor) current)
             else maps
         | None => maps
         end)
    neighbors maps.

(** [while (unvisited.size > 0) { ... }]; every round removes a node from
    [unvisited], [None] when [fuel] rounds did not end the loop. *)
Fixpoint visitLoop (fuel : nat) (this : t) (targetId : string)
    (unvisited : list string) (maps : JSMap.t string nat * JSMap.t string string)
    : option (JSMap.t string nat * JSMap.t string string) :=
  match unvisited with
  | [] => Some maps
  | _ :: _ =>
      match closestUnvisited (fst maps) unvisited with
      | None => Some maps
      | Some current =>
          if decide (current = targetId) then Some maps
          else
            match fuel with
            | O => None
            | S fuel' =>
                let unvisited :=
                  List.filter (fun id => negb (bool_decide (id = current))) unvisited in
                let neighbors := getNodeNeighbors this current in
                visitLoop fuel' this targetId unvisited
                          (relaxNeighbors unvisited current neighbors maps)
            end
      end
  end.

(** [while (current !== sourceId) { ... }]; [!prev] holds of a missing
    entry and of the empty string. *)
Fixpoint reconstructLoop (fuel : nat) (this : t) (sourceId : string)
    (previous : JSMap.t string string) (current : string) (path : list GraphNode)
    : option (list GraphNode) :=
  if decide (current = sourceId) then Some path
  else
    match fuel with
    | O => None
    | S fuel' =>
        match JSMap.get (nodes this) current with
        | None => Some path
        | Some node =>
            let path := node :: path in
            match JSMap.get previous current with
            | None => Some path
            | Some prev =>
                if decide (prev = ""%string) then Some path
                else reconstructLoop fuel' this sourceId previous prev path
            end
        end
    end.

(** [getShortestPath]; the first loop is given one round for every node
    and the second one two more, which they never use up
    ([getShortestPath_in_fuel]). *)
Definition getShortestPath (this : t) (sourceId targetId : string) : list GraphNode :=
  let distances : JSMap.t string nat := JSMap.empty in
  let previous : JSMap.t string string := JSMap.empty in
  let unvisited := JSMap.keys (nodes this) in
  let distances := JSMap.set distances sourceId 0%nat in
  let fuel := length (JSMap.keys (nodes this)) in
  match visitLoop fuel this targetId unvisited (distances, previous) with
  | None => []
  | Some (_, previous) =>
      let path := default [] (reconstructLoop (S (S fuel)) this sourceId previous targetId []) in
      match JSMap.get (nodes this) sourceId with
      | Some sourceNode => sourceNode :: path
      | None => path
      end
  end.

End Graph.

(** ** [wavefunction.ts] *)

Module WaveFunction.

Record t : Type := mk {
  dimensions : list Complex.t;
  amplitude : R;
  phase : R;
  id : string;
  connections : list string
}.

(** [new WaveFunction(dimension)]; [random_id] is the string
    [Math.random().toString(36).substring(7)] evaluates to. *)
Definition new (random_id : string) (dimension : nat) : t :=
  mk (replicate dimension (Complex.mk 0 0)) 0 0 random_id [].

(** [setDimension] ignores an index outside the array. *)
Definition setDimension (this : t) (index : nat) (value : Complex.t) : t :=
  mk (<[index := value]> (dimensions this))
     (amplitude this) (phase this) (id this) (connections this).

Definition getDimensions (this : t) : list Complex.t := dimensions this.

Definition setAmplitude (this : t) (value : R) : t :=
  mk (dimensions this) (JSMath.clamp01 value) (phase this) (id this)
     (connections this).

Definition getAmplitude (this : t) : R := amplitude this.
Definition getPhase (this : t) : R := phase this.

Definition normalize (this : t) : t :=
  let norm :=
    sqrt (fold_left
            (fun acc dim =>
               acc + Complex.real (Complex.multiply dim (Complex.conjugate dim)))
            (dimensions this) 0) in
  if Req_dec_T norm 0 then this
  else mk (map (fun dim => Complex.scale dim (1 / norm)) (dimensions this))
          (amplitude this) (phase this) (id this) (connections this).

(** The loop of the evolution operators,
    [for (i = 0; i < dimensions.length; i++) state.setDimension(i, f(dimensions[i]))],
    where [dimensions] is the array the state itself holds. *)
Definition forEachDimension (f : Complex.t -> Complex.t) (state : t) : t :=
  fold_left
    (fun st i =>
       match getDimensions st !! i with
       | Some dim => setDimension st i (f dim)
       | None => st
       end)
    (seq 0 (length (getDimensions state))) state.

Definition setPhase (this : t) (value : R) : t :=
  let phase := JSMath.rem value (2 * PI) in
  let phase := if Rlt_dec phase 0 then phase + 2 * PI else phase in
  mk (dimensions this) (amplitude this) phase (id this) (connections this).

Definition addConnection (this : t) (nodeId : string) : t :=
  if decide (nodeId ∈ connections this) then this
  else mk (dimensions this) (amplitude this) (phase this) (id this)
          (connections this ++ [nodeId]).

Definition removeConnection (this : t) (nodeId : string) : t :=
  mk (dimensions this) (amplitude this) (phase this) (id this)
     (List.filter (fun id => negb (bool_decide (id = nodeId))) (connections this)).

(** [superpose]; [random_id] is the identifier of the new wave function.
    Past the end of [other.dimensions] the loop adds [undefined], which
    throws. *)
Definition superpose (random_id : string) (this other : t) : result t :=
  let created := new random_id (length (dimensions this)) in
  let created := setAmplitude created ((amplitude this + amplitude other) / 2) in
  let avgPhase := (phase this + phase other) / 2 in
  let created := setPhase created avgPhase in
  fold_left
    (fun (acc : result t) i =>
       bind_result acc (fun created =>
         match dimensions this !! i, dimensions other !! i with
         | Some a, Some b =>
             let combined := Complex.add a b in
             Ok (setDimension created i (Complex.scale combined (1 / sqrt 2)))
         | _, _ => Throw "TypeError: cannot read properties of undefined"
         end))
    (seq 0 (length (dimensions this))) (Ok created).


End WaveFunction.

(** ** [encoder.ts]: the shape of an encoded state *)

Record EncodingOptions : Type := mkEncodingOptions {
  dimensionality : R;
  phaseResolution : R;
  amplitudeScale : R;
  coherenceThreshold : R
}.

Record Metadata : Type := mkMetadata {
  encodingType : string;
  timestamp : R;
  parameters : EncodingOptions
}.

Record EncodedState : Type := mkEncodedState {
  waveFunction : WaveFunction.t;
  sourceNode : GraphNode;
  connections : list string;
  metadata : Metadata
}.

(** ** [evolution.ts] *)

Module QuantumEvolution.

Record EvolutionOperator : Type := mkOperator {
  name : string;
  apply : WaveFunction.t -> R -> WaveFunction.t;
  op_parameters : list (string * R)
}.

Record Metrics : Type := mkMetrics {
  totalEnergy : R;
  averageCoherence : R;
  entanglementEntropy : R
}.

Record TimeStep : Type := mkTimeStep {
  time : R;
  states : list EncodedState;
  metrics : Metrics
}.

Record EvolutionOptions : Type := mkOptions {
  timeStep : R;
  totalTime : R;
  operators : list EvolutionOperator;
  preserveConnections : bool;
  trackMetrics : bool
}.

(** The defaults of the constructor. *)
Definition defaultOptions : EvolutionOptions :=
  mkOptions (1 / 100) 1 [] true true.

Definition createHarmonicOperator (frequency amplitude : R) : EvolutionOperator :=
  mkOperator "harmonic"
    (fun state time =>
       WaveFunction.forEachDimension
         (fun dim =>
            let phase := frequency * time in
            let oscillation := cos phase * amplitude in
            Complex.scale dim (1 + oscillation))
         state)
    [("frequency"%string, frequency); ("amplitude"%string, amplitude)].

Definition createDissipationOperator (rate : R) : EvolutionOperator :=
  mkOperator "dissipation"
    (fun state time =>
       let decay := exp (- rate * time) in
       WaveFunction.forEachDimension (fun dim => Complex.scale dim decay) state)
    [("rate"%string, rate)].

Definition createPhaseEvolutionOperator (frequency : R) : EvolutionOperator :=
  mkOperator "phase-evolution"
    (fun state time =>
       let phase := frequency * time in
       WaveFunction.forEachDimension
         (fun dim =>
            let magnitude :=
              sqrt (Complex.real dim * Complex.real dim
                    + Complex.imag dim * Complex.imag dim) in
            let currentPhase := JSMath.atan2 (Complex.imag dim) (Complex.real dim) in
            let newPhase := currentPhase + phase in
            Complex.fromPolar magnitude newPhase)
         state)
    [("frequency"%string, frequency)].

(** [cloneState]: a new wave function of the same length, the source
    node shared, the connections and the metadata copied.  [random_id]
    is the identifier the new wave function draws. *)
Definition cloneState (random_id : string) (state : EncodedState) : EncodedState :=
  mkEncodedState
    (WaveFunction.new random_id
       (length (WaveFunction.getDimensions (waveFunction state))))
    (sourceNode state)
    (connections state)
    (metadata state).

(** [calculateCoherence]; reading [dims2[i]] past the end of [dims2]
    yields [undefined], whose [.imag] throws. *)
Definition calculateCoherence (wave1 wave2 : WaveFunction.t) : result R :=
  let dims1 := WaveFunction.getDimensions wave1 in
  let dims2 := WaveFunction.getDimensions wave2 in
  if (length dims2 <? length dims1)%nat
  then Throw "TypeError: cannot read properties of undefined"
  else
    let coherence :=
      fold_left
        (fun acc (pair : Complex.t * Complex.t) =>
           let phase1 := JSMath.atan2 (Complex.imag pair.1) (Complex.real pair.1) in
           let phase2 := JSMath.atan2 (Complex.imag pair.2) (Complex.real pair.2) in
           acc + cos (phase1 - phase2))
        (zip dims1 dims2) 0 in
    Ok (Rabs (coherence / INR (length dims1))).

Definition calculateEntanglementEntropy (wave : WaveFunction.t) : R :=
  fold_left
    (fun entropy dim =>
       let probability :=
         Complex.real dim * Complex.real dim + Complex.imag dim * Complex.imag dim in
       if Rlt_dec 0 probability then entropy - probability * ln probability
       else entropy)
    (WaveFunction.getDimensions wave) 0.

(** [states.find(s => s.sourceNode.id === connectionId)] *)
Definition findState (states : list EncodedState) (connectionId : string)
    : option EncodedState :=
  List.find (fun s => bool_decide (node_id (sourceNode s) = connectionId)) states.

Definition calculateMetrics (states : list EncodedState) : result Metrics :=
  let totalEnergy :=
    fold_left
      (fun acc state =>
         fold_left
           (fun acc dim =>
              acc + (Complex.real dim * Complex.real dim
                     + Complex.imag dim * Complex.imag dim))
           (WaveFunction.getDimensions (waveFunction state)) acc)
      states 0 in
  let totalCoherence :=
    fold_left
      (fun acc state =>
         fold_left
           (fun acc connectionId =>
              bind_result acc (fun total =>
                match findState states connectionId with
                | Some connectedState =>
                    bind_result
                      (calculateCoherence (waveFunction state)
                                          (waveFunction connectedState))
                      (fun c => Ok (total + c))
                | None => Ok total
                end))
           (connections state) acc)
      states (Ok 0) in
  let entropy :=
    fold_left
      (fun acc state => acc + calculateEntanglementEntropy (waveFunction state))
      states 0 in
  let connectionCount :=
    fold_left (fun sum state => (sum + length (connections state))%nat) states 0%nat in
  bind_result totalCoherence (fun totalCoherence =>
    let averageCoherence :=
      if (0 <? connectionCount)%nat then totalCoherence / INR connectionCount else 0 in
    Ok (mkMetrics totalEnergy averageCoherence (entropy / INR (length states)))).

(** An entry of [this.history] while the loop runs.  With [trackMetrics]
    off the entry holds the very array [[currentState]], whose element
    the loop keeps mutating: [recorded_states] is then [None] and is
    read off the final state when [evolveState] returns. *)
Record Recorded : Type := mkRecorded {
  recorded_time : R;
  recorded_states : option (list EncodedState);
  recorded_metrics : Metrics
}.

(** The source of [Math.random] identifiers: the stream and the number
    of identifiers drawn so far. *)
Definition RandomSource : Type := nat -> string.

(** [states.map(s => this.cloneState(s))], drawing one identifier a state. *)
Fixpoint cloneStates (random : RandomSource) (drawn : nat) (states : list EncodedState)
    : list EncodedState * nat :=
  match states with
  | [] => ([], drawn)
  | s :: rest =>
      let c := cloneState (random drawn) s in
      let (cs, drawn') := cloneStates random (S drawn) rest in
      (c :: cs, drawn')
  end.

Definition recordTimeStep (options : EvolutionOptions) (random : RandomSource)
    (drawn : nat) (history : list Recorded) (states : list EncodedState) (time : R)
    : result (list Recorded * nat) :=
  if negb (trackMetrics options) then
    bind_result (calculateMetrics states) (fun metrics =>
      Ok (history ++ [mkRecorded time None metrics], drawn))
  else
    bind_result (calculateMetrics states) (fun metrics =>
      let (clones, drawn') := cloneStates random drawn states in
      Ok (history ++ [mkRecorded time (Some clones) metrics], drawn')).

Definition withWaveFunction (state : EncodedState) (w : WaveFunction.t) : EncodedState :=
  mkEncodedState w (sourceNode state) (connections state) (metadata state).

(** The [while (currentTime <= totalTime)] loop of [evolveState];
    [None] when [fuel] iterations did not reach the end of the loop. *)
Fixpoint evolveLoop (fuel : nat) (options : EvolutionOptions) (random : RandomSource)
    (drawn : nat) (currentState : EncodedState) (currentTime : R)
    (history : list Recorded)
    : option (result (EncodedState * list Recorded)) :=
  if Rle_dec currentTime (totalTime options) then
    match fuel with
    | O => None
    | S fuel' =>
        let w :=
          fold_left (fun w operator => apply operator w currentTime)
                    (operators options) (waveFunction currentState) in
        let w := WaveFunction.normalize w in
        let currentState := withWaveFunction currentState w in
        match recordTimeStep options random drawn history [currentState] currentTime with
        | Throw m => Some (Throw m)
        | Ok (history', drawn') =>
            evolveLoop fuel' options random drawn' currentState
                       (currentTime + timeStep options) history'
        end
    end
  else Some (Ok (currentState, history)).

Definition resolve (final : EncodedState) (r : Recorded) : TimeStep :=
  mkTimeStep (recorded_time r)
             (default [final] (recorded_states r))
             (recorded_metrics r).

Definition evolveState (fuel : nat) (options : EvolutionOptions)
    (random : RandomSource) (initialState : EncodedState)
    : option (result (list TimeStep)) :=
  let currentTime := 0 in
  let currentState := cloneState (random 0%nat) initialState in
  match evolveLoop fuel options random 1 currentState currentTime [] with
  | None => None
  | Some (Throw m) => Some (Throw m)
  | Some (Ok (final, history)) => Some (Ok (map (resolve final) history))
  end.

(** The energies of a history, in the order of the steps. *)
Definition energies (history : list TimeStep) : list R :=
  map (fun step => totalEnergy (metrics step)) history.

End QuantumEvolution.

(** A sequence that decreases strictly from each entry to the next. *)
Fixpoint strictly_decreasing (l : list R) : Prop :=
  match l with
  | [] => True
  | x :: rest =>
      match rest with
      | [] => True
      | y :: _ => y < x /\ strictly_decreasing rest
      end
  end.

(** ** [field.ts] *)

Module QuantumField.

Record SystemState : Type := mkSystemState {
  ss_Psi : R; ss_E : R; ss_S : R; ss_I : R;
  ss_Omega : R; ss_C : R; ss_L : R; ss_D : R
}.

(** The scalar bookkeeping of the system dynamics, which neither
    [initialize] nor the field algebra touches. *)
Record Dynamics : Type := mkDynamics {
  intelligence : R;
  entropy : R;
  energy : R;
  information : R;
  complexity : R;
  learningRate : R;
  development : R;
  systemState : SystemState
}.

Record t : Type := mk {
  dimensions : nat;
  values : list Complex.t;
  phase : list R;
  coherence : R;
  dynamics : Dynamics;
  primeFactors : list Z;
  spectralForm : list Complex.t
}.

(** [new QuantumField(dimensions)] *)
Definition new (dimensions : nat) : t :=
  mk dimensions
     (replicate dimensions (Complex.mk 0 0))
     (replicate dimensions 0)
     0
     (mkDynamics 0 0 0 0 0 0 0 (mkSystemState 0 0 0 0 0 0 0 0))
     []
     (replicate dimensions (Complex.mk 0 0)).

Definition set_values (this : t) (v : list Complex.t) : t :=
  mk (dimensions this) v (phase this) (coherence this) (dynamics this)
     (primeFactors this) (spectralForm this).
Definition set_phase (this : t) (p : list R) : t :=
  mk (dimensions this) (values this) p (coherence this) (dynamics this)
     (primeFactors this) (spectralForm this).
Definition set_coherence (this : t) (c : R) : t :=
  mk (dimensions this) (values this) (phase this) c (dynamics this)
     (primeFactors this) (spectralForm this).
Definition set_primeFactors (this : t) (f : list Z) : t :=
  mk (dimensions this) (values this) (phase this) (coherence this) (dynamics this)
     f (spectralForm this).
Definition set_spectralForm (this : t) (s : list Complex.t) : t :=
  mk (dimensions this) (values this) (phase this) (coherence this) (dynamics this)
     (primeFactors this) s.

(** [ToInt32] and [h << n] on an integer-valued number. *)
Definition toInt32 (z : Z) : Z := ((z + 2 ^ 31) mod 2 ^ 32 - 2 ^ 31)%Z.
Definition shiftLeft (z n : Z) : Z := toInt32 (Z.shiftl (toInt32 z) n).

(** A token is the sequence of its UTF-16 code units,
    [token.split('').map(c => c.charCodeAt(0))]. *)
Definition codeUnits (s : string) : list Z :=
  map (fun c => Z.of_nat (nat_of_ascii c)) (list_ascii_of_string s).

Definition hashToken (token : list Z) : Z :=
  fold_left (fun h char => (shiftLeft h 5 - h + char)%Z) token 0%Z.

(** [while (num % d === 0) { factors.push(d); num = Math.floor(num / d); }] *)
Fixpoint divideOut (fuel : nat) (d num : Z) (factors : list Z)
    : option (Z * list Z) :=
  if decide (Z.rem num d = 0%Z) then
    match fuel with
    | O => None
    | S fuel' => divideOut fuel' d (num / d)%Z (factors ++ [d])
    end
  else Some (num, factors).

(** [while (num > 1) { ...; d++; if (d * d > num) { ...; break; } }] *)
Fixpoint factorLoop (fuel : nat) (d num : Z) (factors : list Z)
    : option (list Z) :=
  if decide (1 < num)%Z then
    match fuel with
    | O => None
    | S fuel' =>
        match divideOut (Z.to_nat num) d num factors with
        | None => None
        | Some (num, factors) =>
            let d := (d + 1)%Z in
            if decide (num < d * d)%Z then
              Some (if decide (1 < num)%Z then factors ++ [num] else factors)
            else factorLoop fuel' d num factors
        end
    end
  else Some factors.

(** [getPrimeFactors]; the loops are given [n] iterations, which they
    never use up ([factorLoop_terminates]). *)
Definition getPrimeFactors (n : Z) : list Z :=
  if decide (n <= 1)%Z then [1%Z]
  else default [] (factorLoop (Z.to_nat n) 2 n []).

Definition spectralFormFactor (p q : Z) (tau : R) : Complex.t :=
  let phase := (ln (IZR p) - ln (IZR q)) * tau in
  Complex.mk (cos phase / (IZR p * IZR q)) (sin phase / (IZR p * IZR q)).

Definition berryPhase (primes : list Z) (x : R) : R :=
  fold_left (fun phase p => phase + ln (IZR p) * x) primes 0.

(** The double loop [for i ... for (j = i; ...)] over the prime factors. *)
Definition spectralSum (primes : list Z) (x : R) : Complex.t :=
  fold_left
    (fun acc i =>
       fold_left
         (fun acc j =>
            let tau := 2 * PI * x in
            match primes !! i, primes !! j with
            | Some p, Some q => Complex.add acc (spectralFormFactor p q tau)
            | _, _ => acc
            end)
         (seq i (length primes - i)) acc)
    (seq 0 (length primes)) (Complex.mk 0 0).

(** [a[k] = v] for [k <= a.length]: inside the array the slot is
    overwritten, at its end the array grows by one.  The loop of
    [initialize] counts [k] up from 0 and assigns at every [k], so it
    never assigns past the end. *)
Definition assignIndex {A} (a : list A) (k : nat) (v : A) : list A :=
  if (k <? length a)%nat then <[k := v]> a else a ++ [v].

Definition initializeStep (this : t) (normalization : R) (k : nat) : t :=
  let x := INR k / INR (length (values this)) in
  let berryPhase := berryPhase (primeFactors this) x in
  let spectralSum := spectralSum (primeFactors this) x in
  let phase_k := berryPhase + Complex.phase spectralSum in
  let magnitude := Complex.magnitude spectralSum / normalization in
  let this := set_values this
                (assignIndex (values this) k (Complex.fromPolar magnitude phase_k)) in
  let this := set_phase this (assignIndex (phase this) k phase_k) in
  let this := set_spectralForm this (assignIndex (spectralForm this) k spectralSum) in
  let this := set_coherence this (coherence this + magnitude * magnitude) in
  set_coherence this (sqrt (coherence this / INR (dimensions this))).

Definition initialize (this : t) (token : list Z) : t :=
  let this := set_coherence this 0 in
  let hash := hashToken token in
  let this := set_primeFactors this (getPrimeFactors (Z.abs hash + 1)) in
  let normalization :=
    sqrt (fold_left (fun sum p => sum + 1 / IZR p) (primeFactors this) 0) in
  fold_left (fun this k => initializeStep this normalization k)
            (seq 0 (length (values this))) this.

Definition getSpectralPattern (this : t) : list Complex.t := spectralForm this.
Definition getValues (this : t) : list Complex.t := values this.

(** [a.map((v, i) => v.add(b[i]))]: [b[i]] is [undefined] past the end
    of [b], and [v.add(undefined)] throws. *)
Definition addArrays (a b : list Complex.t) : result (list Complex.t) :=
  if (length b <? length a)%nat
  then Throw "TypeError: cannot read properties of undefined"
  else Ok (map (fun pair : Complex.t * Complex.t => Complex.add pair.1 pair.2)
               (zip a b)).

(** [[...new Set(l)]]: the first occurrence of each element, in order. *)
Definition uniqueInOrder (l : list Z) : list Z :=
  fold_left (fun seen x => if decide (x ∈ seen) then seen else seen ++ [x]) l [].

Definition add (this other : t) : result t :=
  let sum := new (length (values this)) in
  bind_result (addArrays (values this) (values other)) (fun vs =>
    let sum := set_values sum vs in
    let sum := set_primeFactors sum
                 (uniqueInOrder (primeFactors this ++ primeFactors other)) in
    bind_result (addArrays (spectralForm this) (spectralForm other)) (fun sf =>
      Ok (set_spectralForm sum sf))).

Definition normalize (this : t) : t :=
  let norm :=
    sqrt (fold_left
            (fun sum v =>
               sum + Complex.real (Complex.multiply v (Complex.conjugate v)))
            (values this) 0) in
  if Rlt_dec 0 norm
  then set_values this (map (fun v => Complex.scale v (1 / norm)) (values this))
  else this.

(** [sum over i of |values[i]|^2] *)
Definition squaredNorm (vs : list Complex.t) : R :=
  fold_left (fun sum v => sum + Complex.magnitude v * Complex.magnitude v) vs 0.

(** The fields the class itself builds keep their arrays as long as
    [dimensions] says. *)
Definition wellFormed (this : t) : Prop :=
  length (values this) = dimensions this
  /\ length (phase this) = dimensions this
  /\ length (spectralForm this) = dimensions this.

(** [computeResonance]; past the end of [other.values] the loop reads
    [undefined], whose [.conjugate()] throws. *)
Definition computeResonance (this other : t) : result R :=
  if (length (values other) <? length (values this))%nat
  then Throw "TypeError: cannot read properties of undefined"
  else
    let resonance :=
      fold_left
        (fun resonance (pair : Complex.t * Complex.t) =>
           let overlap := Complex.multiply pair.1 (Complex.conjugate pair.2) in
           resonance + Complex.magnitude overlap)
        (zip (values this) (values other)) 0 in
    Ok (resonance / INR (length (values this))).

(** [computePhaseCoherence], which throws in the same way. *)
Definition computePhaseCoherence (this other : t) : result R :=
  if (length (values other) <? length (values this))%nat
  then Throw "TypeError: cannot read properties of undefined"
  else
    let coherence :=
      fold_left
        (fun coherence (pair : Complex.t * Complex.t) =>
           let phase1 := Complex.phase pair.1 in
           let phase2 := Complex.phase pair.2 in
           coherence + cos (phase1 - phase2))
        (zip (values this) (values other)) 0 in
    Ok ((coherence / INR (length (values this)) + 1) / 2).

Definition scale (this : t) (factor : R) : t :=
  let scaled := new (length (values this)) in
  let scaled := set_values scaled (map (fun v => Complex.scale v factor) (values this)) in
  let scaled := set_primeFactors scaled (primeFactors this) in
  set_spectralForm scaled (spectralForm this).

End QuantumField.

(** ** [learner.ts] *)

#[global] Instance R_eq_dec : EqDecision R := Req_dec_T.

Module FieldLearner.

Record LearningContext : Type := mkContext {
  position : option R;
  precedingWords : option (list string);
  followingWords : option (list string);
  sentencePosition : option R
}.

#[global] Instance LearningContext_eq_dec : EqDecision LearningContext.
Proof. solve_decision. Defined.

(** What [getFieldKey] serializes.  [JSON.stringify] maps different
    triples of this shape to different strings, so the triple itself
    stands for the key. *)
Definition FieldKey : Type :=
  (list (R * R) * list (R * R) * option LearningContext)%type.

Record t : Type := mk {
  fieldDimensions : nat;
  learningRate : R;
  momentum : R;
  decayFactor : R;
  fieldMemory : JSMap.t FieldKey QuantumField.t;
  resonanceHistory : JSMap.t FieldKey (list R)
}.

(** The constructor with its defaults. *)
Definition new (fieldDimensions : option nat) (learningRate momentum decayFactor : option R)
    : t :=
  mk (default 512%nat fieldDimensions)
     (default (1 / 100) learningRate)
     (default (9 / 10) momentum)
     (default (99 / 100) decayFactor)
     JSMap.empty JSMap.empty.

Definition getFieldKey (field : QuantumField.t) (context : option LearningContext)
    : FieldKey :=
  let values := QuantumField.getValues field in
  let spectral := QuantumField.getSpectralPattern field in
  (map (fun v => (Complex.real v, Complex.imag v)) values,
   map (fun v => (Complex.real v, Complex.imag v)) spectral,
   context).

(** The array a history holds after [push], [shift] and the decay loop. *)
Definition decayHistory (decayFactor : R) (history : list R) (resonance : R) : list R :=
  let history := history ++ [resonance] in
  let history := if (100 <? length history)%nat then tail history else history in
  imap (fun i h => h * JSMath.pow decayFactor (length history - i - 1)) history.

Definition updateResonanceHistory (this : t) (key : FieldKey) (resonance : R) : t :=
  let history := default [] (JSMap.get (resonanceHistory this) key) in
  mk (fieldDimensions this) (learningRate this) (momentum this) (decayFactor this)
     (fieldMemory this)
     (JSMap.set (resonanceHistory this) key
                (decayHistory (decayFactor this) history resonance)).

(** [computeFieldAdjustment]; [sourceValues[i]] is [undefined] past the
    end of the array, and [undefined.phase()] throws. *)
Definition computeFieldAdjustment (this : t) (sourceField targetField : QuantumField.t)
    (resonance : R) : result QuantumField.t :=
  let adjustment := QuantumField.new (fieldDimensions this) in
  let sourceValues := QuantumField.getValues sourceField in
  let targetValues := QuantumField.getValues targetField in
  let filled :=
    fold_left
      (fun (acc : result QuantumField.t) i =>
         bind_result acc (fun adjustment =>
           match sourceValues !! i, targetValues !! i with
           | Some s, Some t =>
               let sourcePhase := Complex.phase s in
               let targetPhase := Complex.phase t in
               let phaseDiff := targetPhase - sourcePhase in
               let magnitude := resonance * learningRate this in
               let phase := phaseDiff * momentum this in
               Ok (QuantumField.set_values adjustment
                     (<[i := Complex.fromPolar magnitude phase]>
                        (QuantumField.getValues adjustment)))
           | _, _ => Throw "TypeError: cannot read properties of undefined"
           end))
      (seq 0 (fieldDimensions this)) (Ok adjustment) in
  bind_result filled (fun adjustment => Ok (QuantumField.normalize adjustment)).

Definition setFieldMemory (this : t) (key : FieldKey) (field : QuantumField.t) : t :=
  mk (fieldDimensions this) (learningRate this) (momentum this) (decayFactor this)
     (JSMap.set (fieldMemory this) key field)
     (resonanceHistory this).

(** [learnFromInteraction] returns the learner after the call, and
    whether the call returned or threw: the history is written before
    anything can throw. *)
Definition learnFromInteraction (this : t) (sourceField targetField : QuantumField.t)
    (resonance : R) (context : option LearningContext) : t * result unit :=
  let sourceKey := getFieldKey sourceField context in
  let targetKey := getFieldKey targetField context in
  let this := updateResonanceHistory this sourceKey resonance in
  match computeFieldAdjustment this sourceField targetField resonance with
  | Throw m => (this, Throw m)
  | Ok adjustment =>
      match QuantumField.add sourceField adjustment with
      | Throw m => (this, Throw m)
      | Ok adjustedSource =>
          let adjustedSource := QuantumField.normalize adjustedSource in
          let this := setFieldMemory this sourceKey adjustedSource in
          let this := setFieldMemory this targetKey targetField in
          (this, Ok tt)
      end
  end.

Definition getResonancePattern (this : t) (field : QuantumField.t)
    (context : option LearningContext) : list R :=
  let key := getFieldKey field context in
  default [] (JSMap.get (resonanceHistory this) key).

Definition clearMemory (this : t) : t :=
  mk (fieldDimensions this) (learningRate this) (momentum this) (decayFactor this)
     JSMap.empty JSMap.empty.

(** [count] calls of [learnFromInteraction] with the same arguments. *)
Definition learnRepeatedly (count : nat) (this : t) (sourceField targetField : QuantumField.t)
    (resonance : R) (context : option LearningContext) : t :=
  Nat.iter count
    (fun this => fst (learnFromInteraction this sourceField targetField resonance context))
    this.

(** [findSimilarFields]; [threshold] is [None] when the caller leaves it
    to its default. *)
Definition findSimilarFields (this : t) (field : QuantumField.t) (threshold : option R)
    (context : option LearningContext) : result (list QuantumField.t) :=
  let threshold := default (8 / 10) threshold in
  let fieldKey := getFieldKey field context in
  fold_left
    (fun (acc : result (list QuantumField.t)) (entry : FieldKey * QuantumField.t) =>
       bind_result acc (fun similar =>
         if decide (entry.1 = fieldKey) then Ok similar
         else
           bind_result (QuantumField.computeResonance field entry.2) (fun resonance =>
             bind_result (QuantumField.computePhaseCoherence field entry.2)
               (fun phaseCoherence =>
                  let similarity := (resonance + phaseCoherence) / 2 in
                  if Rle_dec threshold similarity then Ok (similar ++ [entry.2])
                  else Ok similar))))
    (JSMap.entries (fieldMemory this)) (Ok []).

End FieldLearner.

(** [a.reduce((x, y) => x + y, 0) / a.length], the average the callers of
    [getResonancePattern] take. *)
Definition average (a : list R) : R :=
  fold_left Rplus a 0 / INR (length a).

(** ** A [number] that may be infinite or [NaN] *)

Module NumberOrNaN.

Inductive t : Type :=
| Finite (x : R)
| PlusInfinity
| MinusInfinity
| NaN.

(** [a - b].  The difference of two finite doubles is rounded and may
    overflow, but it has the sign of the exact difference and is zero
    only for equal numbers; what is done with a difference below reads
    its sign only. *)
Definition sub (a b : t) : t :=
  match a, b with
  | NaN, _ => NaN
  | _, NaN => NaN
  | Finite x, Finite y => Finite (x - y)
  | Finite _, PlusInfinity => MinusInfinity
  | Finite _, MinusInfinity => PlusInfinity
  | PlusInfinity, PlusInfinity => NaN
  | PlusInfinity, _ => PlusInfinity
  | MinusInfinity, MinusInfinity => NaN
  | MinusInfinity, _ => MinusInfinity
  end.

(** [v > 0], which is false for [NaN]. *)
Definition isPositive (v : t) : bool :=
  match v with
  | Finite x => if Rlt_dec 0 x then true else false
  | PlusInfinity => true
  | MinusInfinity => false
  | NaN => false
  end.

(** [a <= b], which is false when either side is [NaN]. *)
Definition le (a b : t) : Prop :=
  match a, b with
  | NaN, _ => False
  | _, NaN => False
  | MinusInfinity, _ => True
  | _, PlusInfinity => True
  | Finite x, Finite y => x <= y
  | _, _ => False
  end.

End NumberOrNaN.

(** ** [patterns.ts] *)

Module PatternDetector.

Inductive PatternType : Type := cluster | sequence | similarity | anomaly.

Record PatternMetadata : Type := mkPatternMetadata {
  pm_timestamp : R;
  pm_algorithm : string;
  pm_parameters : list (string * R)
}.

Record Pattern : Type := mkPattern {
  type : PatternType;
  states : list string;
  score : NumberOrNaN.t;
  properties : list (string * NumberOrNaN.t);
  metadata : PatternMetadata
}.

Record PatternDetectionOptions : Type := mkOptions {
  minClusterSize : R;
  similarityThreshold : R;
  coherenceWeight : R;
  amplitudeWeight : R;
  phaseWeight : R;
  maxPatterns : Z
}.

(** The defaults of the constructor. *)
Definition defaultOptions : PatternDetectionOptions :=
  mkOptions 3 (7 / 10) (4 / 10) (3 / 10) (3 / 10) 10.

(** [patterns.sort((a, b) => b.score - a.score)].  [Array.prototype.sort]
    is stable and reads a comparator result [NaN] as [+0]: [b] comes to
    stand before an [a] that preceded it only if the comparator gives
    [compare(a, b) > 0].  With a consistent comparator, which
    [b.score - a.score] is when no score is [NaN], the result is the
    stable insertion of each element in turn.  With a [NaN] score
    among different scores the comparator is not consistent and the
    order is left to the engine; the insertion then gives one of the
    orders an engine may give. *)
Definition compareScore (a b : Pattern) : NumberOrNaN.t :=
  NumberOrNaN.sub (score b) (score a).

Fixpoint insertSorted (compare : Pattern -> Pattern -> NumberOrNaN.t) (a : Pattern)
    (sorted : list Pattern) : list Pattern :=
  match sorted with
  | [] => [a]
  | b :: rest =>
      if NumberOrNaN.isPositive (compare a b) then b :: insertSorted compare a rest
      else a :: b :: rest
  end.

Definition sort (compare : Pattern -> Pattern -> NumberOrNaN.t)
    (patterns : list Pattern) : list Pattern :=
  foldr (insertSorted compare) [] patterns.


Section Detect.

(** The four private detectors [detectClusters], [detectSequences],
    [detectSimilarities] and [detectAnomalies] are parameters here: each
    is a function of the options and the states that returns its patterns
    or throws, and what [detectPatterns] does with the patterns does not
    depend on which patterns they are. *)
Variables detectClusters detectSequences detectSimilarities detectAnomalies :
  PatternDetectionOptions -> list EncodedState -> result (list Pattern).


End Detect.

(** Scores in descending order: [b.score <= a.score] for every [b]
    that stands after [a]. *)
Definition sortedByScore (patterns : list Pattern) : Prop :=
  StronglySorted (fun a b => NumberOrNaN.le (score b) (score a)) patterns.

(** [calculateWavefunctionSimilarity]; [dims2[i]] is [undefined] past the
    end of [dims2], and reading its [.real] throws. *)
Definition calculateWavefunctionSimilarity (wave1 wave2 : WaveFunction.t) : result R :=
  let dims1 := WaveFunction.getDimensions wave1 in
  let dims2 := WaveFunction.getDimensions wave2 in
  if (length dims2 <? length dims1)%nat
  then Throw "TypeError: cannot read properties of undefined"
  else
    let similarity :=
      fold_left
        (fun similarity (pair : Complex.t * Complex.t) =>
           let mag1 := sqrt (Complex.real pair.1 * Complex.real pair.1
                             + Complex.imag pair.1 * Complex.imag pair.1) in
           let mag2 := sqrt (Complex.real pair.2 * Complex.real pair.2
                             + Complex.imag pair.2 * Complex.imag pair.2) in
           similarity + (1 - Rabs (mag1 - mag2)))
        (zip dims1 dims2) 0 in
    Ok (similarity / INR (length dims1)).

Definition calculateStateSimilarity (options : PatternDetectionOptions)
    (state1 state2 : EncodedState) : result R :=
  let amplitudeSimilarity :=
    1 - Rabs (WaveFunction.getAmplitude (waveFunction state1)
              - WaveFunction.getAmplitude (waveFunction state2)) in
  let phaseSimilarity :=
    1 - Rabs (WaveFunction.getPhase (waveFunction state1)
              - WaveFunction.getPhase (waveFunction state2)) / (2 * PI) in
  bind_result
    (calculateWavefunctionSimilarity (waveFunction state1) (waveFunction state2))
    (fun dimensionSimilarity =>
       Ok (amplitudeSimilarity * amplitudeWeight options
           + phaseSimilarity * phaseWeight options
           + dimensionSimilarity
             * (1 - amplitudeWeight options - phaseWeight options))).

Definition calculateVariance (values : list R) : R :=
  let mean := fold_left (fun sum v => sum + v) values 0 / INR (length values) in
  let squaredDiffs := map (fun v => (v - mean) * (v - mean)) values in
  fold_left (fun sum d => sum + d) squaredDiffs 0 / INR (length values).

Definition calculateClusterStability (cluster : list EncodedState) : R :=
  let amplitudes :=
    map (fun state => WaveFunction.getAmplitude (waveFunction state)) cluster in
  let phases := map (fun state => WaveFunction.getPhase (waveFunction state)) cluster in
  let amplitudeVariance := calculateVariance amplitudes in
  let phaseVariance := calculateVariance phases in
  exp (- (amplitudeVariance + phaseVariance)).

End PatternDetector.

(** ** The same arithmetic on doubles *)

(** [normalize()] of [field.ts] and of [wavefunction.ts] once more, on
    binary64 numbers: the array of complex numbers is all that the two
    methods read and write. *)
Module Double.

Module Complex.

Record t : Type := mk { real : float; imag : float }.

Definition multiply (this other : t) : t :=
  mk (real this * real other - imag this * imag other)%float
     (real this * imag other + imag this * real other)%float.

Definition conjugate (this : t) : t :=
  mk (real this) (- imag this)%float.

Definition scale (this : t) (factor : float) : t :=
  mk (real this * factor)%float (imag this * factor)%float.

End Complex.

Module QuantumField.

Definition normalize (values : list Complex.t) : list Complex.t :=
  let norm :=
    PrimFloat.sqrt
      (fold_left
         (fun sum v =>
            (sum + Complex.real (Complex.multiply v (Complex.conjugate v)))%float)
         values 0%float) in
  if (0 <? norm)%float
  then map (fun v => Complex.scale v (1 / norm)%float) values
  else values.

End QuantumField.

Module WaveFunction.

Definition normalize (dimensions : list Complex.t) : list Complex.t :=
  let norm :=
    PrimFloat.sqrt
      (fold_left
         (fun acc dim =>
            (acc + Complex.real (Complex.multiply dim (Complex.conjugate dim)))%float)
         dimensions 0%float) in
  if (norm =? 0)%float then dimensions
  else map (fun dim => Complex.scale dim (1 / norm)%float) dimensions.

End WaveFunction.

(** [sum over i of |values[i]|^2], added up in doubles. *)
Definition squaredNorm (values : list Complex.t) : float :=
  fold_left
    (fun sum v =>
       (sum + (Complex.real v * Complex.real v + Complex.imag v * Complex.imag v))%float)
    values 0%float.

(** A complex number both of whose parts are a zero, [0] or [-0]. *)
Definition isZero (v : Complex.t) : Prop :=
  (Complex.real v = 0%float \/ Complex.real v = (-0)%float)
  /\ (Complex.imag v = 0%float \/ Complex.imag v = (-0)%float).

(** [|x - 1| <= 1e-6], the tolerance of the specification; the bound is
    the double nearest to [1e-6]. *)
Definition nearOne (x : float) : bool :=
  (PrimFloat.abs (x - 1) <=? 0x1.0c6f7a0b5ed8dp-20)%float.

End Double.

(* ===================================================================== *)
(** * Part I, continued: the vocabulary of the statements                *)
(* ===================================================================== *)

(** A map is [keyed] by [idOf] when its keys are distinct and each
    value sits under its own identifier. *)
Definition keyed {K V : Type} (idOf : V -> K) (m : JSMap.t K V) : Prop :=
  NoDup (JSMap.keys m) /\ Forall (fun kv : K * V => kv.1 = idOf kv.2) m.

(** The invariant of the two maps of a graph. *)
Definition Graph_wf (g : Graph.t) : Prop :=
  keyed node_id (Graph.nodes g) /\ keyed edge_id (Graph.edges g).

(** Every stored edge has its weight in [[0,1]]. *)
Definition weightsInRange (g : Graph.t) : Prop :=
  forall k e, (k, e) ∈ Graph.edges g -> 0 <= edge_weight e <= 1.

(** A call that brings no weight outside [[0,1]] with it. *)
Definition callInRange (c : Graph.call) : Prop :=
  match c with
  | Graph.CallAddEdge _ _ _ _ weight _ => 0 <= default 1 weight <= 1
  | Graph.CallFromJSON data =>
      Forall (fun e => 0 <= edge_weight e <= 1) (data_edges data)
  | _ => True
  end.

(** A small graph: three nodes, [a -> b] and [b -> c]. *)
Definition sampleGraph : Graph.t :=
  Graph.run
    [ Graph.CallAddNode "a" "cat" "concept" None;
      Graph.CallAddNode "b" "mouse" "concept" None;
      Graph.CallAddNode "c" "cheese" "concept" None;
      Graph.CallAddEdge "e1" "a" "b" "chases" (Some (9 / 10)) None;
      Graph.CallAddEdge "e2" "b" "c" "eats" None None ].

(** A wave function whose entries are all [0 + 0i]. *)
Definition zeroWave (w : WaveFunction.t) : Prop :=
  WaveFunction.dimensions w
  = replicate (length (WaveFunction.dimensions w)) (Complex.mk 0 0).

(** The configuration of Scenario C: dissipation at rate 0.5 alone, steps
    of 0.1 up to time 1.0; the two flags are left open. *)
Definition dissipationOptions (preserveConnections trackMetrics : bool)
    : QuantumEvolution.EvolutionOptions :=
  QuantumEvolution.mkOptions (1 / 10) 1
    [QuantumEvolution.createDissipationOperator (1 / 2)]
    preserveConnections trackMetrics.

(** A node, and two encoded states of it whose wave functions differ in
    every entry. *)
Definition sampleNode : GraphNode :=
  mkGraphNode "n1" "Test Node" "concept" [("weight"%string, JSNumber 1)] None.

Definition sampleMetadata : Metadata :=
  mkMetadata "semantic-quantum" 0 (mkEncodingOptions 2 360 1 (1 / 2)).

Definition sampleStateA : EncodedState :=
  mkEncodedState
    (WaveFunction.mk [Complex.mk 1 0; Complex.mk 0 1] 1 0 "wa" [])
    sampleNode ["n2"%string] sampleMetadata.

Definition sampleStateB : EncodedState :=
  mkEncodedState
    (WaveFunction.mk [Complex.mk (3 / 5) (4 / 5); Complex.mk 2 2] (1 / 2) 1 "wb" [])
    sampleNode ["n2"%string] sampleMetadata.

(** Sums written by a loop [sum += g(v)]. *)
Definition Rsum (l : list R) : R := foldr Rplus 0 l.

Definition squaredModulus (v : Complex.t) : R :=
  Complex.real v * Complex.real v + Complex.imag v * Complex.imag v.

(** Two fields agree up to [k] when they have the same size and prime
    factors, the same running coherence, and the same first [k] values
    and phases. *)
Definition agreeUpTo (n k : nat) (f1 f2 : QuantumField.t) : Prop :=
  QuantumField.dimensions f1 = QuantumField.dimensions f2
  /\ QuantumField.primeFactors f1 = QuantumField.primeFactors f2
  /\ QuantumField.coherence f1 = QuantumField.coherence f2
  /\ length (QuantumField.values f1) = n /\ length (QuantumField.values f2) = n
  /\ length (QuantumField.phase f1) = n /\ length (QuantumField.phase f2) = n
  /\ take k (QuantumField.values f1) = take k (QuantumField.values f2)
  /\ take k (QuantumField.phase f1) = take k (QuantumField.phase f2).

(** The phase and the magnitude [initialize] gives dimension [k] of [n]. *)
Definition phaseAt (primes : list Z) (n k : nat) : R :=
  QuantumField.berryPhase primes (INR k / INR n)
  + Complex.phase (QuantumField.spectralSum primes (INR k / INR n)).

Definition magnitudeAt (primes : list Z) (normalization : R) (n k : nat) : R :=
  Complex.magnitude (QuantumField.spectralSum primes (INR k / INR n)) / normalization.

(** The update of [this.coherence] in one round of the loop: the
    magnitude is added and the square root of the mean is taken at once. *)
Definition coherenceRound (primes : list Z) (normalization : R) (n dims : nat)
    (coherence : R) (k : nat) : R :=
  sqrt ((coherence
         + magnitudeAt primes normalization n k * magnitudeAt primes normalization n k)
        / INR dims).

(** The triangular numbers: entry of age [k] has been decayed [k] times,
    by exponents [1], [2], ..., [k]. *)
Fixpoint triangular (k : nat) : nat :=
  match k with
  | O => O
  | S k' => (triangular k' + k)%nat
  end.

(** The history of a key that has seen resonance 1.0 [m] times, oldest
    entry first. *)
Fixpoint decayedOnes (d : R) (m : nat) : list R :=
  match m with
  | O => []
  | S m' => d ^ triangular m' :: decayedOnes d m'
  end.

(** A learner with the defaults of its constructor and the fields of two
    tokens. *)
Definition defaultLearner : FieldLearner.t := FieldLearner.new None None None None.

Definition catField : QuantumField.t :=
  QuantumField.initialize (QuantumField.new 512) (QuantumField.codeUnits "cat").

Definition mouseField : QuantumField.t :=
  QuantumField.initialize (QuantumField.new 512) (QuantumField.codeUnits "mouse").

(** Three patterns, one each from three of the detectors, and a limit of 2. *)
Definition scoredPattern (type : PatternDetector.PatternType) (ids : list string)
    (score : NumberOrNaN.t) : PatternDetector.Pattern :=
  PatternDetector.mkPattern type ids score []
    (PatternDetector.mkPatternMetadata 0 "sample" []).

Definition samplePattern (type : PatternDetector.PatternType) (ids : list string)
    (score : R) : PatternDetector.Pattern :=
  scoredPattern type ids (NumberOrNaN.Finite score).



(** ** Notions of the further properties *)

(** No edge dangles: both ends of every stored edge are nodes of the graph. *)
Definition noDanglingEdges (g : Graph.t) : Prop :=
  forall k e, (k, e) ∈ Graph.edges g ->
    JSMap.has (Graph.nodes g) (edge_source e) = true
    /\ JSMap.has (Graph.nodes g) (edge_target e) = true.

(** An edge is at [id] when [id] is its source or its target. *)
Definition edgeAt (id : string) (e : GraphEdge) : Prop :=
  edge_source e = id \/ edge_target e = id.

(** The number of node ids an edge is at: 1 for a loop, 2 otherwise. *)
Definition endCount (e : GraphEdge) : nat :=
  if decide (edge_source e = edge_target e) then 1%nat else 2%nat.

(** An operator made by one of the three factories of [QuantumEvolution]. *)
Definition builtinOperator (operator : QuantumEvolution.EvolutionOperator) : Prop :=
  (exists frequency amplitude,
      operator = QuantumEvolution.createHarmonicOperator frequency amplitude)
  \/ (exists rate, operator = QuantumEvolution.createDissipationOperator rate)
  \/ (exists frequency,
         operator = QuantumEvolution.createPhaseEvolutionOperator frequency).

(** The entries a loop records at the times [t], [t + dt], [t + 2 dt],
    ... each satisfy [Q] at its time. *)
Fixpoint stepsFrom (Q : R -> QuantumEvolution.Recorded -> Prop) (dt t : R)
    (added : list QuantumEvolution.Recorded) : Prop :=
  match added with
  | [] => True
  | r :: rest => Q t r /\ stepsFrom Q dt (t + dt) rest
  end.

(** What the first loop of [getShortestPath] keeps true of its two maps:
    the predecessor of a node has been visited and is strictly closer
    to the source, no distance exceeds the number of nodes visited, and
    a node with a predecessor has an edge at it. *)
Definition visitInvariant (g : Graph.t) (unvisited : list string)
    (maps : JSMap.t string nat * JSMap.t string string) : Prop :=
  (forall x p, JSMap.get (snd maps) x = Some p ->
     (p ∉ unvisited)
     /\ exists dp dx,
          JSMap.get (fst maps) p = Some dp /\ JSMap.get (fst maps) x = Some dx
          /\ (dp < dx)%nat)
  /\ (forall x d, JSMap.get (fst maps) x = Some d ->
        (d + length unvisited <= length (JSMap.keys (Graph.nodes g)))%nat)
  /\ (forall x p, JSMap.get (snd maps) x = Some p ->
        exists e, In e (JSMap.values (Graph.edges g)) /\ edgeAt x e).

(** ** Ranges and tolerances of the numeric statements *)

(** A sum of squares in this range neither underflows nor overflows when
    it is added up in doubles, and neither do its square root and the
    reciprocal of the root. *)
Definition inDoubleRange (x : R) : Prop := / 10 ^ 290 <= x <= 10 ^ 290.

(** [|x - y| <= 1e-6], the tolerance of the specification. *)
Definition near (x y : R) : Prop := Rabs (x - y) <= / 10 ^ 6.

(** A number far from both ends of the range of doubles: products of
    two such numbers are in the range still. *)
Definition moderate (x : R) : Prop := / 10 ^ 100 <= x <= 10 ^ 100.

(** A wave function as the class keeps it: the amplitude as
    [setAmplitude] clamps it, the phase as [setPhase] reduces it, and
    dimensions whose squared magnitudes do not overflow. *)
Definition inRangeWave (w : WaveFunction.t) : Prop :=
  0 <= WaveFunction.amplitude w <= 1
  /\ 0 <= WaveFunction.phase w <= 2 * PI
  /\ Forall (fun dim => squaredModulus dim <= 10 ^ 300) (WaveFunction.dimensions w).

(** Two complex numbers whose parts differ by no more than [1e-6]. *)
Definition closeTo (v w : Complex.t) : Prop :=
  Rabs (Complex.real v - Complex.real w) <= / 10 ^ 6
  /\ Rabs (Complex.imag v - Complex.imag w) <= / 10 ^ 6.

(** An operator of the three factories whose parameters keep its
    arithmetic finite at every time of a run up to [totalTime]: the
    argument of [Math.exp] stays below 700, where [Math.exp] is still
    finite, and the angle [frequency * time] stays a finite number. *)
Definition operatorInRange (totalTime : R)
    (operator : QuantumEvolution.EvolutionOperator) : Prop :=
  (exists frequency amplitude,
      operator = QuantumEvolution.createHarmonicOperator frequency amplitude
      /\ Rabs frequency * totalTime <= 10 ^ 300)
  \/ (exists rate,
         operator = QuantumEvolution.createDissipationOperator rate
         /\ Rabs rate * totalTime <= 700)
  \/ (exists frequency,
         operator = QuantumEvolution.createPhaseEvolutionOperator frequency
         /\ Rabs frequency * totalTime <= 10 ^ 300).

(* ===================================================================== *)
(** * Part II: properties                                                 *)
(* ===================================================================== *)

(** ** Maps *)

Section JSMapFacts.
Context {K : Type} `{EqDecision K} {V : Type}.
Implicit Types (m : JSMap.t K V) (k : K) (v : V).

Lemma JSMap_get_Some_elem m k v :
  JSMap.get m k = Some v -> (k, v) ∈ m.
Proof.
  induction m as [|[k' v'] m IH]; simpl; [discriminate|].
  destruct (decide (k' = k)) as [->|Hne]; intros Hget.
  - injection Hget as ->. apply elem_of_cons; left; reflexivity.
  - apply elem_of_cons; right; auto.
Qed.

Lemma JSMap_get_None_keys m k :
  JSMap.get m k = None <-> k ∉ JSMap.keys m.
Proof.
  induction m as [|[k' v'] m IH]; simpl.
  - split; [intros _; apply not_elem_of_nil | reflexivity].
  - destruct (decide (k' = k)) as [->|Hne].
    + split; [discriminate|]. intros Hn. exfalso. apply Hn, elem_of_cons; left; reflexivity.
    + rewrite IH. split; intros Hn Hin.
      * apply elem_of_cons in Hin as [Heq|Hin]; [congruence | contradiction].
      * apply Hn, elem_of_cons; right; assumption.
Qed.

Lemma JSMap_get_set_eq m k v :
  JSMap.get (JSMap.set m k v) k = Some v.
Proof.
  induction m as [|[k' v'] m IH]; simpl.
  - destruct (decide (k = k)); [reflexivity | contradiction].
  - destruct (decide (k' = k)) as [->|Hne]; simpl.
    + destruct (decide (k = k)); [reflexivity | contradiction].
    + destruct (decide (k' = k)); [contradiction | assumption].
Qed.

Lemma JSMap_set_fresh m k v :
  k ∉ JSMap.keys m -> JSMap.set m k v = m ++ [(k, v)].
Proof.
  induction m as [|[k' v'] m IH]; simpl; intros Hn; [reflexivity|].
  destruct (decide (k' = k)) as [->|Hne].
  - exfalso. apply Hn, elem_of_cons; left; reflexivity.
  - f_equal. apply IH. intros Hin. apply Hn, elem_of_cons; right; assumption.
Qed.

Lemma JSMap_keys_set_present m k v :
  k ∈ JSMap.keys m -> JSMap.keys (JSMap.set m k v) = JSMap.keys m.
Proof.
  induction m as [|[k' v'] m IH]; simpl; intros Hin.
  - apply elem_of_nil in Hin. contradiction.
  - destruct (decide (k' = k)) as [->|Hne]; simpl; [reflexivity|].
    f_equal. apply IH. apply elem_of_cons in Hin as [Heq|Hin]; [congruence | assumption].
Qed.

Lemma JSMap_elem_set m k v k' v' :
  (k', v') ∈ JSMap.set m k v -> (k' = k /\ v' = v) \/ (k', v') ∈ m.
Proof.
  induction m as [|[k0 v0] m IH]; simpl; intros Hin.
  - apply list_elem_of_singleton in Hin. injection Hin as -> ->. left; split; reflexivity.
  - destruct (decide (k0 = k)) as [->|Hne].
    + apply elem_of_cons in Hin as [Heq|Hin].
      * injection Heq as -> ->. left; split; reflexivity.
      * right. apply elem_of_cons; right; assumption.
    + apply elem_of_cons in Hin as [Heq|Hin].
      * right. apply elem_of_cons; left; assumption.
      * destruct (IH Hin) as [Hl|Hr]; [left; assumption|].
        right. apply elem_of_cons; right; assumption.
Qed.

Lemma JSMap_elem_delete m k k' v' :
  (k', v') ∈ JSMap.delete m k <-> (k', v') ∈ m /\ k' <> k.
Proof.
  induction m as [|[k0 v0] m IH]; simpl.
  - split; [intros Hin; apply elem_of_nil in Hin; contradiction|].
    intros [Hin _]; assumption.
  - destruct (decide (k0 = k)) as [->|Hne].
    + rewrite IH. split.
      * intros [Hin Hk]. split; [apply elem_of_cons; right; assumption | assumption].
      * intros [Hin Hk]. split; [|assumption].
        apply elem_of_cons in Hin as [Heq|Hin]; [congruence | assumption].
    + rewrite !elem_of_cons, IH. split.
      * intros [Heq|[Hin Hk]]; [|split; [right|]; assumption].
        split; [left; assumption | congruence].
      * intros [[Heq|Hin] Hk]; [left; assumption | right; split; assumption].
Qed.

Lemma JSMap_keys_delete_sub m k k' :
  k' ∈ JSMap.keys (JSMap.delete m k) -> k' ∈ JSMap.keys m.
Proof.
  unfold JSMap.keys. rewrite !list_elem_of_fmap.
  intros [[k0 v0] [-> Hin]]. apply JSMap_elem_delete in Hin as [Hin _].
  exists (k0, v0); split; [reflexivity | assumption].
Qed.

Lemma keyed_empty (idOf : V -> K) : keyed idOf (JSMap.empty : JSMap.t K V).
Proof. split; [apply NoDup_nil_2 | apply Forall_nil_2]. Qed.

Lemma NoDup_keys_set m k v :
  NoDup (JSMap.keys m) -> NoDup (JSMap.keys (JSMap.set m k v)).
Proof.
  intros Hnd. destruct (decide (k ∈ JSMap.keys m)) as [Hin|Hn].
  - rewrite JSMap_keys_set_present; assumption.
  - rewrite JSMap_set_fresh by assumption. unfold JSMap.keys in *.
    rewrite fmap_app. apply NoDup_app. split; [assumption|]. split.
    + intros x Hx Hx'. apply list_elem_of_singleton in Hx'. simpl in Hx'.
      subst x. contradiction.
    + apply NoDup_singleton.
Qed.

Lemma NoDup_keys_delete m k :
  NoDup (JSMap.keys m) -> NoDup (JSMap.keys (JSMap.delete m k)).
Proof.
  induction m as [|[k0 v0] m IH]; simpl; intros Hnd; [assumption|].
  apply NoDup_cons in Hnd as [Hn Hnd].
  destruct (decide (k0 = k)) as [->|Hne]; [auto|].
  simpl. apply NoDup_cons. split; [|auto].
  intros Hin. apply Hn. eapply JSMap_keys_delete_sub; eassumption.
Qed.

Lemma keyed_set idOf m k v :
  k = idOf v -> keyed idOf m -> keyed idOf (JSMap.set m k v).
Proof.
  intros Hk [Hnd Hall]. split; [apply NoDup_keys_set; assumption|].
  apply Forall_forall. intros [k' v'] Hin.
  apply JSMap_elem_set in Hin as [[-> ->]|Hin]; [assumption|].
  rewrite Forall_forall in Hall. apply (Hall _ Hin).
Qed.

Lemma keyed_delete idOf m k :
  keyed idOf m -> keyed idOf (JSMap.delete m k).
Proof.
  intros [Hnd Hall]. split; [apply NoDup_keys_delete; assumption|].
  apply Forall_forall. intros [k' v'] Hin.
  apply JSMap_elem_delete in Hin as [Hin _].
  rewrite Forall_forall in Hall. apply (Hall _ Hin).
Qed.

(** Setting the values of a keyed map one after the other, each under
    its identifier, appends the map as it stands. *)
Lemma keyed_rebuild idOf m :
  keyed idOf m ->
  forall acc : JSMap.t K V,
    (forall k, k ∈ JSMap.keys acc -> k ∉ JSMap.keys m) ->
    fold_left (fun ns n => JSMap.set ns (idOf n) n) (JSMap.values m) acc = acc ++ m.
Proof.
  induction m as [|[k v] m IH]; intros [Hnd Hall] acc Hdisj; simpl.
  - rewrite app_nil_r. reflexivity.
  - simpl in Hnd. apply NoDup_cons in Hnd as [Hk Hnd].
    apply Forall_cons in Hall as [Hkv Hall]. simpl in Hkv. subst k.
    rewrite JSMap_set_fresh.
    2:{ intros Hin. apply (Hdisj _ Hin). simpl. apply elem_of_cons; left; reflexivity. }
    unfold JSMap.values in IH. rewrite IH.
    + rewrite <- app_assoc. reflexivity.
    + split; assumption.
    + intros k Hin Hin'. unfold JSMap.keys in Hin. rewrite fmap_app in Hin.
      apply elem_of_app in Hin as [Hin|Hin].
      * apply (Hdisj _ Hin). simpl. apply elem_of_cons; right; assumption.
      * apply list_elem_of_singleton in Hin. simpl in Hin. subst k. contradiction.
Qed.

(** Deleting, for each entry of a list that satisfies [P], the key of
    that entry keeps an entry only if its key was never picked. *)
Lemma delete_picked_elem (P : V -> Prop) `{!forall v, Decision (P v)}
    (l : list (K * V)) :
  forall (m : JSMap.t K V) (kv : K * V),
    kv ∈ fold_left
           (fun es (entry : K * V) =>
              let (k, v) := entry in if decide (P v) then JSMap.delete es k else es)
           l m ->
    kv ∈ m /\ forall k v, (k, v) ∈ l -> P v -> kv.1 <> k.
Proof.
  induction l as [|[k0 v0] l IH]; simpl; intros m kv Hin.
  - split; [assumption|]. intros k v Hkv. apply elem_of_nil in Hkv. contradiction.
  - apply IH in Hin as [Hin Hrest]. destruct (decide (P v0)) as [Hp|Hp].
    + destruct kv as [k' v']. apply JSMap_elem_delete in Hin as [Hin Hne].
      split; [assumption|]. intros k v Hkv Hpv.
      apply elem_of_cons in Hkv as [Heq|Hkv]; [|eauto].
      injection Heq as -> ->. assumption.
    + split; [assumption|]. intros k v Hkv Hpv.
      apply elem_of_cons in Hkv as [Heq|Hkv]; [|eauto].
      injection Heq as -> ->. contradiction.
Qed.

Lemma delete_picked_keyed idOf (P : V -> Prop) `{!forall v, Decision (P v)}
    (l : list (K * V)) :
  forall m : JSMap.t K V,
    keyed idOf m ->
    keyed idOf
      (fold_left
         (fun es (entry : K * V) =>
            let (k, v) := entry in if decide (P v) then JSMap.delete es k else es)
         l m).
Proof.
  induction l as [|[k0 v0] l IH]; simpl; intros m Hm; [assumption|].
  apply IH. destruct (decide (P v0)); [apply keyed_delete|]; assumption.
Qed.

End JSMapFacts.

(** ** The graph *)

Lemma keyed_get_id {V} (idOf : V -> string) (m : JSMap.t string V) k v :
  keyed idOf m -> JSMap.get m k = Some v -> k = idOf v.
Proof.
  intros [_ Hall] Hget. apply JSMap_get_Some_elem in Hget.
  rewrite Forall_forall in Hall. apply (Hall _ Hget).
Qed.

Lemma keyed_fold_set {V} (idOf : V -> string) (l : list V) :
  forall m : JSMap.t string V,
    keyed idOf m ->
    keyed idOf (fold_left (fun ns n => JSMap.set ns (idOf n) n) l m).
Proof.
  induction l as [|v l IH]; simpl; intros m Hm; [assumption|].
  apply IH, keyed_set; [reflexivity | assumption].
Qed.

Lemma Graph_step_wf (g : Graph.t) (c : Graph.call) :
  Graph_wf g -> Graph_wf (Graph.step g c).
Proof.
  intros [Hn He]. destruct c; simpl.
  - split; [|assumption]. apply keyed_set; [reflexivity | assumption].
  - unfold Graph.addEdge.
    destruct (negb (JSMap.has (Graph.nodes g) source)
              || negb (JSMap.has (Graph.nodes g) target)); [split; assumption|].
    split; [assumption|]. apply keyed_set; [reflexivity | assumption].
  - split; [apply keyed_delete; assumption|].
    apply delete_picked_keyed with
      (P := fun edge => edge_source edge = id \/ edge_target edge = id).
    assumption.
  - split; [assumption | apply keyed_delete; assumption].
  - unfold Graph.updateNodePosition.
    destruct (JSMap.get (Graph.nodes g) id) as [node|] eqn:Hget; [|split; assumption].
    split; [|assumption]. apply keyed_set; [|assumption].
    simpl. eapply keyed_get_id; eassumption.
  - unfold Graph.updateEdgeWeight.
    destruct (JSMap.get (Graph.edges g) id) as [edge|] eqn:Hget; [|split; assumption].
    split; [assumption|]. apply keyed_set; [|assumption].
    simpl. eapply keyed_get_id; eassumption.
  - split; apply keyed_empty.
  - split; apply keyed_fold_set, keyed_empty.
Qed.

Lemma Graph_reachable_wf (g : Graph.t) : Graph.reachable g -> Graph_wf g.
Proof.
  intros [calls ->]. unfold Graph.run.
  assert (Hgen : forall g0, Graph_wf g0 -> Graph_wf (fold_left Graph.step calls g0)).
  { induction calls as [|c calls IH]; simpl; intros g0 Hg0; [assumption|].
    apply IH, Graph_step_wf, Hg0. }
  apply Hgen. split; apply keyed_empty.
Qed.

(** The sibling of [addEdge] that does clamp: whatever [updateEdgeWeight]
    stores lies in [[0,1]]. *)
Lemma clamp01_range (w : R) : 0 <= JSMath.clamp01 w <= 1.
Proof.
  unfold JSMath.clamp01. split.
  - apply Rmax_l.
  - apply Rmax_lub; [lra | apply Rmin_l].
Qed.

Lemma Graph_updateEdgeWeight_clamps (g : Graph.t) (id : string) (w : R) (e : GraphEdge) :
  Graph.getEdge g id <> None ->
  Graph.getEdge (Graph.updateEdgeWeight g id w) id = Some e ->
  0 <= edge_weight e <= 1.
Proof.
  unfold Graph.getEdge, Graph.updateEdgeWeight.
  destruct (JSMap.get (Graph.edges g) id) as [edge|] eqn:Hget; simpl; [|congruence].
  intros _. rewrite JSMap_get_set_eq. intros [= <-]. simpl. apply clamp01_range.
Qed.

Lemma sampleGraph_reachable : Graph.reachable sampleGraph.
Proof. eexists. reflexivity. Qed.

(** The weights stay in [[0,1]] as long as [addEdge] and [fromJSON] are
    given weights in [[0,1]]: no other method brings a weight in, and
    [updateEdgeWeight] clamps the one it is given. *)
Lemma Graph_step_weightsInRange (g : Graph.t) (c : Graph.call) :
  callInRange c -> weightsInRange g -> weightsInRange (Graph.step g c).
Proof.
  unfold weightsInRange. intros Hc Hg. destruct c; simpl in *.
  - exact Hg.
  - unfold Graph.addEdge.
    destruct (negb (JSMap.has (Graph.nodes g) source)
              || negb (JSMap.has (Graph.nodes g) target)); [exact Hg|].
    simpl. intros k e Hin. apply JSMap_elem_set in Hin as [[_ ->]|Hin]; [exact Hc | eauto].
  - intros k e Hin.
    apply (delete_picked_elem
             (fun edge => edge_source edge = id \/ edge_target edge = id)) in Hin.
    destruct Hin as [Hin _]. eauto.
  - intros k e Hin. apply JSMap_elem_delete in Hin as [Hin _]. eauto.
  - unfold Graph.updateNodePosition.
    destruct (JSMap.get (Graph.nodes g) id); exact Hg.
  - unfold Graph.updateEdgeWeight.
    destruct (JSMap.get (Graph.edges g) id) as [edge|]; [|exact Hg].
    simpl. intros k e Hin. apply JSMap_elem_set in Hin as [[_ ->]|Hin]; [|eauto].
    simpl. apply clamp01_range.
  - intros k e Hin. apply elem_of_nil in Hin. contradiction.
  - assert (Hfold : forall (l : list GraphEdge) (m : JSMap.t string GraphEdge),
               Forall (fun e => 0 <= edge_weight e <= 1) l ->
               (forall k e, (k, e) ∈ m -> 0 <= edge_weight e <= 1) ->
               forall k e,
                 (k, e) ∈ fold_left (fun es edge => JSMap.set es (edge_id edge) edge) l m ->
                 0 <= edge_weight e <= 1).
    { induction l as [|x l IH]; simpl; intros m Hl Hm; [exact Hm|].
      apply Forall_cons in Hl as [Hx Hl]. apply IH; [exact Hl|].
      intros k e Hin. apply JSMap_elem_set in Hin as [[_ ->]|Hin]; [exact Hx | eauto]. }
    apply Hfold; [exact Hc|]. intros k e Hin. apply elem_of_nil in Hin. contradiction.
Qed.

(** C4, at a failing input: [addEdge] stores the weight it is given, so
    after [addEdge(a, b, "relates", 1.5)] on a graph that holds [a] and
    [b] the stored edge has weight 1.5, outside [[0,1]]. *)
Theorem Graph_addEdge_stores_weight_unclamped :
  exists e,
    Graph.getEdge
      (Graph.run
         [ Graph.CallAddNode "a" "cat" "concept" None;
           Graph.CallAddNode "b" "mouse" "concept" None;
           Graph.CallAddEdge "e" "a" "b" "relates" (Some (3 / 2)) None ])
      "e" = Some e
    /\ edge_weight e = 3 / 2
    /\ ~ (0 <= edge_weight e <= 1).
Proof.
  eexists. split; [reflexivity|]. simpl. split; [reflexivity | lra].
Qed.

(** C7: [addEdge] throws when the source or the target is not a node of
    the graph, and after [removeNode(id)] no edge of the graph has [id] as
    its source or its target. *)
Theorem Graph_addEdge_removeNode_endpoints (g : Graph.t) :
  (forall uuid source target type weight properties,
      JSMap.has (Graph.nodes g) source = false
      \/ JSMap.has (Graph.nodes g) target = false ->
      exists message,
        Graph.addEdge g uuid source target type weight properties = Throw message)
  /\ (forall id e,
        e ∈ JSMap.values (Graph.edges (Graph.removeNode g id)) ->
        edge_source e <> id /\ edge_target e <> id).
Proof.
  split.
  - intros uuid source target type weight properties Hmissing.
    unfold Graph.addEdge. eexists.
    destruct Hmissing as [-> | ->]; simpl; [reflexivity|].
    rewrite orb_true_r. reflexivity.
  - intros id e Hin. unfold JSMap.values in Hin.
    apply list_elem_of_fmap in Hin as [[k e'] [-> Hin]]. simpl in *.
    apply (delete_picked_elem
             (fun edge => edge_source edge = id \/ edge_target edge = id)) in Hin.
    destruct Hin as [Hin Hkept]. unfold JSMap.entries in Hkept.
    split; intros Heq; apply (Hkept k e' Hin); auto.
Qed.

Lemma Graph_addEdge_removeNode_endpoints_witness :
  (exists message,
      Graph.addEdge sampleGraph "e3" "a" "dog" "chases" None None = Throw message)
  /\ (exists e,
        e ∈ JSMap.values (Graph.edges (Graph.removeNode sampleGraph "a"))
        /\ edge_source e <> "a"%string /\ edge_target e <> "a"%string).
Proof.
  destruct (Graph_addEdge_removeNode_endpoints sampleGraph) as [Hadd Hremove].
  split.
  - apply Hadd. right. reflexivity.
  - exists (mkGraphEdge "e2" "b" "c" "eats" 1 []).
    assert (Hin : mkGraphEdge "e2" "b" "c" "eats" 1 []
                  ∈ JSMap.values (Graph.edges (Graph.removeNode sampleGraph "a"))).
    { apply list_elem_of_singleton. reflexivity. }
    split; [exact Hin | exact (Hremove "a"%string _ Hin)].
Defined.

(** C8: for a graph [g] built by the methods of the class,
    [fromJSON(g.toJSON())] rebuilds the maps of [g], nodes and edges, in
    the same order, whatever the receiving graph held before; serializing
    the rebuilt graph gives the same data again. *)
Theorem Graph_fromJSON_toJSON_round_trip (g other : Graph.t) :
  Graph.reachable g ->
  Graph.fromJSON other (Graph.toJSON g) = g
  /\ Graph.toJSON (Graph.fromJSON other (Graph.toJSON g)) = Graph.toJSON g.
Proof.
  intros Hreach. apply Graph_reachable_wf in Hreach as [Hn He].
  assert (Heq : Graph.fromJSON other (Graph.toJSON g) = g).
  { unfold Graph.fromJSON, Graph.toJSON. simpl.
    rewrite (keyed_rebuild node_id (Graph.nodes g) Hn JSMap.empty).
    2:{ intros k Hk. apply elem_of_nil in Hk. contradiction. }
    rewrite (keyed_rebuild edge_id (Graph.edges g) He JSMap.empty).
    2:{ intros k Hk. apply elem_of_nil in Hk. contradiction. }
    destruct g. reflexivity. }
  split; [assumption | rewrite Heq; reflexivity].
Qed.

Lemma Graph_fromJSON_toJSON_round_trip_witness :
  Graph.fromJSON Graph.new (Graph.toJSON sampleGraph) = sampleGraph
  /\ Graph.toJSON (Graph.fromJSON Graph.new (Graph.toJSON sampleGraph))
     = Graph.toJSON sampleGraph.
Proof.
  apply (Graph_fromJSON_toJSON_round_trip sampleGraph Graph.new).
  apply sampleGraph_reachable.
Defined.

(** ** Evolution *)

(** The loop of an operator over the dimensions is a [map]. *)
Lemma forEachDimension_from (f : Complex.t -> Complex.t) :
  forall (rest done : list Complex.t) (st : WaveFunction.t),
    WaveFunction.dimensions st = done ++ rest ->
    fold_left
      (fun st i =>
         match WaveFunction.getDimensions st !! i with
         | Some dim => WaveFunction.setDimension st i (f dim)
         | None => st
         end)
      (seq (length done) (length rest)) st
    = WaveFunction.mk (done ++ map f rest) (WaveFunction.amplitude st)
        (WaveFunction.phase st) (WaveFunction.id st) (WaveFunction.connections st).
Proof.
  induction rest as [|x rest IH]; intros done st Hdims; simpl.
  - destruct st; simpl in *. subst. reflexivity.
  - change (WaveFunction.getDimensions st !! length done)
      with (WaveFunction.dimensions st !! length done).
    rewrite Hdims, list_lookup_middle by reflexivity.
    replace (S (length done)) with (length (done ++ [f x]))
      by (rewrite length_app; simpl; lia).
    rewrite IH with (done := done ++ [f x]).
    + simpl. rewrite <- app_assoc. reflexivity.
    + simpl. rewrite Hdims.
      rewrite <- (Nat.add_0_r (length done)) at 1.
      rewrite insert_app_r. simpl. rewrite <- app_assoc. reflexivity.
Qed.

Lemma forEachDimension_map (f : Complex.t -> Complex.t) (st : WaveFunction.t) :
  WaveFunction.forEachDimension f st
  = WaveFunction.mk (map f (WaveFunction.dimensions st)) (WaveFunction.amplitude st)
      (WaveFunction.phase st) (WaveFunction.id st) (WaveFunction.connections st).
Proof.
  unfold WaveFunction.forEachDimension, WaveFunction.getDimensions.
  apply (forEachDimension_from f (WaveFunction.dimensions st) [] st). reflexivity.
Qed.

Lemma zeroWave_new (random_id : string) (n : nat) :
  zeroWave (WaveFunction.new random_id n).
Proof. unfold zeroWave. simpl. rewrite length_replicate. reflexivity. Qed.

Lemma energy_replicate_zero (n : nat) (acc : R) :
  fold_left
    (fun acc dim =>
       acc + (Complex.real dim * Complex.real dim + Complex.imag dim * Complex.imag dim))
    (replicate n (Complex.mk 0 0)) acc = acc.
Proof.
  revert acc. induction n as [|n IH]; intros acc; simpl; [reflexivity|].
  rewrite IH. lra.
Qed.

Lemma norm_replicate_zero (n : nat) (acc : R) :
  fold_left
    (fun acc dim =>
       acc + Complex.real (Complex.multiply dim (Complex.conjugate dim)))
    (replicate n (Complex.mk 0 0)) acc = acc.
Proof.
  revert acc. induction n as [|n IH]; intros acc; simpl; [reflexivity|].
  rewrite IH. lra.
Qed.

Lemma normalize_zeroWave (w : WaveFunction.t) :
  zeroWave w -> WaveFunction.normalize w = w.
Proof.
  intros Hz. unfold WaveFunction.normalize. rewrite Hz.
  rewrite norm_replicate_zero, sqrt_0.
  destruct (Req_dec_T 0 0) as [_|Hne]; [reflexivity | contradiction].
Qed.

Lemma dissipation_zeroWave (rate time : R) (w : WaveFunction.t) :
  zeroWave w ->
  QuantumEvolution.apply (QuantumEvolution.createDissipationOperator rate) w time = w.
Proof.
  intros Hz. simpl. rewrite forEachDimension_map.
  destruct w as [dims a p i c]. unfold zeroWave in Hz. simpl in *. f_equal.
  rewrite Hz at 1. rewrite Hz at 2.
  generalize (length dims) as n. induction n as [|n IH]; simpl; [reflexivity|].
  rewrite IH. unfold Complex.scale. simpl. rewrite !Rmult_0_l. reflexivity.
Qed.

(** The metrics of a single state never throw: the only state a
    connection can resolve to is the state itself. *)
Lemma calculateMetrics_single (st : EncodedState) :
  exists m,
    QuantumEvolution.calculateMetrics [st] = Ok m
    /\ QuantumEvolution.totalEnergy m
       = fold_left
           (fun acc dim =>
              acc + (Complex.real dim * Complex.real dim
                     + Complex.imag dim * Complex.imag dim))
           (WaveFunction.getDimensions (waveFunction st)) 0.
Proof.
  unfold QuantumEvolution.calculateMetrics. cbn [fold_left].
  assert (Hco : forall (l : list string) (total : R),
             exists total',
               fold_left
                 (fun acc connectionId =>
                    bind_result acc (fun total =>
                      match QuantumEvolution.findState [st] connectionId with
                      | Some connectedState =>
                          bind_result
                            (QuantumEvolution.calculateCoherence
                               (waveFunction st) (waveFunction connectedState))
                            (fun c => Ok (total + c))
                      | None => Ok total
                      end))
                 l (Ok total) = Ok total').
  { induction l as [|c l IH]; intros total; simpl; [eexists; reflexivity|].
    destruct (bool_decide (node_id (sourceNode st) = c)); simpl.
    - unfold QuantumEvolution.calculateCoherence.
      rewrite (proj2 (Nat.ltb_ge _ _)) by lia. simpl. apply IH.
    - apply IH. }
  destruct (Hco (connections st) 0) as [total' ->]. cbn [bind_result].
  eexists. split; reflexivity.
Qed.

(** One round of the loop of [evolveState], under dissipation alone and
    on a zero wave function: the state is as before and the step that is
    recorded has energy 0. *)
Lemma evolveLoop_zero_round (fuel : nat) (rate dt total : R) (pc tm : bool)
    (random : QuantumEvolution.RandomSource) (drawn : nat) (st : EncodedState)
    (t : R) (history : list QuantumEvolution.Recorded) :
  zeroWave (waveFunction st) ->
  t <= total ->
  exists r drawn',
    QuantumEvolution.totalEnergy (QuantumEvolution.recorded_metrics r) = 0
    /\ QuantumEvolution.evolveLoop (S fuel)
         (QuantumEvolution.mkOptions dt total
            [QuantumEvolution.createDissipationOperator rate] pc tm)
         random drawn st t history
       = QuantumEvolution.evolveLoop fuel
           (QuantumEvolution.mkOptions dt total
              [QuantumEvolution.createDissipationOperator rate] pc tm)
           random drawn' st (t + dt) (history ++ [r]).
Proof.
  intros Hz Ht.
  cbn [QuantumEvolution.evolveLoop QuantumEvolution.totalTime
       QuantumEvolution.operators QuantumEvolution.timeStep fold_left].
  destruct (Rle_dec t total) as [_|Hn]; [|contradiction].
  rewrite (dissipation_zeroWave rate t _ Hz), (normalize_zeroWave _ Hz).
  replace (QuantumEvolution.withWaveFunction st (waveFunction st)) with st
    by (destruct st; reflexivity).
  destruct (calculateMetrics_single st) as [m [Hm He]].
  assert (Hzero : QuantumEvolution.totalEnergy m = 0).
  { rewrite He. unfold WaveFunction.getDimensions. rewrite Hz.
    apply energy_replicate_zero. }
  unfold QuantumEvolution.recordTimeStep. rewrite Hm.
  cbn [QuantumEvolution.trackMetrics bind_result].
  destruct tm; cbn [negb].
  - destruct (QuantumEvolution.cloneStates random drawn [st]) as [clones drawn'] eqn:Hc.
    exists (QuantumEvolution.mkRecorded t (Some clones) m), drawn'.
    split; [assumption | reflexivity].
  - exists (QuantumEvolution.mkRecorded t None m), drawn.
    split; [assumption | reflexivity].
Qed.

Ltac zero_round Hz :=
  match goal with
  | |- context [QuantumEvolution.evolveLoop (S ?fuel)
                  (QuantumEvolution.mkOptions ?dt ?total _ ?pc ?tm)
                  ?random ?drawn ?st ?t ?h] =>
      let r := fresh "r" in
      let d := fresh "drawn" in
      let He := fresh "He" in
      let Hs := fresh "Hs" in
      destruct (evolveLoop_zero_round fuel (1 / 2) dt total pc tm random drawn st t h
                  Hz ltac:(lra)) as [r [d [He Hs]]];
      rewrite Hs; clear Hs
  end.

(** C1, at every input: under the configuration of Scenario C
    [evolveState] records 11 steps, and the total energy of each is 0,
    because the state it evolves is the zero wave function [cloneState]
    creates; the energies do not decrease. *)
Theorem evolveState_dissipation_energy_is_zero
    (extra : nat) (preserveConnections trackMetrics : bool)
    (random : QuantumEvolution.RandomSource) (initialState : EncodedState) :
  exists history,
    QuantumEvolution.evolveState (11 + extra)
      (dissipationOptions preserveConnections trackMetrics) random initialState
    = Some (Ok history)
    /\ QuantumEvolution.energies history = replicate 11 0
    /\ ~ strictly_decreasing (QuantumEvolution.energies history).
Proof.
  unfold QuantumEvolution.evolveState, dissipationOptions.
  cbn [Nat.add].
  set (st := QuantumEvolution.cloneState (random 0%nat) initialState).
  assert (Hz : zeroWave (waveFunction st)) by apply zeroWave_new.
  do 11 zero_round Hz.
  match goal with
  | |- context [QuantumEvolution.evolveLoop extra ?o ?rnd ?d ?s ?t ?h] =>
      assert (Hend : QuantumEvolution.evolveLoop extra o rnd d s t h = Some (Ok (s, h)))
  end.
  { destruct extra; cbn [QuantumEvolution.evolveLoop QuantumEvolution.totalTime];
      (match goal with |- context [Rle_dec ?a ?b] => destruct (Rle_dec a b) as [Hle|_] end;
       [exfalso; lra | reflexivity]). }
  rewrite Hend. eexists. split; [reflexivity|].
  match goal with
  | |- ?E = _ /\ _ => assert (Hen : E = replicate 11 0)
  end.
  { unfold QuantumEvolution.energies. simpl.
    rewrite He, He0, He1, He2, He3, He4, He5, He6, He7, He8, He9. reflexivity. }
  rewrite Hen. split; [reflexivity|].
  simpl. intros [Hlt _]. lra.
Qed.

(** Enough fuel brings the loop of [evolveState] to its end when the time
    step is positive. *)
Lemma evolveLoop_terminates (options : QuantumEvolution.EvolutionOptions)
    (random : QuantumEvolution.RandomSource) :
  0 < QuantumEvolution.timeStep options ->
  forall (fuel : nat) (t : R),
    QuantumEvolution.totalTime options - t
    < INR fuel * QuantumEvolution.timeStep options ->
    forall drawn st history,
      QuantumEvolution.evolveLoop fuel options random drawn st t history <> None.
Proof.
  intros Hdt. induction fuel as [|fuel IH]; intros t Hfuel drawn st history.
  - simpl in *. destruct (Rle_dec t (QuantumEvolution.totalTime options)) as [Hle|_];
      [exfalso; lra | discriminate].
  - cbn [QuantumEvolution.evolveLoop].
    destruct (Rle_dec t (QuantumEvolution.totalTime options)) as [Hle|_]; [|discriminate].
    destruct (QuantumEvolution.recordTimeStep _ _ _ _ _ _) as [[history' drawn']|m];
      [|discriminate].
    apply IH. rewrite S_INR in Hfuel. lra.
Qed.

Lemma evolveState_terminates (options : QuantumEvolution.EvolutionOptions)
    (random : QuantumEvolution.RandomSource) (initialState : EncodedState) :
  0 < QuantumEvolution.timeStep options ->
  exists fuel, forall extra,
    QuantumEvolution.evolveState (fuel + extra) options random initialState <> None.
Proof.
  intros Hdt.
  destruct (INR_unbounded
              (QuantumEvolution.totalTime options / QuantumEvolution.timeStep options))
    as [fuel Hfuel].
  exists fuel. intros extra. unfold QuantumEvolution.evolveState.
  assert (Hbound : QuantumEvolution.totalTime options - 0
                   < INR (fuel + extra) * QuantumEvolution.timeStep options).
  { rewrite plus_INR, Rminus_0_r.
    apply Rlt_le_trans with (INR fuel * QuantumEvolution.timeStep options).
    - apply (Rmult_lt_compat_r _ _ _ Hdt) in Hfuel.
      unfold Rdiv in Hfuel. rewrite Rmult_assoc, Rinv_l, Rmult_1_r in Hfuel by lra.
      exact Hfuel.
    - apply Rmult_le_compat_r; [lra|]. pose proof (pos_INR extra). lra. }
  pose proof (evolveLoop_terminates options random Hdt (fuel + extra) 0 Hbound
                1%nat (QuantumEvolution.cloneState (random 0%nat) initialState) [])
    as Hloop.
  destruct (QuantumEvolution.evolveLoop _ _ _ _ _ _ _) as [[[final hist]|m]|];
    [discriminate | discriminate | contradiction].
Qed.

(** C10: the history [evolveState] returns does not depend on the entries
    of the initial wave function.  Two initial states with wave functions
    of the same length and the same source node, connections and metadata
    give the same outcome for every bound on the number of iterations
    (with the same identifiers drawn from [Math.random]), and with a
    positive time step a large enough bound lets the loop finish. *)
Theorem evolveState_independent_of_wavefunction_values
    (options : QuantumEvolution.EvolutionOptions)
    (random : QuantumEvolution.RandomSource) (s1 s2 : EncodedState) :
  length (WaveFunction.getDimensions (waveFunction s1))
  = length (WaveFunction.getDimensions (waveFunction s2)) ->
  sourceNode s1 = sourceNode s2 ->
  connections s1 = connections s2 ->
  metadata s1 = metadata s2 ->
  (forall fuel,
      QuantumEvolution.evolveState fuel options random s1
      = QuantumEvolution.evolveState fuel options random s2)
  /\ (0 < QuantumEvolution.timeStep options ->
      exists fuel, forall extra,
        QuantumEvolution.evolveState (fuel + extra) options random s1 <> None).
Proof.
  intros Hlen Hnode Hconn Hmeta. split.
  - intros fuel. unfold QuantumEvolution.evolveState, QuantumEvolution.cloneState.
    rewrite Hlen, Hnode, Hconn, Hmeta. reflexivity.
  - intros Hdt. apply evolveState_terminates. assumption.
Qed.

Lemma evolveState_independent_of_wavefunction_values_witness :
  (forall fuel,
      QuantumEvolution.evolveState fuel (dissipationOptions true true)
        (fun _ => "w0"%string) sampleStateA
      = QuantumEvolution.evolveState fuel (dissipationOptions true true)
          (fun _ => "w0"%string) sampleStateB)
  /\ (exists fuel, forall extra,
        QuantumEvolution.evolveState (fuel + extra) (dissipationOptions true true)
          (fun _ => "w0"%string) sampleStateA <> None).
Proof.
  destruct (evolveState_independent_of_wavefunction_values
              (dissipationOptions true true) (fun _ => "w0"%string)
              sampleStateA sampleStateB eq_refl eq_refl eq_refl eq_refl)
    as [Hsame Hends].
  split; [exact Hsame|]. apply Hends. simpl. lra.
Defined.

(** ** The field *)

Lemma fold_left_Rsum {A} (g : A -> R) (l : list A) (acc : R) :
  fold_left (fun sum v => sum + g v) l acc = acc + Rsum (map g l).
Proof.
  revert acc. induction l as [|x l IH]; intros acc; simpl; [lra|].
  rewrite IH. lra.
Qed.

Lemma squaredModulus_nonneg (v : Complex.t) : 0 <= squaredModulus v.
Proof. unfold squaredModulus. nra. Qed.

Lemma magnitude_squared (v : Complex.t) :
  Complex.magnitude v * Complex.magnitude v = squaredModulus v.
Proof. unfold Complex.magnitude. apply sqrt_sqrt, squaredModulus_nonneg. Qed.

Lemma Rsum_squaredModulus_nonneg (vs : list Complex.t) :
  0 <= Rsum (map squaredModulus vs).
Proof.
  induction vs as [|v vs IH]; simpl; [lra|].
  pose proof (squaredModulus_nonneg v). lra.
Qed.

Lemma Rsum_squaredModulus_zero (vs : list Complex.t) :
  Rsum (map squaredModulus vs) = 0 <-> Forall (fun v => v = Complex.mk 0 0) vs.
Proof.
  induction vs as [|v vs IH]; simpl.
  - split; [intros _; apply Forall_nil_2 | reflexivity].
  - pose proof (squaredModulus_nonneg v) as Hv.
    pose proof (Rsum_squaredModulus_nonneg vs) as Hvs.
    split.
    + intros Hsum. apply Forall_cons. split.
      * destruct v as [re im]. unfold squaredModulus in *. simpl in *.
        assert (re = 0) by nra. assert (im = 0) by nra. subst. reflexivity.
      * apply IH. lra.
    + intros Hall. apply Forall_cons in Hall as [-> Hall].
      apply IH in Hall. rewrite Hall. unfold squaredModulus. simpl. lra.
Qed.

Lemma squaredNorm_Rsum (vs : list Complex.t) :
  QuantumField.squaredNorm vs = Rsum (map squaredModulus vs).
Proof.
  unfold QuantumField.squaredNorm.
  rewrite (fold_left_Rsum (fun v => Complex.magnitude v * Complex.magnitude v)).
  rewrite Rplus_0_l. f_equal. apply map_ext. intros v. apply magnitude_squared.
Qed.

Lemma normalize_norm_Rsum (vs : list Complex.t) :
  fold_left
    (fun sum v => sum + Complex.real (Complex.multiply v (Complex.conjugate v)))
    vs 0
  = Rsum (map squaredModulus vs).
Proof.
  rewrite (fold_left_Rsum
             (fun v => Complex.real (Complex.multiply v (Complex.conjugate v)))).
  rewrite Rplus_0_l. f_equal. apply map_ext. intros v.
  unfold squaredModulus. simpl. lra.
Qed.

Lemma Rsum_squaredModulus_scale (k : R) (vs : list Complex.t) :
  Rsum (map squaredModulus (map (fun v => Complex.scale v k) vs))
  = k * k * Rsum (map squaredModulus vs).
Proof.
  induction vs as [|v vs IH]; simpl; [lra|].
  rewrite IH. unfold squaredModulus. simpl. lra.
Qed.

(** *** [normalize] on doubles *)

Lemma Double_zero_square (v : Double.Complex.t) :
  Double.isZero v ->
  (0 + Double.Complex.real
         (Double.Complex.multiply v (Double.Complex.conjugate v)))%float = 0%float.
Proof.
  destruct v as [re im]. unfold Double.isZero. simpl.
  intros [[-> | ->] [-> | ->]]; reflexivity.
Qed.

Lemma Double_zero_sum (values : list Double.Complex.t) :
  Forall Double.isZero values ->
  fold_left
    (fun sum v =>
       (sum + Double.Complex.real
                (Double.Complex.multiply v (Double.Complex.conjugate v)))%float)
    values 0%float = 0%float.
Proof.
  induction 1 as [|v values Hv _ IH]; [reflexivity|].
  cbn [fold_left]. rewrite (Double_zero_square v Hv). exact IH.
Qed.

(** An array of zeros, of either sign, is left as it is: the sum of the
    squares is [0], and neither [0 > 0] nor a division happens. *)
Lemma Double_QuantumField_normalize_zero (values : list Double.Complex.t) :
  Forall Double.isZero values -> Double.QuantumField.normalize values = values.
Proof.
  intros Hzero. unfold Double.QuantumField.normalize.
  rewrite (Double_zero_sum values Hzero). reflexivity.
Qed.

Lemma Double_WaveFunction_normalize_zero (dimensions : list Double.Complex.t) :
  Forall Double.isZero dimensions ->
  Double.WaveFunction.normalize dimensions = dimensions.
Proof.
  intros Hzero. unfold Double.WaveFunction.normalize.
  rewrite (Double_zero_sum dimensions Hzero). reflexivity.
Qed.

(** Rounding on the array [[3, 4i]]: [0.6000000000000001] and [0.8i]
    come out, and their squares add up to [1.0000000000000002], which
    is 1 within the tolerance but not 1. *)
Lemma Double_QuantumField_normalize_rounds :
  Double.QuantumField.normalize [Double.Complex.mk 3 0; Double.Complex.mk 0 4]
  = [Double.Complex.mk 0x1.3333333333334p-1 0; Double.Complex.mk 0 0x1.999999999999ap-1]
  /\ Double.squaredNorm
       (Double.QuantumField.normalize [Double.Complex.mk 3 0; Double.Complex.mk 0 4])
     = 0x1.0000000000001p+0%float
  /\ Double.nearOne
       (Double.squaredNorm
          (Double.QuantumField.normalize [Double.Complex.mk 3 0; Double.Complex.mk 0 4]))
     = true.
Proof. repeat split; vm_compute; reflexivity. Qed.

(** [wavefunction.ts] tests [norm === 0] where [field.ts] tests
    [norm > 0]; on [[1e-200, 0]] and on [[1e200, 0]] the two do the
    same. *)
Lemma Double_WaveFunction_normalize_underflow_overflow :
  Double.WaveFunction.normalize
    [Double.Complex.mk 0x1.87e92154ef7acp-665 0; Double.Complex.mk 0 0]
  = [Double.Complex.mk 0x1.87e92154ef7acp-665 0; Double.Complex.mk 0 0]
  /\ Double.WaveFunction.normalize
       [Double.Complex.mk 0x1.4e718d7d7625ap+664 0; Double.Complex.mk 0 0]
     = [Double.Complex.mk 0 0; Double.Complex.mk 0 0].
Proof. split; vm_compute; reflexivity. Qed.

Lemma inDoubleRange_pos (x : R) : inDoubleRange x -> 0 < x.
Proof. unfold inDoubleRange. lra. Qed.

Lemma near_refl (x : R) : near x x.
Proof. unfold near. rewrite Rminus_diag, Rabs_R0. lra. Qed.

(** C6, amended: when the sum of the [|values[i]|^2] of a field lies in
    the range in which the doubles of [normalize()] neither underflow
    nor overflow, the sum is within [1e-6] of 1 after [normalize()]; a
    field all of whose values are zero is left as it is, without a
    division. *)
Theorem QuantumField_normalize_near_unit_norm (f : QuantumField.t) :
  (inDoubleRange (QuantumField.squaredNorm (QuantumField.values f)) ->
   near (QuantumField.squaredNorm (QuantumField.values (QuantumField.normalize f))) 1)
  /\ (Forall (fun v => v = Complex.mk 0 0) (QuantumField.values f) ->
      QuantumField.normalize f = f).
Proof.
  unfold QuantumField.normalize. rewrite normalize_norm_Rsum.
  rewrite (squaredNorm_Rsum (QuantumField.values f)).
  set (N := Rsum (map squaredModulus (QuantumField.values f))).
  split.
  - intros Hrange. apply inDoubleRange_pos in Hrange as HNpos.
    pose proof (sqrt_lt_R0 N HNpos) as Hs.
    destruct (Rlt_dec 0 (sqrt N)) as [_|Hn]; [|contradiction].
    simpl. rewrite squaredNorm_Rsum, Rsum_squaredModulus_scale. fold N.
    replace (1 / sqrt N * (1 / sqrt N) * N) with (N / (sqrt N * sqrt N))
      by (field; lra).
    rewrite sqrt_sqrt by lra.
    replace (N / N) with 1 by (field; lra). apply near_refl.
  - intros Hall. apply Rsum_squaredModulus_zero in Hall. fold N in Hall.
    rewrite Hall, sqrt_0.
    destruct (Rlt_dec 0 0) as [Hlt|_]; [lra | reflexivity].
Qed.

Lemma QuantumField_normalize_near_unit_norm_witness :
  near
    (QuantumField.squaredNorm
       (QuantumField.values
          (QuantumField.normalize
             (QuantumField.set_values (QuantumField.new 2)
                [Complex.mk 3 0; Complex.mk 0 4])))) 1
  /\ QuantumField.normalize (QuantumField.new 2) = QuantumField.new 2.
Proof.
  split.
  - apply (proj1 (QuantumField_normalize_near_unit_norm _)).
    rewrite squaredNorm_Rsum. unfold inDoubleRange, squaredModulus.
    cbn [QuantumField.values QuantumField.set_values map Rsum foldr
         Complex.real Complex.imag].
    split; lra.
  - apply (proj2 (QuantumField_normalize_near_unit_norm _)).
    simpl. repeat constructor.
Defined.

(** Outside the range the claim fails on doubles.  The field
    [[1e-200, 0]] is not all zero, but its squares underflow to [0]:
    [norm > 0] is false and the field is left as it is, the sum of its
    squares being [0] and not 1.  The squares of [[1e200, 0]] overflow:
    [norm] is [Infinity], [1 / norm] is [0], and the field becomes all
    zero. *)
Lemma QuantumField_normalize_underflow_overflow :
  ~ Forall Double.isZero
      [Double.Complex.mk 0x1.87e92154ef7acp-665 0; Double.Complex.mk 0 0]
  /\ Double.QuantumField.normalize
       [Double.Complex.mk 0x1.87e92154ef7acp-665 0; Double.Complex.mk 0 0]
     = [Double.Complex.mk 0x1.87e92154ef7acp-665 0; Double.Complex.mk 0 0]
  /\ Double.nearOne
       (Double.squaredNorm
          (Double.QuantumField.normalize
             [Double.Complex.mk 0x1.87e92154ef7acp-665 0; Double.Complex.mk 0 0]))
     = false
  /\ Double.QuantumField.normalize
       [Double.Complex.mk 0x1.4e718d7d7625ap+664 0; Double.Complex.mk 0 0]
     = [Double.Complex.mk 0 0; Double.Complex.mk 0 0].
Proof.
  split; [|repeat split; vm_compute; reflexivity].
  intros Hzero. apply Forall_cons in Hzero as [[[Hre | Hre] _] _];
    apply (f_equal (fun x => (x =? 0)%float)) in Hre; vm_compute in Hre;
    discriminate.
Qed.

(** *** The factor loops end before their fuel does *)

Lemma divideOut_terminates (fuel : nat) :
  forall (d num : Z) (factors : list Z),
    (2 <= d)%Z -> (1 <= num)%Z -> (Z.to_nat num <= fuel)%nat ->
    exists num' factors',
      QuantumField.divideOut fuel d num factors = Some (num', factors')
      /\ (1 <= num' <= num)%Z.
Proof.
  induction fuel as [|fuel IH]; intros d num factors Hd Hnum Hfuel.
  - lia.
  - simpl. destruct (decide (Z.rem num d = 0%Z)) as [Hrem|Hrem].
    + rewrite Z.rem_mod_nonneg in Hrem by lia.
      assert (Hq : (num = d * (num / d))%Z).
      { pose proof (Z.div_mod num d ltac:(lia)). lia. }
      assert (Hq1 : (1 <= num / d)%Z).
      { destruct (Z_lt_le_dec (num / d) 1) as [Hlt|]; [|assumption].
        assert (num / d <= 0)%Z by lia. nia. }
      destruct (IH d (num / d)%Z (factors ++ [d]) Hd Hq1) as [num' [factors' [Heq Hb]]].
      * nia.
      * exists num', factors'. split; [assumption|]. nia.
    + exists num, factors. split; [reflexivity | lia].
Qed.

Lemma factorLoop_terminates (fuel : nat) :
  forall (d num : Z) (factors : list Z),
    (2 <= d)%Z -> (1 <= num)%Z -> (Z.to_nat (num - d) < fuel)%nat ->
    exists result, QuantumField.factorLoop fuel d num factors = Some result.
Proof.
  induction fuel as [|fuel IH]; intros d num factors Hd Hnum Hfuel; [lia|].
  simpl. destruct (decide (1 < num)%Z) as [Hgt|_]; [|eexists; reflexivity].
  destruct (divideOut_terminates (Z.to_nat num) d num factors Hd Hnum (le_n _))
    as [num' [factors' [-> Hb]]].
  destruct (decide (num' < (d + 1) * (d + 1))%Z) as [_|Hge]; [eexists; reflexivity|].
  apply IH; nia.
Qed.

Lemma getPrimeFactors_in_fuel (n : Z) :
  (1 < n)%Z ->
  exists factors,
    QuantumField.factorLoop (Z.to_nat n) 2 n [] = Some factors
    /\ QuantumField.getPrimeFactors n = factors.
Proof.
  intros Hn.
  destruct (factorLoop_terminates (Z.to_nat n) 2 n [] ltac:(lia) ltac:(lia) ltac:(lia))
    as [factors Hf].
  exists factors. split; [assumption|].
  unfold QuantumField.getPrimeFactors.
  destruct (decide (n <= 1)%Z); [lia|]. rewrite Hf. reflexivity.
Qed.

(** *** [initialize] overwrites what the field held *)

Lemma assignIndex_length {A} (a : list A) (k : nat) (v : A) :
  (k < length a)%nat -> length (QuantumField.assignIndex a k v) = length a.
Proof.
  intros Hk. unfold QuantumField.assignIndex.
  rewrite (proj2 (Nat.ltb_lt _ _)) by assumption. apply length_insert.
Qed.

Lemma assignIndex_take_S {A} (a : list A) (k : nat) (v : A) :
  (k < length a)%nat ->
  take (S k) (QuantumField.assignIndex a k v) = take k a ++ [v].
Proof.
  intros Ha. unfold QuantumField.assignIndex.
  rewrite (proj2 (Nat.ltb_lt _ _)) by assumption.
  rewrite (take_S_r _ k v).
  - rewrite take_insert_ge by lia. reflexivity.
  - apply list_lookup_insert_eq. assumption.
Qed.

Lemma assignIndex_take {A} (a b : list A) (k : nat) (v : A) :
  (k < length a)%nat -> (k < length b)%nat ->
  take k a = take k b ->
  take (S k) (QuantumField.assignIndex a k v)
  = take (S k) (QuantumField.assignIndex b k v).
Proof.
  intros Ha Hb Htake. rewrite !assignIndex_take_S by assumption.
  rewrite Htake. reflexivity.
Qed.

(** The constructor builds a well-formed field, and [initialize] and
    [normalize] keep a field well-formed. *)
Lemma wellFormed_new (n : nat) : QuantumField.wellFormed (QuantumField.new n).
Proof. unfold QuantumField.wellFormed. simpl. rewrite !length_replicate. auto. Qed.

Lemma wellFormed_initializeLoop (normalization : R) :
  forall (count k : nat) (f : QuantumField.t),
    (k + count <= QuantumField.dimensions f)%nat ->
    QuantumField.wellFormed f ->
    QuantumField.wellFormed
      (fold_left (fun this k => QuantumField.initializeStep this normalization k)
                 (seq k count) f).
Proof.
  induction count as [|count IH]; intros k f Hk Hwf; simpl; [assumption|].
  destruct Hwf as (Hv & Hp & Hs).
  apply IH.
  - unfold QuantumField.initializeStep. simpl. lia.
  - unfold QuantumField.wellFormed, QuantumField.initializeStep. simpl.
    rewrite !assignIndex_length by lia. auto.
Qed.

Lemma wellFormed_initialize (f : QuantumField.t) (token : list Z) :
  QuantumField.wellFormed f -> QuantumField.wellFormed (QuantumField.initialize f token).
Proof.
  intros Hwf. unfold QuantumField.initialize.
  apply wellFormed_initializeLoop.
  - simpl. destruct Hwf as (Hv & _). lia.
  - exact Hwf.
Qed.

Lemma wellFormed_normalize (f : QuantumField.t) :
  QuantumField.wellFormed f -> QuantumField.wellFormed (QuantumField.normalize f).
Proof.
  intros (Hv & Hp & Hs). unfold QuantumField.normalize.
  destruct (Rlt_dec 0 _); [|repeat split; assumption].
  unfold QuantumField.wellFormed. simpl. rewrite length_map. auto.
Qed.

Lemma initializeStep_agree (n k : nat) (normalization : R) (f1 f2 : QuantumField.t) :
  (k < n)%nat ->
  agreeUpTo n k f1 f2 ->
  agreeUpTo n (S k)
    (QuantumField.initializeStep f1 normalization k)
    (QuantumField.initializeStep f2 normalization k).
Proof.
  intros Hk (Hd & Hp & Hc & Hv1 & Hv2 & Hp1 & Hp2 & Htv & Htp).
  unfold agreeUpTo, QuantumField.initializeStep. simpl.
  rewrite Hd, Hp, Hc, Hv1, Hv2.
  repeat split; try reflexivity.
  - rewrite assignIndex_length; lia.
  - rewrite assignIndex_length; lia.
  - rewrite assignIndex_length; lia.
  - rewrite assignIndex_length; lia.
  - apply assignIndex_take; [lia | lia | assumption].
  - apply assignIndex_take; [lia | lia | assumption].
Qed.

Lemma initializeLoop_agree (n : nat) (normalization : R) :
  forall (count k : nat) (f1 f2 : QuantumField.t),
    (k + count = n)%nat ->
    agreeUpTo n k f1 f2 ->
    agreeUpTo n n
      (fold_left (fun this k => QuantumField.initializeStep this normalization k)
                 (seq k count) f1)
      (fold_left (fun this k => QuantumField.initializeStep this normalization k)
                 (seq k count) f2).
Proof.
  induction count as [|count IH]; intros k f1 f2 Hn Hagree; simpl.
  - assert (k = n) by lia. subst k. assumption.
  - apply IH; [lia|]. apply initializeStep_agree; [lia | assumption].
Qed.

(** C5: [initialize] is a function of the token and the dimension count
    alone.  Two fields of the same dimension count, whatever they held
    before, have the same values, the same phase array and the same
    coherence once each is initialized with the same token. *)
Theorem QuantumField_initialize_deterministic
    (token : list Z) (f1 f2 : QuantumField.t) :
  QuantumField.wellFormed f1 ->
  QuantumField.wellFormed f2 ->
  QuantumField.dimensions f1 = QuantumField.dimensions f2 ->
  QuantumField.values (QuantumField.initialize f1 token)
  = QuantumField.values (QuantumField.initialize f2 token)
  /\ QuantumField.phase (QuantumField.initialize f1 token)
     = QuantumField.phase (QuantumField.initialize f2 token)
  /\ QuantumField.coherence (QuantumField.initialize f1 token)
     = QuantumField.coherence (QuantumField.initialize f2 token).
Proof.
  intros (Hv1 & Hp1 & _) (Hv2 & Hp2 & _) Hd.
  unfold QuantumField.initialize.
  cbn [QuantumField.primeFactors QuantumField.values
       QuantumField.set_primeFactors QuantumField.set_coherence].
  set (n := QuantumField.dimensions f1).
  set (primes := QuantumField.getPrimeFactors (Z.abs (QuantumField.hashToken token) + 1)).
  set (normalization := sqrt (fold_left (fun sum p => sum + 1 / IZR p) primes 0)).
  rewrite Hv1, Hv2, <- Hd. fold n.
  assert (Hstart : agreeUpTo n 0
            (QuantumField.mk (QuantumField.dimensions f1) (QuantumField.values f1)
               (QuantumField.phase f1) 0 (QuantumField.dynamics f1) primes
               (QuantumField.spectralForm f1))
            (QuantumField.mk (QuantumField.dimensions f2) (QuantumField.values f2)
               (QuantumField.phase f2) 0 (QuantumField.dynamics f2) primes
               (QuantumField.spectralForm f2))).
  { unfold agreeUpTo. simpl. fold n. repeat split; try assumption; try reflexivity; lia. }
  destruct (initializeLoop_agree n normalization n 0 _ _ eq_refl Hstart)
    as (_ & _ & Hc & Hl1 & Hl2 & Hl3 & Hl4 & Htv & Htp).
  rewrite !take_ge in Htv by lia. rewrite !take_ge in Htp by lia.
  repeat split; assumption.
Qed.

Lemma QuantumField_initialize_deterministic_witness :
  let used := QuantumField.initialize (QuantumField.new 2) (QuantumField.codeUnits "mouse") in
  let token := QuantumField.codeUnits "cat" in
  QuantumField.values (QuantumField.initialize (QuantumField.new 2) token)
  = QuantumField.values (QuantumField.initialize used token)
  /\ QuantumField.phase (QuantumField.initialize (QuantumField.new 2) token)
     = QuantumField.phase (QuantumField.initialize used token)
  /\ QuantumField.coherence (QuantumField.initialize (QuantumField.new 2) token)
     = QuantumField.coherence (QuantumField.initialize used token).
Proof.
  intros used token.
  apply (QuantumField_initialize_deterministic token (QuantumField.new 2) used).
  - apply wellFormed_new.
  - apply wellFormed_initialize, wellFormed_new.
  - reflexivity.
Defined.

(** *** What [initialize] computes *)

Lemma initializeLoop_closed_form (n : nat) (normalization : R) (primes : list Z) (dims : nat) :
  forall (count k : nat) (f : QuantumField.t),
    (k + count = n)%nat ->
    length (QuantumField.values f) = n ->
    QuantumField.primeFactors f = primes ->
    QuantumField.dimensions f = dims ->
    take k (QuantumField.values f)
    = map (fun k => Complex.fromPolar (magnitudeAt primes normalization n k)
                                      (phaseAt primes n k))
          (seq 0 k) ->
    let f' := fold_left (fun this k => QuantumField.initializeStep this normalization k)
                        (seq k count) f in
    QuantumField.values f'
    = map (fun k => Complex.fromPolar (magnitudeAt primes normalization n k)
                                      (phaseAt primes n k))
          (seq 0 n)
    /\ QuantumField.coherence f'
       = fold_left (coherenceRound primes normalization n dims) (seq k count)
                   (QuantumField.coherence f)
    /\ QuantumField.dimensions f' = dims.
Proof.
  induction count as [|count IH]; intros k f Hn Hlen Hprimes Hdims Htake; simpl.
  - assert (k = n) by lia. subst k.
    rewrite take_ge in Htake by lia. repeat split; assumption.
  - assert (Hstep : QuantumField.coherence (QuantumField.initializeStep f normalization k)
                    = coherenceRound primes normalization n dims
                        (QuantumField.coherence f) k).
    { unfold QuantumField.initializeStep, coherenceRound, magnitudeAt. simpl.
      rewrite Hlen, Hprimes, Hdims. reflexivity. }
    rewrite <- Hstep. apply IH.
    + lia.
    + unfold QuantumField.initializeStep. simpl. rewrite assignIndex_length; lia.
    + unfold QuantumField.initializeStep. simpl. assumption.
    + unfold QuantumField.initializeStep. simpl. assumption.
    + unfold QuantumField.initializeStep.
      cbn [QuantumField.values QuantumField.set_values QuantumField.set_phase
           QuantumField.set_spectralForm QuantumField.set_coherence].
      rewrite assignIndex_take_S by lia.
      rewrite seq_S, map_app, Htake. cbn [map Nat.add].
      unfold magnitudeAt, phaseAt.
      cbn [QuantumField.primeFactors]. rewrite Hlen, Hprimes. reflexivity.
Qed.

(** On a field of the class, [initialize] leaves in [coherence] the
    result of folding [coherenceRound] over the dimensions, and in
    [values] the polar values. *)
Lemma initialize_closed_form (f : QuantumField.t) (token : list Z) :
  QuantumField.wellFormed f ->
  let n := QuantumField.dimensions f in
  let primes := QuantumField.getPrimeFactors (Z.abs (QuantumField.hashToken token) + 1) in
  let normalization := sqrt (fold_left (fun sum p => sum + 1 / IZR p) primes 0) in
  QuantumField.values (QuantumField.initialize f token)
  = map (fun k => Complex.fromPolar (magnitudeAt primes normalization n k)
                                    (phaseAt primes n k))
        (seq 0 n)
  /\ QuantumField.coherence (QuantumField.initialize f token)
     = fold_left (coherenceRound primes normalization n n) (seq 0 n) 0
  /\ QuantumField.dimensions (QuantumField.initialize f token) = n.
Proof.
  intros (Hv & _ & _) n primes normalization.
  unfold QuantumField.initialize.
  cbn [QuantumField.primeFactors QuantumField.values
       QuantumField.set_primeFactors QuantumField.set_coherence].
  fold primes. fold normalization. rewrite Hv. fold n.
  apply (initializeLoop_closed_form n normalization primes n n 0
           (QuantumField.mk (QuantumField.dimensions f) (QuantumField.values f)
              (QuantumField.phase f) 0 (QuantumField.dynamics f) primes
              (QuantumField.spectralForm f)));
    try reflexivity; assumption.
Qed.

Lemma squaredModulus_fromPolar (r theta : R) :
  squaredModulus (Complex.fromPolar r theta) = r * r.
Proof.
  unfold squaredModulus, Complex.fromPolar. simpl.
  pose proof (sin2_cos2 theta) as Hsc. unfold Rsqr in Hsc. nra.
Qed.

(** With one prime factor the double loop adds the single term
    [(p, p)], whose phase is 0. *)
Lemma spectralSum_single (p : Z) (x : R) :
  QuantumField.spectralSum [p] x = Complex.mk (0 + 1 / (IZR p * IZR p)) (0 + 0).
Proof.
  unfold QuantumField.spectralSum. simpl.
  unfold QuantumField.spectralFormFactor, Complex.add. simpl.
  replace ((ln (IZR p) - ln (IZR p)) * (2 * PI * x)) with 0 by ring.
  rewrite cos_0, sin_0.
  replace (0 / (IZR p * IZR p)) with 0 by (unfold Rdiv; rewrite Rmult_0_l; reflexivity).
  reflexivity.
Qed.

(** The token ["d"]: its hash is 100, and 101 is prime. *)
Lemma hashToken_d : QuantumField.hashToken (QuantumField.codeUnits "d") = 100%Z.
Proof. reflexivity. Qed.

Lemma getPrimeFactors_101 : QuantumField.getPrimeFactors 101 = [101%Z].
Proof. vm_compute. reflexivity. Qed.

Lemma magnitudeAt_d (n k : nat) :
  let m := magnitudeAt [101%Z] (sqrt (0 + 1 / 101)) n k in
  m * m = 1 / 1030301.
Proof.
  unfold magnitudeAt. rewrite spectralSum_single. unfold Complex.magnitude. simpl.
  replace ((0 + 1 / (101 * 101)) * (0 + 1 / (101 * 101)) + (0 + 0) * (0 + 0))
    with ((1 / 10201) * (1 / 10201)) by (field; lra).
  rewrite sqrt_square by lra.
  assert (Hs : sqrt (0 + 1 / 101) * sqrt (0 + 1 / 101) = 0 + 1 / 101)
    by (apply sqrt_sqrt; lra).
  assert (Hpos : 0 < sqrt (0 + 1 / 101)) by (apply sqrt_lt_R0; lra).
  replace (1 / 10201 / sqrt (0 + 1 / 101) * (1 / 10201 / sqrt (0 + 1 / 101)))
    with (1 / 10201 * (1 / 10201) / (sqrt (0 + 1 / 101) * sqrt (0 + 1 / 101)))
    by (field; lra).
  rewrite Hs. field.
Qed.

(** C3, at a failing input: for the token ["d"] on a field of two
    dimensions the coherence [initialize] leaves differs from the root
    mean square of the magnitudes.  The line that takes the square root
    of the mean runs inside the loop, once a dimension, and not once
    after it. *)
Theorem QuantumField_initialize_coherence_not_rms :
  let f := QuantumField.initialize (QuantumField.new 2) (QuantumField.codeUnits "d") in
  QuantumField.coherence f
  <> sqrt (QuantumField.squaredNorm (QuantumField.values f)
           / INR (QuantumField.dimensions f)).
Proof.
  intros f. subst f.
  destruct (initialize_closed_form (QuantumField.new 2) (QuantumField.codeUnits "d"))
    as (Hv & Hc & Hd); [repeat split|].
  rewrite Hv, Hc, Hd. clear Hv Hc Hd.
  rewrite hashToken_d.
  change (Z.abs 100 + 1)%Z with 101%Z. rewrite getPrimeFactors_101.
  change (QuantumField.dimensions (QuantumField.new 2)) with 2%nat.
  cbn [seq fold_left map].
  change (fold_left (fun sum p => sum + 1 / IZR p) [] (0 + 1 / 101)) with (0 + 1 / 101).
  rewrite squaredNorm_Rsum. cbn [map Rsum foldr].
  rewrite !squaredModulus_fromPolar.
  unfold coherenceRound.
  pose proof (magnitudeAt_d 2 0) as H0. pose proof (magnitudeAt_d 2 1) as H1.
  cbv zeta in H0, H1. rewrite H0, H1.
  change (INR 2) with (1 + 1).
  intros Heq. apply sqrt_inj in Heq.
  - assert (Hroot : sqrt ((0 + 1 / 1030301) / (1 + 1)) = 1 / 1030301) by lra.
    apply sqrt_lem_0 in Hroot; lra.
  - pose proof (sqrt_pos ((0 + 1 / 1030301) / (1 + 1))). lra.
  - lra.
Qed.

(** ** The learner *)

Lemma decayedOnes_length (d : R) (m : nat) : length (decayedOnes d m) = m.
Proof. induction m as [|m IH]; simpl; [reflexivity | rewrite IH; reflexivity]. Qed.

Lemma decay_round (d : R) (m : nat) :
  imap (fun i h => h * d ^ (S m - i - 1)) (decayedOnes d m ++ [1]) = decayedOnes d (S m).
Proof.
  induction m as [|m IH].
  - simpl. f_equal. lra.
  - change (decayedOnes d (S m) ++ [1])
      with (d ^ triangular m :: (decayedOnes d m ++ [1])).
    rewrite imap_cons.
    rewrite (imap_ext _ (fun i h => h * d ^ (S m - i - 1))).
    + rewrite IH.
      change (decayedOnes d (S (S m)))
        with (d ^ triangular (S m) :: decayedOnes d (S m)).
      f_equal. simpl triangular.
      replace (S (S m) - 0 - 1)%nat with (S m) by lia.
      rewrite pow_add. reflexivity.
    + intros i x _. simpl. reflexivity.
Qed.

Lemma decayHistory_ones (d : R) (m : nat) :
  (m <= 100)%nat ->
  FieldLearner.decayHistory d (decayedOnes d m) 1 = decayedOnes d (Nat.min (S m) 100).
Proof.
  intros Hm. unfold FieldLearner.decayHistory, JSMath.pow.
  rewrite length_app, decayedOnes_length. simpl length.
  destruct (decide (m = 100%nat)) as [->|Hne].
  - change (decayedOnes d 100) with (d ^ triangular 99 :: decayedOnes d 99).
    change (100 <? 100 + 1)%nat with true. cbv iota.
    change (tail ((d ^ triangular 99 :: decayedOnes d 99) ++ [1]))
      with (decayedOnes d 99 ++ [1]).
    rewrite length_app, decayedOnes_length.
    change (Nat.min 101 100) with 100%nat.
    change (99 + length [1])%nat with 100%nat.
    apply (decay_round d 99).
  - rewrite (proj2 (Nat.ltb_ge _ _)) by lia.
    rewrite length_app, decayedOnes_length. simpl length.
    rewrite Nat.min_l by lia.
    replace (m + 1)%nat with (S m) by lia.
    apply decay_round.
Qed.

Lemma learnFromInteraction_history (this : FieldLearner.t)
    (source target : QuantumField.t) (resonance : R)
    (context : option FieldLearner.LearningContext) :
  let this' := fst (FieldLearner.learnFromInteraction this source target resonance context) in
  FieldLearner.getResonancePattern this' source context
  = FieldLearner.decayHistory (FieldLearner.decayFactor this)
      (FieldLearner.getResonancePattern this source context) resonance
  /\ FieldLearner.decayFactor this' = FieldLearner.decayFactor this.
Proof.
  unfold FieldLearner.learnFromInteraction, FieldLearner.getResonancePattern.
  destruct (FieldLearner.computeFieldAdjustment _ _ _ _) as [adjustment|m]; simpl.
  - destruct (QuantumField.add source adjustment) as [adjusted|m]; simpl;
      rewrite JSMap_get_set_eq; split; reflexivity.
  - rewrite JSMap_get_set_eq. split; reflexivity.
Qed.

(** After [n] calls with resonance 1.0 the history of a source that had
    none holds the decayed ones, at most 100 of them. *)
Lemma learnRepeatedly_history (this : FieldLearner.t)
    (source target : QuantumField.t)
    (context : option FieldLearner.LearningContext) (n : nat) :
  FieldLearner.getResonancePattern this source context = [] ->
  let this' := FieldLearner.learnRepeatedly n this source target 1 context in
  FieldLearner.getResonancePattern this' source context
  = decayedOnes (FieldLearner.decayFactor this) (Nat.min n 100)
  /\ FieldLearner.decayFactor this' = FieldLearner.decayFactor this.
Proof.
  intros Hnone. induction n as [|n [IHh IHd]].
  - simpl. split; [assumption | reflexivity].
  - unfold FieldLearner.learnRepeatedly in *. rewrite Nat.iter_succ.
    match goal with
    | |- context [FieldLearner.learnFromInteraction ?l _ _ _ _] =>
        destruct (learnFromInteraction_history l source target 1 context) as [Hh Hd]
    end.
    cbv zeta in *. rewrite Hh, Hd, IHh, IHd. split; [|reflexivity].
    rewrite decayHistory_ones by lia.
    f_equal. lia.
Qed.

Lemma pow_le_one (d : R) (n : nat) : 0 <= d <= 1 -> 0 <= d ^ n <= 1.
Proof.
  intros Hd. induction n as [|n IH]; simpl; [lra|]. nra.
Qed.

Lemma decayedOnes_sum_lower (d : R) (m : nat) :
  0 <= d <= 1 ->
  INR m * d ^ triangular m <= Rsum (decayedOnes d m).
Proof.
  intros Hd. induction m as [|m IH].
  - simpl. lra.
  - rewrite S_INR. cbn [decayedOnes Rsum foldr triangular]. fold (Rsum (decayedOnes d m)).
    rewrite pow_add.
    pose proof (pow_le_one d (triangular m) Hd) as Ha.
    pose proof (pow_le_one d (S m) Hd) as Hb.
    pose proof (pos_INR m) as Hm.
    assert (d ^ triangular m * d ^ S m <= d ^ triangular m) by nra.
    nra.
Qed.

Lemma average_Rsum (l : list R) : average l = Rsum l / INR (length l).
Proof.
  unfold average. f_equal.
  assert (Hacc : forall acc, fold_left Rplus l acc = acc + Rsum l).
  { induction l as [|x l IH]; intros acc; simpl; [lra|]. rewrite IH. lra. }
  rewrite Hacc. lra.
Qed.

Lemma average_decayedOnes_step (d : R) (m : nat) :
  0 <= d <= 1 -> (1 <= m)%nat ->
  average (decayedOnes d (S m)) <= average (decayedOnes d m).
Proof.
  intros Hd Hm. rewrite !average_Rsum, !decayedOnes_length.
  cbn [decayedOnes Rsum foldr]. fold (Rsum (decayedOnes d m)).
  pose proof (decayedOnes_sum_lower d m Hd) as Hlow.
  rewrite S_INR.
  assert (HM : 1 <= INR m) by (apply (le_INR 1); assumption).
  set (M := INR m) in *. set (a := d ^ triangular m) in *.
  set (S := Rsum (decayedOnes d m)) in *.
  apply Rmult_le_reg_r with (M * (M + 1)); [nra|].
  replace ((a + S) / (M + 1) * (M * (M + 1))) with ((a + S) * M) by (field; lra).
  replace (S / M * (M * (M + 1))) with (S * (M + 1)) by (field; lra).
  nra.
Qed.

(** How far a call can lower the average: the entries are at most 1, each
    older entry is multiplied by at most [d ^ m] more, and the new entry
    is 1, so the average after [m + 1] calls is at least [d ^ m] times the
    average after [m]. *)
Lemma decayedOnes_sum_upper (d : R) (m : nat) :
  0 <= d <= 1 -> 0 <= Rsum (decayedOnes d m) <= INR m.
Proof.
  intros Hd. induction m as [|m IH].
  - simpl. lra.
  - rewrite S_INR. cbn [decayedOnes Rsum foldr]. fold (Rsum (decayedOnes d m)).
    pose proof (pow_le_one d (triangular m) Hd). lra.
Qed.

Lemma decayedOnes_sum_decay (d : R) (m : nat) :
  0 <= d <= 1 ->
  1 + d ^ m * Rsum (decayedOnes d m) <= Rsum (decayedOnes d (S m)).
Proof.
  intros Hd. induction m as [|m IH].
  - simpl. lra.
  - change (Rsum (decayedOnes d (S (S m))))
      with (d ^ triangular (S m) + Rsum (decayedOnes d (S m))).
    change (Rsum (decayedOnes d (S m)))
      with (d ^ triangular m + Rsum (decayedOnes d m)) at 1.
    cbn [triangular]. rewrite pow_add.
    pose proof (pow_le_one d m Hd) as Hm.
    pose proof (pow_le_one d (triangular m) Hd) as Ht.
    pose proof (decayedOnes_sum_upper d m Hd) as Hs.
    change (d ^ S m) with (d * d ^ m).
    set (p := d ^ m) in *. set (a := d ^ triangular m) in *.
    set (S0 := Rsum (decayedOnes d m)) in *.
    assert (Hp : 0 <= p * S0) by (apply Rmult_le_pos; lra).
    assert (Hd' : d * (p * S0) <= p * S0) by nra.
    nra.
Qed.

Lemma average_decayedOnes_decay_bound (d : R) (m : nat) :
  0 <= d <= 1 -> (1 <= m)%nat ->
  d ^ m * average (decayedOnes d m) <= average (decayedOnes d (S m)).
Proof.
  intros Hd Hm. rewrite !average_Rsum, !decayedOnes_length.
  pose proof (decayedOnes_sum_decay d m Hd) as Hdec.
  pose proof (decayedOnes_sum_upper d m Hd) as Hup.
  pose proof (pow_le_one d m Hd) as Hpow.
  rewrite S_INR.
  assert (HM : 1 <= INR m) by (apply (le_INR 1); assumption).
  set (M := INR m) in *. set (S1 := Rsum (decayedOnes d (S m))) in *.
  set (S0 := Rsum (decayedOnes d m)) in *. set (p := d ^ m) in *.
  apply Rmult_le_reg_r with (M * (M + 1)); [nra|].
  replace (p * (S0 / M) * (M * (M + 1))) with (p * S0 * (M + 1)) by (field; lra).
  replace (S1 / (M + 1) * (M * (M + 1))) with (S1 * M) by (field; lra).
  assert (p * S0 <= M) by nra.
  nra.
Qed.

(** C2 as the code has it: with a decay factor in [[0,1]] and a source
    that has no history yet, each further call of [learnFromInteraction]
    with resonance 1.0 and the same fields leaves the average of
    [getResonancePattern(source)] where it was or lower (the newest entry
    is 1 and every older entry has been decayed again), and the call
    after the [n]-th lowers it by no more than the factor
    [decayFactor ^ n]. *)
Theorem FieldLearner_average_nonincreasing (this : FieldLearner.t)
    (source target : QuantumField.t)
    (context : option FieldLearner.LearningContext) (n : nat) :
  0 <= FieldLearner.decayFactor this <= 1 ->
  FieldLearner.getResonancePattern this source context = [] ->
  (1 <= n)%nat ->
  let before :=
    average (FieldLearner.getResonancePattern
               (FieldLearner.learnRepeatedly n this source target 1 context)
               source context) in
  let after :=
    average (FieldLearner.getResonancePattern
               (FieldLearner.learnRepeatedly (S n) this source target 1 context)
               source context) in
  after <= before /\ FieldLearner.decayFactor this ^ n * before <= after.
Proof.
  intros Hd Hnone Hn before after. subst before after.
  destruct (learnRepeatedly_history this source target context (S n) Hnone) as [-> _].
  destruct (learnRepeatedly_history this source target context n Hnone) as [-> _].
  destruct (le_lt_dec 100 n) as [Hbig|Hsmall].
  - rewrite !Nat.min_r by lia. split; [apply Rle_refl|].
    pose proof (pow_le_one (FieldLearner.decayFactor this) n Hd) as Hpow.
    pose proof (decayedOnes_sum_upper (FieldLearner.decayFactor this) 100 Hd) as Hsum.
    rewrite average_Rsum, decayedOnes_length.
    assert (Havg : 0 <= Rsum (decayedOnes (FieldLearner.decayFactor this) 100) / INR 100).
    { apply Rmult_le_pos; [lra|]. apply Rlt_le, Rinv_0_lt_compat, (lt_0_INR 100). lia. }
    nra.
  - rewrite !Nat.min_l by lia. split.
    + apply average_decayedOnes_step; assumption.
    + apply average_decayedOnes_decay_bound; assumption.
Qed.

Lemma FieldLearner_average_nonincreasing_witness :
  average (FieldLearner.getResonancePattern
             (FieldLearner.learnRepeatedly 2 defaultLearner catField mouseField 1 None)
             catField None)
  <= average (FieldLearner.getResonancePattern
                (FieldLearner.learnRepeatedly 1 defaultLearner catField mouseField 1 None)
                catField None)
  /\ FieldLearner.decayFactor defaultLearner ^ 1
     * average (FieldLearner.getResonancePattern
                  (FieldLearner.learnRepeatedly 1 defaultLearner catField mouseField 1 None)
                  catField None)
     <= average (FieldLearner.getResonancePattern
                   (FieldLearner.learnRepeatedly 2 defaultLearner catField mouseField 1 None)
                   catField None).
Proof.
  apply (FieldLearner_average_nonincreasing defaultLearner catField mouseField None 1).
  - simpl. lra.
  - reflexivity.
  - lia.
Defined.

(** C2 as stated fails: with the default decay factor 0.99 the average
    after the second call, 0.995, is below the average after the first
    call, 1. *)
Lemma FieldLearner_average_decreases :
  average (FieldLearner.getResonancePattern
             (FieldLearner.learnRepeatedly 2 defaultLearner catField mouseField 1 None)
             catField None)
  < average (FieldLearner.getResonancePattern
               (FieldLearner.learnRepeatedly 1 defaultLearner catField mouseField 1 None)
               catField None).
Proof.
  destruct (learnRepeatedly_history defaultLearner catField mouseField None 2 eq_refl)
    as [-> _].
  destruct (learnRepeatedly_history defaultLearner catField mouseField None 1 eq_refl)
    as [-> _].
  rewrite !average_Rsum. simpl. lra.
Qed.

(** ** Pattern ranking *)


















(** A score [NaN] is neither above nor below another score: every
    comparison with it is read as [+0].  Between the scores 1 and 2 it
    keeps the stable insertion from moving 2 to the front, and the
    result is not in descending order. *)
Lemma sort_NaN_score :
  PatternDetector.sort PatternDetector.compareScore
    [samplePattern PatternDetector.cluster ["a"; "b"; "c"]%string 1;
     scoredPattern PatternDetector.cluster ["d"; "e"; "f"]%string NumberOrNaN.NaN;
     samplePattern PatternDetector.cluster ["g"; "h"; "i"]%string 2]
  = [samplePattern PatternDetector.cluster ["a"; "b"; "c"]%string 1;
     scoredPattern PatternDetector.cluster ["d"; "e"; "f"]%string NumberOrNaN.NaN;
     samplePattern PatternDetector.cluster ["g"; "h"; "i"]%string 2]
  /\ ~ PatternDetector.sortedByScore
         [samplePattern PatternDetector.cluster ["a"; "b"; "c"]%string 1;
          scoredPattern PatternDetector.cluster ["d"; "e"; "f"]%string NumberOrNaN.NaN;
          samplePattern PatternDetector.cluster ["g"; "h"; "i"]%string 2].
Proof.
  split; [reflexivity|].
  unfold PatternDetector.sortedByScore. intros Hsorted.
  apply StronglySorted_inv in Hsorted as [_ Hfirst].
  apply Forall_cons in Hfirst as [Hnan _]. simpl in Hnan. exact Hnan.
Qed.

(* ===================================================================== *)
(** * Part III: further properties of the code                            *)
(* ===================================================================== *)

(** ** More on maps *)

Lemma forallb_forall_false_intro {A} (f : A -> bool) (l : list A) (x : A) :
  In x l -> f x = false -> forallb f l = false.
Proof.
  intros Hin Hf. destruct (forallb f l) eqn:Hall; [|reflexivity].
  rewrite forallb_forall in Hall. rewrite (Hall x Hin) in Hf. discriminate.
Qed.

Section JSMapMoreFacts.
Context {K : Type} `{EqDecision K} {V : Type}.
Implicit Types (m : JSMap.t K V) (k : K) (v : V).

Lemma JSMap_get_set_ne m k k' v :
  k <> k' -> JSMap.get (JSMap.set m k v) k' = JSMap.get m k'.
Proof.
  intros Hne. induction m as [|[k0 v0] m IH]; simpl.
  - destruct (decide (k = k')); [contradiction | reflexivity].
  - destruct (decide (k0 = k)) as [->|Hk0]; simpl.
    + destruct (decide (k = k')); [contradiction | reflexivity].
    + destruct (decide (k0 = k')); [reflexivity | assumption].
Qed.

Lemma JSMap_get_delete_eq m k : JSMap.get (JSMap.delete m k) k = None.
Proof.
  induction m as [|[k0 v0] m IH]; simpl; [reflexivity|].
  destruct (decide (k0 = k)) as [->|Hk0]; simpl; [assumption|].
  destruct (decide (k0 = k)); [contradiction | assumption].
Qed.

Lemma JSMap_get_delete_ne m k k' :
  k <> k' -> JSMap.get (JSMap.delete m k) k' = JSMap.get m k'.
Proof.
  intros Hne. induction m as [|[k0 v0] m IH]; simpl; [reflexivity|].
  destruct (decide (k0 = k)) as [->|Hk0]; simpl.
  - destruct (decide (k = k')); [contradiction | assumption].
  - destruct (decide (k0 = k')); [reflexivity | assumption].
Qed.

Lemma JSMap_has_set_mono m k k' v :
  JSMap.has m k' = true -> JSMap.has (JSMap.set m k v) k' = true.
Proof.
  unfold JSMap.has. destruct (decide (k = k')) as [->|Hne].
  - rewrite JSMap_get_set_eq. reflexivity.
  - rewrite JSMap_get_set_ne by assumption. auto.
Qed.

Lemma JSMap_delete_filter m k :
  JSMap.delete m k = List.filter (fun kv : K * V => negb (bool_decide (kv.1 = k))) m.
Proof.
  induction m as [|[k0 v0] m IH]; simpl; [reflexivity|].
  destruct (decide (k0 = k)) as [->|Hk0].
  - rewrite bool_decide_eq_true_2 by reflexivity. simpl. assumption.
  - rewrite bool_decide_eq_false_2 by assumption. simpl. f_equal. assumption.
Qed.

Lemma JSMap_delete_absent m k :
  k ∉ JSMap.keys m -> JSMap.delete m k = m.
Proof.
  induction m as [|[k0 v0] m IH]; simpl; intros Hn; [reflexivity|].
  destruct (decide (k0 = k)) as [->|Hk0].
  - exfalso. apply Hn, elem_of_cons. left; reflexivity.
  - f_equal. apply IH. intros Hin. apply Hn, elem_of_cons. right; assumption.
Qed.

(** In a map with distinct keys an entry is found under its key. *)
Lemma JSMap_elem_get m k v :
  NoDup (JSMap.keys m) -> (k, v) ∈ m -> JSMap.get m k = Some v.
Proof.
  induction m as [|[k0 v0] m IH]; simpl; intros Hnd Hin.
  - apply elem_of_nil in Hin. contradiction.
  - apply NoDup_cons in Hnd as [Hk0 Hnd].
    apply elem_of_cons in Hin as [Heq|Hin].
    + injection Heq as -> ->. destruct (decide (k0 = k0)); [reflexivity | contradiction].
    + destruct (decide (k0 = k)) as [->|Hne]; [|auto].
      exfalso. apply Hk0. unfold JSMap.keys. apply list_elem_of_fmap.
      exists (k, v). split; [reflexivity | assumption].
Qed.

Lemma filter_filter_andb {A} (f g : A -> bool) (l : list A) :
  List.filter f (List.filter g l) = List.filter (fun x => g x && f x) l.
Proof.
  induction l as [|x l IH]; simpl; [reflexivity|].
  destruct (g x); simpl; [|assumption].
  destruct (f x); simpl; [f_equal|]; assumption.
Qed.

(** Deleting the keys of the entries that satisfy [P], one after the
    other, from a map with distinct keys keeps the entries that do not
    satisfy [P], in their order. *)
Lemma delete_picked_filter (P : V -> Prop) `{!forall v, Decision (P v)} m :
  NoDup (JSMap.keys m) ->
  fold_left
    (fun es (entry : K * V) =>
       let (k, v) := entry in if decide (P v) then JSMap.delete es k else es)
    m m
  = List.filter (fun kv : K * V => negb (bool_decide (P kv.2))) m.
Proof.
  intros Hnd.
  set (keep := fun (l : list (K * V)) (kv : K * V) =>
                 forallb (fun entry : K * V =>
                            negb (bool_decide (P entry.2) && bool_decide (kv.1 = entry.1))) l).
  assert (Hgen : forall (l acc : JSMap.t K V),
            fold_left
              (fun es (entry : K * V) =>
                 let (k, v) := entry in if decide (P v) then JSMap.delete es k else es)
              l acc
            = List.filter (keep l) acc).
  { induction l as [|[k0 v0] l IH]; intros acc; simpl.
    - induction acc as [|kv acc IHacc]; simpl; [reflexivity|]. f_equal. assumption.
    - rewrite IH. destruct (decide (P v0)) as [Hp|Hp].
      + rewrite JSMap_delete_filter, filter_filter_andb.
        apply List.filter_ext. intros kv. unfold keep. simpl.
        rewrite (bool_decide_eq_true_2 _ Hp). simpl. reflexivity.
      + apply List.filter_ext. intros kv. unfold keep. simpl.
        rewrite (bool_decide_eq_false_2 _ Hp). simpl. reflexivity. }
  rewrite Hgen. apply List.filter_ext_in. intros [k1 v1] Hin.
  apply list_elem_of_In in Hin. unfold keep. simpl.
  destruct (decide (P v1)) as [Hp|Hp].
  - rewrite (bool_decide_eq_true_2 _ Hp). simpl.
    apply forallb_forall_false_intro with (x := (k1, v1)).
    + apply list_elem_of_In. assumption.
    + simpl. rewrite (bool_decide_eq_true_2 _ Hp).
      rewrite bool_decide_eq_true_2 by reflexivity. reflexivity.
  - rewrite (bool_decide_eq_false_2 _ Hp). simpl.
    apply forallb_forall. intros [k2 v2] Hin2. apply list_elem_of_In in Hin2. simpl.
    destruct (decide (k1 = k2)) as [->|Hne].
    + pose proof (JSMap_elem_get m k2 v1 Hnd Hin) as H1.
      pose proof (JSMap_elem_get m k2 v2 Hnd Hin2) as H2.
      rewrite H1 in H2. injection H2 as <-.
      rewrite (bool_decide_eq_false_2 _ Hp). reflexivity.
    + rewrite (bool_decide_eq_false_2 (k1 = k2)) by assumption.
      rewrite andb_false_r. reflexivity.
Qed.

End JSMapMoreFacts.

Section JSMapRoundTrip.
Context {K : Type} `{EqDecision K} {V : Type}.

Lemma JSMap_delete_set_fresh (m : JSMap.t K V) (k : K) (v : V) :
  k ∉ JSMap.keys m -> JSMap.delete (JSMap.set m k v) k = m.
Proof.
  intros Hn. rewrite JSMap_set_fresh by assumption.
  induction m as [|[k0 v0] m IH]; simpl.
  - destruct (decide (k = k)); [reflexivity | contradiction].
  - destruct (decide (k0 = k)) as [->|Hne].
    + exfalso. apply Hn. simpl. apply elem_of_cons. left; reflexivity.
    + f_equal. apply IH. intros Hin. apply Hn. simpl. apply elem_of_cons. right; assumption.
Qed.

End JSMapRoundTrip.

(** ** More on the graph *)

Lemma edge_kept_by_removeNode (g : Graph.t) (id k : string) (e : GraphEdge) :
  (k, e) ∈ Graph.edges (Graph.removeNode g id) ->
  (k, e) ∈ Graph.edges g /\ ~ edgeAt id e.
Proof.
  simpl. intros Hin.
  apply (delete_picked_elem
           (fun edge => edge_source edge = id \/ edge_target edge = id)) in Hin.
  destruct Hin as [Hin Hkept]. split; [assumption|].
  intros Hat. apply (Hkept k e Hin Hat). reflexivity.
Qed.

Lemma Graph_step_noDangling (g : Graph.t) (c : Graph.call) :
  Graph.isFromJSON c = false -> noDanglingEdges g -> noDanglingEdges (Graph.step g c).
Proof.
  unfold noDanglingEdges. intros Hc Hg. destruct c; simpl in Hc |- *; try discriminate.
  - intros k e Hin. destruct (Hg k e Hin) as [Hs Ht].
    split; apply JSMap_has_set_mono; assumption.
  - unfold Graph.addEdge.
    destruct (negb (JSMap.has (Graph.nodes g) source)) eqn:Hs; simpl; [exact Hg|].
    destruct (negb (JSMap.has (Graph.nodes g) target)) eqn:Ht; simpl; [exact Hg|].
    apply negb_false_iff in Hs, Ht.
    intros k e Hin. apply JSMap_elem_set in Hin as [[_ ->]|Hin]; [|eauto].
    simpl. split; assumption.
  - intros k e Hin. apply edge_kept_by_removeNode in Hin as [Hin Hnot].
    destruct (Hg k e Hin) as [Hs Ht]. unfold JSMap.has in *. simpl.
    rewrite !JSMap_get_delete_ne; [split; assumption | |];
      intros Heq; apply Hnot; [right | left]; symmetry; exact Heq.
  - intros k e Hin. apply JSMap_elem_delete in Hin as [Hin _]. eauto.
  - unfold Graph.updateNodePosition.
    destruct (JSMap.get (Graph.nodes g) id); [|exact Hg].
    simpl. intros k e Hin. destruct (Hg k e Hin) as [Hs Ht].
    split; apply JSMap_has_set_mono; assumption.
  - unfold Graph.updateEdgeWeight.
    destruct (JSMap.get (Graph.edges g) id) as [edge|] eqn:Hget; [|exact Hg].
    simpl. intros k e Hin. apply JSMap_elem_set in Hin as [[_ ->]|Hin]; [|eauto].
    simpl. apply JSMap_get_Some_elem in Hget. eauto.
  - intros k e Hin. apply elem_of_nil in Hin. contradiction.
Qed.

Lemma Graph_run_noDangling (calls : list Graph.call) :
  Forall (fun c => Graph.isFromJSON c = false) calls ->
  noDanglingEdges (Graph.run calls).
Proof.
  unfold Graph.run.
  assert (Hgen : forall g0, noDanglingEdges g0 ->
            Forall (fun c => Graph.isFromJSON c = false) calls ->
            noDanglingEdges (fold_left Graph.step calls g0)).
  { induction calls as [|c calls IH]; simpl; intros g0 Hg0 Hall; [assumption|].
    apply Forall_cons in Hall as [Hc Hall].
    apply IH; [apply Graph_step_noDangling|]; assumption. }
  intros Hall. apply Hgen; [|assumption].
  intros k e Hin. apply elem_of_nil in Hin. contradiction.
Qed.

(** X1: a graph built by any sequence of the methods other than
    [fromJSON] has no dangling edge: the source and the target of every
    stored edge are nodes of the graph. *)
Theorem Graph_edges_never_dangle (calls : list Graph.call) :
  Forall (fun c => Graph.isFromJSON c = false) calls ->
  forall k e, (k, e) ∈ Graph.edges (Graph.run calls) ->
    Graph.getNode (Graph.run calls) (edge_source e) <> None
    /\ Graph.getNode (Graph.run calls) (edge_target e) <> None.
Proof.
  intros Hcalls k e Hin.
  destruct (Graph_run_noDangling calls Hcalls k e Hin) as [Hs Ht].
  unfold JSMap.has, Graph.getNode in *.
  split.
  - destruct (JSMap.get (Graph.nodes (Graph.run calls)) (edge_source e));
      [discriminate | discriminate].
  - destruct (JSMap.get (Graph.nodes (Graph.run calls)) (edge_target e));
      [discriminate | discriminate].
Qed.

Lemma Graph_edges_never_dangle_witness :
  Graph.getNode sampleGraph "a" <> None /\ Graph.getNode sampleGraph "b" <> None.
Proof.
  apply (Graph_edges_never_dangle
           [ Graph.CallAddNode "a" "cat" "concept" None;
             Graph.CallAddNode "b" "mouse" "concept" None;
             Graph.CallAddNode "c" "cheese" "concept" None;
             Graph.CallAddEdge "e1" "a" "b" "chases" (Some (9 / 10)) None;
             Graph.CallAddEdge "e2" "b" "c" "eats" None None ]
           ltac:(repeat constructor)
           "e1"%string (mkGraphEdge "e1" "a" "b" "chases" (9 / 10) [])).
  apply elem_of_cons. left. reflexivity.
Defined.

(** X2: when [addEdge] returns, the edge it returns is stored under its
    identifier with the endpoints, type and weight that were passed (the
    weight 1 when none was), both endpoints are nodes, the nodes are
    untouched and so is every edge under another identifier. *)
Theorem Graph_addEdge_stores_edge (g g' : Graph.t) (uuid source target type : string)
    (weight : option R) (properties : option (list (string * JSValue))) (e : GraphEdge) :
  Graph.addEdge g uuid source target type weight properties = Ok (g', e) ->
  Graph.getEdge g' uuid = Some e
  /\ e = mkGraphEdge uuid source target type (default 1 weight) (default [] properties)
  /\ Graph.getNode g source <> None /\ Graph.getNode g target <> None
  /\ Graph.nodes g' = Graph.nodes g
  /\ forall id, id <> uuid -> Graph.getEdge g' id = Graph.getEdge g id.
Proof.
  unfold Graph.addEdge, Graph.getEdge, Graph.getNode, JSMap.has.
  destruct (JSMap.get (Graph.nodes g) source) eqn:Hs; simpl; [|discriminate].
  destruct (JSMap.get (Graph.nodes g) target) eqn:Ht; simpl; [|discriminate].
  intros [= <- <-]. simpl. rewrite JSMap_get_set_eq.
  repeat split; try discriminate.
  intros id Hne. apply JSMap_get_set_ne. congruence.
Qed.

Lemma Graph_addEdge_stores_edge_witness :
  Graph.getEdge
    (Graph.mk (Graph.nodes sampleGraph)
       (JSMap.set (Graph.edges sampleGraph) "e3"
          (mkGraphEdge "e3" "c" "a" "feeds" 1 [])))
    "e3"
  = Some (mkGraphEdge "e3" "c" "a" "feeds" 1 []).
Proof.
  apply (Graph_addEdge_stores_edge sampleGraph _ "e3" "c" "a" "feeds" None None
           (mkGraphEdge "e3" "c" "a" "feeds" 1 [])).
  reflexivity.
Defined.

(** X3: on a graph built by the methods of the class, [removeNode(id)]
    keeps exactly the edges that are not at [id], in their order, removes
    the node [id] and leaves every other node as it was. *)
Theorem Graph_removeNode_exact (g : Graph.t) (id : string) :
  Graph.reachable g ->
  Graph.edges (Graph.removeNode g id)
  = List.filter (fun kv : string * GraphEdge => negb (bool_decide (edgeAt id kv.2)))
                (Graph.edges g)
  /\ Graph.getNode (Graph.removeNode g id) id = None
  /\ forall id', id' <> id ->
       Graph.getNode (Graph.removeNode g id) id' = Graph.getNode g id'.
Proof.
  intros Hreach. apply Graph_reachable_wf in Hreach as [_ [Hnd _]].
  split; [|split].
  - simpl. unfold JSMap.entries.
    rewrite (delete_picked_filter
               (fun edge => edge_source edge = id \/ edge_target edge = id)
               (Graph.edges g) Hnd).
    apply List.filter_ext. intros kv. reflexivity.
  - apply JSMap_get_delete_eq.
  - intros id' Hne. apply JSMap_get_delete_ne. congruence.
Qed.

Lemma Graph_removeNode_exact_witness :
  Graph.edges (Graph.removeNode sampleGraph "a")
  = List.filter (fun kv : string * GraphEdge => negb (bool_decide (edgeAt "a" kv.2)))
                (Graph.edges sampleGraph)
  /\ Graph.getNode (Graph.removeNode sampleGraph "a") "a" = None
  /\ forall id', id' <> "a"%string ->
       Graph.getNode (Graph.removeNode sampleGraph "a") id' = Graph.getNode sampleGraph id'.
Proof.
  apply (Graph_removeNode_exact sampleGraph "a"). apply sampleGraph_reachable.
Defined.

Lemma filter_all_true {A} (f : A -> bool) (l : list A) :
  (forall x, In x l -> f x = true) -> List.filter f l = l.
Proof.
  induction l as [|x l IH]; simpl; intros Hall; [reflexivity|].
  rewrite (Hall x (or_introl eq_refl)). f_equal. apply IH. auto.
Qed.

Lemma filter_all_false {A} (f : A -> bool) (l : list A) :
  (forall x, In x l -> f x = false) -> List.filter f l = [].
Proof.
  induction l as [|x l IH]; simpl; intros Hall; [reflexivity|].
  rewrite (Hall x (or_introl eq_refl)). apply IH. auto.
Qed.

Lemma JSMap_has_keys {V} (m : JSMap.t string V) (k : string) :
  JSMap.has m k = true -> k ∈ JSMap.keys m.
Proof.
  unfold JSMap.has. intros Hhas.
  destruct (decide (k ∈ JSMap.keys m)) as [Hin|Hn]; [assumption|].
  apply JSMap_get_None_keys in Hn. rewrite Hn in Hhas. discriminate.
Qed.

(** X4: on a graph built by the methods other than [fromJSON], adding a
    node under an identifier the graph does not hold and removing it
    again gives the graph back, and so does adding an edge under a new
    identifier and removing it. *)
Theorem Graph_add_then_remove_restores (calls : list Graph.call) :
  Forall (fun c => Graph.isFromJSON c = false) calls ->
  let g := Graph.run calls in
  (forall uuid label type properties,
      Graph.getNode g uuid = None ->
      Graph.removeNode (fst (Graph.addNode g uuid label type properties)) uuid = g)
  /\ (forall uuid source target type weight properties g' e,
        Graph.getEdge g uuid = None ->
        Graph.addEdge g uuid source target type weight properties = Ok (g', e) ->
        Graph.removeEdge g' uuid = g).
Proof.
  intros Hcalls g.
  assert (Hwf : Graph_wf g) by (apply Graph_reachable_wf; exists calls; reflexivity).
  pose proof (Graph_run_noDangling calls Hcalls) as Hdangle. fold g in Hdangle.
  destruct Hwf as [_ [Hnd _]].
  split.
  - intros uuid label type properties Hfresh.
    apply JSMap_get_None_keys in Hfresh.
    unfold Graph.removeNode, Graph.addNode. simpl. unfold JSMap.entries.
    rewrite JSMap_delete_set_fresh by assumption.
    rewrite (delete_picked_filter
               (fun edge => edge_source edge = uuid \/ edge_target edge = uuid)
               (Graph.edges g) Hnd).
    rewrite filter_all_true; [destruct g; reflexivity|].
    intros [k e] Hin. apply list_elem_of_In in Hin. simpl.
    destruct (Hdangle k e Hin) as [Hs Ht].
    apply JSMap_has_keys in Hs, Ht.
    rewrite bool_decide_eq_false_2; [reflexivity|].
    intros [Heq|Heq]; rewrite Heq in *; contradiction.
  - intros uuid source target type weight properties g' e Hfresh Hadd.
    apply JSMap_get_None_keys in Hfresh.
    unfold Graph.addEdge in Hadd.
    destruct (negb (JSMap.has (Graph.nodes g) source)
              || negb (JSMap.has (Graph.nodes g) target)); [discriminate|].
    injection Hadd as <- _. unfold Graph.removeEdge. simpl.
    rewrite JSMap_delete_set_fresh by assumption. destruct g; reflexivity.
Qed.

Lemma Graph_add_then_remove_restores_witness :
  Graph.removeNode (fst (Graph.addNode sampleGraph "d" "dog" "concept" None)) "d"
  = sampleGraph.
Proof.
  apply (proj1 (Graph_add_then_remove_restores
                  [ Graph.CallAddNode "a" "cat" "concept" None;
                    Graph.CallAddNode "b" "mouse" "concept" None;
                    Graph.CallAddNode "c" "cheese" "concept" None;
                    Graph.CallAddEdge "e1" "a" "b" "chases" (Some (9 / 10)) None;
                    Graph.CallAddEdge "e2" "b" "c" "eats" None None ]
                  ltac:(repeat constructor))).
  reflexivity.
Defined.

(** *** Degrees *)

Lemma fold_add_from (l : list nat) (acc : nat) :
  fold_left Nat.add l acc = (acc + fold_left Nat.add l 0)%nat.
Proof.
  revert acc. induction l as [|x l IH]; intros acc; simpl; [lia|].
  rewrite IH, (IH x). lia.
Qed.

(** Counting the pairs [(x, y)] that satisfy [f] by rows or by columns. *)
Lemma count_pairs_swap {A B} (f : A -> B -> bool) (xs : list A) (ys : list B) :
  fold_left Nat.add (map (fun x => length (List.filter (f x) ys)) xs) 0%nat
  = fold_left Nat.add (map (fun y => length (List.filter (fun x => f x y) xs)) ys) 0%nat.
Proof.
  induction ys as [|y ys IH]; simpl.
  - induction xs as [|x xs IHx]; simpl; [reflexivity | assumption].
  - rewrite (fold_add_from _ (length _)), <- IH. clear IH.
    induction xs as [|x xs IHx]; simpl; [reflexivity|].
    rewrite (fold_add_from _ (length _)), (fold_add_from _ (length (List.filter (f x) ys))).
    destruct (f x y); simpl; lia.
Qed.

Lemma count_key_once (ks : list string) (a : string) :
  NoDup ks -> a ∈ ks ->
  length (List.filter (fun id => bool_decide (a = id)) ks) = 1%nat.
Proof.
  induction ks as [|k ks IH]; intros Hnd Hin.
  - apply elem_of_nil in Hin. contradiction.
  - apply NoDup_cons in Hnd as [Hk Hnd]. simpl.
    destruct (decide (a = k)) as [->|Hne].
    + rewrite bool_decide_eq_true_2 by reflexivity. simpl. f_equal.
      rewrite filter_all_false; [reflexivity|].
      intros x Hx. apply bool_decide_eq_false_2. intros ->.
      apply Hk, list_elem_of_In. assumption.
    + rewrite bool_decide_eq_false_2 by assumption.
      apply IH; [assumption|]. apply elem_of_cons in Hin as [?|?]; [contradiction | assumption].
Qed.

Lemma count_ends (ks : list string) (e : GraphEdge) :
  NoDup ks -> edge_source e ∈ ks -> edge_target e ∈ ks ->
  length (List.filter
            (fun id => bool_decide (edge_source e = id \/ edge_target e = id)) ks)
  = endCount e.
Proof.
  intros Hnd Hs Ht. unfold endCount.
  destruct (decide (edge_source e = edge_target e)) as [Heq|Hne].
  - rewrite <- (count_key_once ks (edge_source e) Hnd Hs).
    f_equal. apply List.filter_ext. intros id. apply bool_decide_ext.
    rewrite <- Heq. tauto.
  - revert Hnd Hs Ht. induction ks as [|k ks IH]; intros Hnd Hs Ht.
    + apply elem_of_nil in Hs. contradiction.
    + apply NoDup_cons in Hnd as [Hk Hnd]. simpl.
      destruct (decide (edge_source e = k)) as [Hsk|Hsk].
      * rewrite bool_decide_eq_true_2 by (left; assumption). simpl. f_equal.
        assert (Htin : edge_target e ∈ ks).
        { apply elem_of_cons in Ht as [Heq|?]; [congruence | assumption]. }
        rewrite <- (count_key_once ks (edge_target e) Hnd Htin).
        f_equal. apply List.filter_ext_in. intros id Hid. apply bool_decide_ext.
        split; [|tauto]. intros [Hl|Hr]; [|assumption].
        exfalso. apply Hk. rewrite <- Hsk, Hl. apply list_elem_of_In. assumption.
      * destruct (decide (edge_target e = k)) as [Htk|Htk].
        -- rewrite bool_decide_eq_true_2 by (right; assumption). simpl. f_equal.
           assert (Hsin : edge_source e ∈ ks).
           { apply elem_of_cons in Hs as [Heq|?]; [congruence | assumption]. }
           rewrite <- (count_key_once ks (edge_source e) Hnd Hsin).
           f_equal. apply List.filter_ext_in. intros id Hid. apply bool_decide_ext.
           split; [|tauto]. intros [Hl|Hr]; [assumption|].
           exfalso. apply Hk. rewrite <- Htk, Hr. apply list_elem_of_In. assumption.
        -- rewrite bool_decide_eq_false_2 by tauto.
           apply IH; [assumption | |].
           ++ apply elem_of_cons in Hs as [?|?]; [contradiction | assumption].
           ++ apply elem_of_cons in Ht as [?|?]; [contradiction | assumption].
Qed.

(** X5: on a graph built by the methods other than [fromJSON] the
    degrees that [getAverageNodeDegree] adds up count every edge twice and
    every loop once; without loops the average degree of a graph that
    has nodes is twice the number of edges over the number of nodes. *)
Theorem Graph_degree_sum (calls : list Graph.call) :
  Forall (fun c => Graph.isFromJSON c = false) calls ->
  let g := Graph.run calls in
  Graph.totalNodeDegree g
  = fold_left Nat.add (map endCount (JSMap.values (Graph.edges g))) 0%nat
  /\ (Graph.nodes g <> [] ->
      (forall k e, (k, e) ∈ Graph.edges g -> edge_source e <> edge_target e) ->
      Graph.getAverageNodeDegree g
      = 2 * INR (length (Graph.edges g)) / INR (length (Graph.nodes g))).
Proof.
  intros Hcalls g.
  assert (Hwf : Graph_wf g) by (apply Graph_reachable_wf; exists calls; reflexivity).
  pose proof (Graph_run_noDangling calls Hcalls) as Hdangle. fold g in Hdangle.
  destruct Hwf as [[Hnd _] _].
  assert (Hsum : Graph.totalNodeDegree g
                 = fold_left Nat.add (map endCount (JSMap.values (Graph.edges g))) 0%nat).
  { unfold Graph.totalNodeDegree, Graph.getNodeDegree, Graph.getNodeEdges.
    rewrite (count_pairs_swap
               (fun id edge => bool_decide (edge_source edge = id \/ edge_target edge = id))).
    f_equal. apply map_ext_in. intros e Hin.
    unfold JSMap.values in Hin. apply in_map_iff in Hin as [[k e'] [<- Hin]].
    apply list_elem_of_In in Hin. destruct (Hdangle k e' Hin) as [Hs Ht].
    apply count_ends; [assumption | |]; apply JSMap_has_keys; assumption. }
  split; [assumption|].
  intros _ Hloops. unfold Graph.getAverageNodeDegree. rewrite Hsum.
  unfold JSMap.keys, JSMap.values. rewrite !length_map. f_equal.
  assert (Hall : forall l : list (string * GraphEdge),
             (forall k e, (k, e) ∈ l -> edge_source e <> edge_target e) ->
             fold_left Nat.add (map endCount (map snd l)) 0%nat = (2 * length l)%nat).
  { induction l as [|[k e] l IH]; intros Hl; simpl; [reflexivity|].
    rewrite fold_add_from, IH.
    - unfold endCount. destruct (decide (edge_source e = edge_target e)) as [Heq|_]; [|lia].
      exfalso. apply (Hl k e); [apply elem_of_cons; left; reflexivity | assumption].
    - intros k' e' Hin. apply (Hl k' e'). apply elem_of_cons. right; assumption. }
  rewrite Hall by assumption. rewrite mult_INR. simpl. lra.
Qed.

Lemma Graph_degree_sum_witness :
  Graph.totalNodeDegree sampleGraph
  = fold_left Nat.add (map endCount (JSMap.values (Graph.edges sampleGraph))) 0%nat.
Proof.
  apply (proj1 (Graph_degree_sum
                  [ Graph.CallAddNode "a" "cat" "concept" None;
                    Graph.CallAddNode "b" "mouse" "concept" None;
                    Graph.CallAddNode "c" "cheese" "concept" None;
                    Graph.CallAddEdge "e1" "a" "b" "chases" (Some (9 / 10)) None;
                    Graph.CallAddEdge "e2" "b" "c" "eats" None None ]
                  ltac:(repeat constructor))).
Defined.

Lemma getNodeNeighbors_fold (g : Graph.t) (id : string) (l : list GraphEdge) :
  (forall e, In e l ->
     JSMap.has (Graph.nodes g) (edge_source e) = true
     /\ JSMap.has (Graph.nodes g) (edge_target e) = true) ->
  forall acc : list GraphNode,
    let result :=
      fold_left
        (fun neighbors edge =>
           if decide (edge_source edge = id) then
             match JSMap.get (Graph.nodes g) (edge_target edge) with
             | Some targetNode => neighbors ++ [targetNode]
             | None => neighbors
             end
           else if decide (edge_target edge = id) then
             match JSMap.get (Graph.nodes g) (edge_source edge) with
             | Some sourceNode => neighbors ++ [sourceNode]
             | None => neighbors
             end
           else neighbors)
        l acc in
    length result
    = (length acc
       + length (List.filter
                   (fun edge => bool_decide (edge_source edge = id \/ edge_target edge = id))
                   l))%nat
    /\ forall n, In n result ->
         In n acc \/ exists key, JSMap.get (Graph.nodes g) key = Some n.
Proof.
  induction l as [|e l IH]; intros Hl acc; simpl.
  - split; [lia | auto].
  - destruct (Hl e (or_introl eq_refl)) as [Hs Ht]. unfold JSMap.has in Hs, Ht.
    assert (Hl' : forall e', In e' l ->
              JSMap.has (Graph.nodes g) (edge_source e') = true
              /\ JSMap.has (Graph.nodes g) (edge_target e') = true)
      by (intros e' He'; apply Hl; right; assumption).
    destruct (decide (edge_source e = id)) as [Hes|Hes].
    + rewrite bool_decide_eq_true_2 by (left; assumption).
      destruct (JSMap.get (Graph.nodes g) (edge_target e)) as [n0|] eqn:Hget;
        [|discriminate].
      destruct (IH Hl' (acc ++ [n0])) as [Hlen Hmem]. split.
      * rewrite Hlen, length_app. simpl. lia.
      * intros n Hn. destruct (Hmem n Hn) as [Hin|Hex]; [|right; assumption].
        apply in_app_iff in Hin as [Hin|[<-|[]]]; [left; assumption|].
        right. eexists. exact Hget.
    + destruct (decide (edge_target e = id)) as [Het|Het].
      * rewrite bool_decide_eq_true_2 by (right; assumption).
        destruct (JSMap.get (Graph.nodes g) (edge_source e)) as [n0|] eqn:Hget;
          [|discriminate].
        destruct (IH Hl' (acc ++ [n0])) as [Hlen Hmem]. split.
        -- rewrite Hlen, length_app. simpl. lia.
        -- intros n Hn. destruct (Hmem n Hn) as [Hin|Hex]; [|right; assumption].
           apply in_app_iff in Hin as [Hin|[<-|[]]]; [left; assumption|].
           right. eexists. exact Hget.
      * rewrite bool_decide_eq_false_2 by tauto. apply IH. assumption.
Qed.

(** X6: on a graph built by the methods other than [fromJSON],
    [getNodeNeighbors(id)] returns one node for every edge at [id], as
    many as [getNodeDegree(id)] counts, and each of them is the node the
    graph holds under its own identifier. *)
Theorem Graph_neighbors_match_degree (calls : list Graph.call) (id : string) :
  Forall (fun c => Graph.isFromJSON c = false) calls ->
  let g := Graph.run calls in
  length (Graph.getNodeNeighbors g id) = Graph.getNodeDegree g id
  /\ forall n, In n (Graph.getNodeNeighbors g id) ->
       Graph.getNode g (node_id n) = Some n.
Proof.
  intros Hcalls g.
  assert (Hwf : Graph_wf g) by (apply Graph_reachable_wf; exists calls; reflexivity).
  pose proof (Graph_run_noDangling calls Hcalls) as Hdangle. fold g in Hdangle.
  destruct Hwf as [Hnodes _].
  assert (Hl : forall e, In e (JSMap.values (Graph.edges g)) ->
             JSMap.has (Graph.nodes g) (edge_source e) = true
             /\ JSMap.has (Graph.nodes g) (edge_target e) = true).
  { intros e Hin. unfold JSMap.values in Hin.
    apply in_map_iff in Hin as [[k e'] [<- Hin]]. apply list_elem_of_In in Hin.
    exact (Hdangle k e' Hin). }
  destruct (getNodeNeighbors_fold g id (JSMap.values (Graph.edges g)) Hl [])
    as [Hlen Hmem].
  split.
  - unfold Graph.getNodeNeighbors, Graph.getNodeDegree, Graph.getNodeEdges.
    rewrite Hlen. reflexivity.
  - intros n Hn. unfold Graph.getNodeNeighbors in Hn.
    destruct (Hmem n Hn) as [[]|[key Hget]].
    unfold Graph.getNode.
    rewrite <- (keyed_get_id node_id (Graph.nodes g) key n Hnodes Hget). exact Hget.
Qed.

Lemma Graph_neighbors_match_degree_witness :
  length (Graph.getNodeNeighbors sampleGraph "b") = Graph.getNodeDegree sampleGraph "b".
Proof.
  apply (proj1 (Graph_neighbors_match_degree
                  [ Graph.CallAddNode "a" "cat" "concept" None;
                    Graph.CallAddNode "b" "mouse" "concept" None;
                    Graph.CallAddNode "c" "cheese" "concept" None;
                    Graph.CallAddEdge "e1" "a" "b" "chases" (Some (9 / 10)) None;
                    Graph.CallAddEdge "e2" "b" "c" "eats" None None ]
                  "b" ltac:(repeat constructor))).
Defined.

(** ** The wave function *)

Lemma WaveFunction_normalize_cases (w : WaveFunction.t) :
  let N := Rsum (map squaredModulus (WaveFunction.dimensions w)) in
  (N = 0 /\ WaveFunction.normalize w = w)
  \/ (0 < N
      /\ WaveFunction.normalize w
         = WaveFunction.mk
             (map (fun dim => Complex.scale dim (1 / sqrt N)) (WaveFunction.dimensions w))
             (WaveFunction.amplitude w) (WaveFunction.phase w) (WaveFunction.id w)
             (WaveFunction.connections w)
      /\ Rsum (map squaredModulus (WaveFunction.dimensions (WaveFunction.normalize w))) = 1).
Proof.
  intros N. unfold WaveFunction.normalize.
  rewrite (normalize_norm_Rsum (WaveFunction.dimensions w)). fold N.
  pose proof (Rsum_squaredModulus_nonneg (WaveFunction.dimensions w)) as HN. fold N in HN.
  destruct (Req_dec_T (sqrt N) 0) as [Hz|Hnz].
  - left. split; [|reflexivity]. apply sqrt_eq_0; assumption.
  - right.
    assert (HNpos : 0 < N).
    { destruct (Req_dec_T N 0) as [H0|H0]; [|lra]. rewrite H0, sqrt_0 in Hnz. lra. }
    split; [assumption|]. split; [reflexivity|].
    cbn [WaveFunction.dimensions]. rewrite Rsum_squaredModulus_scale. fold N.
    pose proof (sqrt_lt_R0 N HNpos) as Hs.
    replace (1 / sqrt N * (1 / sqrt N) * N) with (N / (sqrt N * sqrt N))
      by (field; lra).
    rewrite sqrt_sqrt by lra. field. lra.
Qed.

(** X7: [WaveFunction.normalize()] leaves the all-zero wave function as
    it is; when the sum of the squared magnitudes lies in the range in
    which its doubles neither underflow nor overflow, the squared
    magnitudes sum to 1 within [1e-6] afterwards; in every case the
    length, amplitude, phase, identifier and connections stay. *)
Theorem WaveFunction_normalize_near_unit_norm (w : WaveFunction.t) :
  (Forall (fun v => v = Complex.mk 0 0) (WaveFunction.dimensions w) ->
   WaveFunction.normalize w = w)
  /\ (inDoubleRange (Rsum (map squaredModulus (WaveFunction.dimensions w))) ->
      near (Rsum (map squaredModulus
                    (WaveFunction.dimensions (WaveFunction.normalize w)))) 1)
  /\ length (WaveFunction.dimensions (WaveFunction.normalize w))
     = length (WaveFunction.dimensions w)
  /\ WaveFunction.amplitude (WaveFunction.normalize w) = WaveFunction.amplitude w
  /\ WaveFunction.phase (WaveFunction.normalize w) = WaveFunction.phase w
  /\ WaveFunction.id (WaveFunction.normalize w) = WaveFunction.id w
  /\ WaveFunction.connections (WaveFunction.normalize w) = WaveFunction.connections w.
Proof.
  destruct (WaveFunction_normalize_cases w) as [[HN Heq]|[HN [Heq H1]]].
  - rewrite Heq. split; [reflexivity|]. split; [|repeat split].
    intros Hrange. apply inDoubleRange_pos in Hrange. lra.
  - split; [|split; [intros _; rewrite H1; apply near_refl|]].
    + intros Hall. apply Rsum_squaredModulus_zero in Hall. lra.
    + rewrite Heq. cbn. rewrite length_map. repeat split.
Qed.

Lemma WaveFunction_normalize_near_unit_norm_witness :
  near
    (Rsum (map squaredModulus
             (WaveFunction.dimensions
                (WaveFunction.normalize
                   (WaveFunction.mk [Complex.mk 3 0; Complex.mk 0 4] 1 0 "w" []))))) 1
  /\ WaveFunction.normalize (WaveFunction.new "z" 2) = WaveFunction.new "z" 2.
Proof.
  split.
  - apply (proj1 (proj2 (WaveFunction_normalize_near_unit_norm _))).
    unfold inDoubleRange, squaredModulus.
    cbn [WaveFunction.dimensions map Rsum foldr Complex.real Complex.imag].
    split; lra.
  - apply (proj1 (WaveFunction_normalize_near_unit_norm _)).
    cbn. repeat constructor.
Defined.

Lemma filter_neq_absent (l : list string) (x : string) :
  x ∉ l -> List.filter (fun id => negb (bool_decide (id = x))) l = l.
Proof.
  intros Hx. apply filter_all_true. intros y Hy.
  rewrite bool_decide_eq_false_2; [reflexivity|].
  intros ->. apply Hx. apply list_elem_of_In. exact Hy.
Qed.

(** X8: [addConnection] and [removeConnection] keep the list of
    connections free of duplicates: adding twice is adding once, after
    [removeConnection(id)] the identifier is gone, and removing an
    identifier just added to a list that lacked it gives the list back. *)
Theorem WaveFunction_connections_stay_distinct (w : WaveFunction.t) (nodeId : string) :
  NoDup (WaveFunction.connections w) ->
  NoDup (WaveFunction.connections (WaveFunction.addConnection w nodeId))
  /\ (nodeId ∈ WaveFunction.connections (WaveFunction.addConnection w nodeId))
  /\ WaveFunction.addConnection (WaveFunction.addConnection w nodeId) nodeId
     = WaveFunction.addConnection w nodeId
  /\ NoDup (WaveFunction.connections (WaveFunction.removeConnection w nodeId))
  /\ (nodeId ∉ WaveFunction.connections (WaveFunction.removeConnection w nodeId))
  /\ (nodeId ∉ WaveFunction.connections w ->
      WaveFunction.removeConnection (WaveFunction.addConnection w nodeId) nodeId = w).
Proof.
  intros Hnd.
  assert (Hin : nodeId ∈ WaveFunction.connections (WaveFunction.addConnection w nodeId)).
  { unfold WaveFunction.addConnection.
    destruct (decide (nodeId ∈ WaveFunction.connections w)) as [Hin|Hin]; [exact Hin|].
    cbn. apply elem_of_app. right. apply list_elem_of_singleton. reflexivity. }
  split; [|split; [exact Hin|split; [|split; [|split]]]].
  - unfold WaveFunction.addConnection.
    destruct (decide (nodeId ∈ WaveFunction.connections w)) as [Hin'|Hin']; [exact Hnd|].
    cbn. apply NoDup_app. split; [exact Hnd|]. split.
    + intros x Hx Hx'. apply list_elem_of_singleton in Hx'. subst. contradiction.
    + apply NoDup_singleton.
  - unfold WaveFunction.addConnection at 1.
    destruct (decide _) as [_|Hn]; [reflexivity | contradiction].
  - cbn. apply NoDup_ListNoDup. apply List.NoDup_filter. apply NoDup_ListNoDup. exact Hnd.
  - cbn. intros Hx. apply list_elem_of_In in Hx. apply filter_In in Hx as [_ Hx].
    rewrite bool_decide_eq_true_2 in Hx by reflexivity. discriminate.
  - intros Hout. unfold WaveFunction.addConnection.
    destruct (decide _) as [Hc|_]; [contradiction|].
    unfold WaveFunction.removeConnection. cbn.
    rewrite List.filter_app, (filter_neq_absent _ _ Hout). cbn.
    rewrite bool_decide_eq_true_2 by reflexivity. cbn. rewrite app_nil_r.
    destruct w; reflexivity.
Qed.

Lemma WaveFunction_connections_stay_distinct_witness :
  NoDup (WaveFunction.connections
           (WaveFunction.addConnection (WaveFunction.new "w" 2) "n1")).
Proof.
  apply (proj1 (WaveFunction_connections_stay_distinct (WaveFunction.new "w" 2) "n1"
                  ltac:(cbn; apply NoDup_nil_2))).
Defined.





(** *** [%] and [setPhase] *)

Lemma trunc_bounds (x : R) :
  (0 <= x -> 0 <= JSMath.trunc x <= x /\ x - JSMath.trunc x < 1)
  /\ (x < 0 -> x <= JSMath.trunc x <= 0 /\ JSMath.trunc x - x < 1).
Proof.
  unfold JSMath.trunc. split; intros Hx.
  - destruct (Rle_dec 0 x) as [_|Hn]; [|contradiction].
    destruct (base_Int_part x) as [Hle Hgt].
    assert (H0 : (0 <= Int_part x)%Z).
    { apply le_IZR. destruct (Z_lt_le_dec (Int_part x) 0) as [Hlt|Hge].
      - assert (Int_part x <= -1)%Z as Hm by lia. apply IZR_le in Hm. lra.
      - apply IZR_le. assumption. }
    apply IZR_le in H0. lra.
  - destruct (Rle_dec 0 x) as [Hn|_]; [lra|].
    destruct (base_Int_part (- x)) as [Hle Hgt].
    assert (H0 : (0 <= Int_part (- x))%Z).
    { destruct (Z_lt_le_dec (Int_part (- x)) 0) as [Hlt|Hge]; [|assumption].
      assert (Int_part (- x) <= -1)%Z as Hm by lia. apply IZR_le in Hm. lra. }
    apply IZR_le in H0. lra.
Qed.

Lemma rem_range (a b : R) :
  0 < b ->
  (0 <= a -> 0 <= JSMath.rem a b < b)
  /\ (a < 0 -> - b < JSMath.rem a b <= 0).
Proof.
  intros Hb. unfold JSMath.rem.
  assert (Hab : a = b * (a / b)) by (field; lra).
  split; intros Ha.
  - assert (Hq : 0 <= a / b).
    { apply Rmult_le_pos; [assumption|]. left. apply Rinv_0_lt_compat. assumption. }
    destruct (proj1 (trunc_bounds (a / b)) Hq) as [[Ht0 Ht1] Ht2].
    set (q := a / b) in *. set (t := JSMath.trunc q) in *.
    assert (0 <= b * (q - t)) by (apply Rmult_le_pos; lra).
    assert (b * (q - t) < b * 1) by (apply Rmult_lt_compat_l; lra).
    rewrite Hab at 1 2. lra.
  - assert (Hq : a / b < 0).
    { assert (0 < / b) by (apply Rinv_0_lt_compat; assumption).
      unfold Rdiv. nra. }
    destruct (proj2 (trunc_bounds (a / b)) Hq) as [[Ht0 Ht1] Ht2].
    set (q := a / b) in *. set (t := JSMath.trunc q) in *.
    assert (0 <= b * (t - q)) by (apply Rmult_le_pos; lra).
    assert (b * (t - q) < b * 1) by (apply Rmult_lt_compat_l; lra).
    rewrite Hab at 1 2. lra.
Qed.

Lemma rem_small (a b : R) : 0 <= a < b -> JSMath.rem a b = a.
Proof.
  intros [Ha Hab]. unfold JSMath.rem.
  assert (Hb : 0 < b) by lra.
  assert (Hq0 : 0 <= a / b).
  { apply Rmult_le_pos; [assumption|]. left. apply Rinv_0_lt_compat. assumption. }
  assert (Hq1 : a / b < 1).
  { apply (Rmult_lt_reg_r b); [assumption|]. unfold Rdiv.
    rewrite Rmult_assoc, Rinv_l by lra. lra. }
  destruct (proj1 (trunc_bounds (a / b)) Hq0) as [[Ht0 Ht1] Ht2].
  unfold JSMath.trunc in *. destruct (Rle_dec 0 (a / b)) as [_|Hn]; [|contradiction].
  assert (Hz : Int_part (a / b) = 0%Z).
  { assert (-1 < IZR (Int_part (a / b)) < 1) as [Hl Hu] by lra.
    apply lt_IZR in Hl, Hu. lia. }
  rewrite Hz. lra.
Qed.

(** X10: whatever number [setPhase] is given, the phase it stores lies
    in [[0, 2 PI]], the range its comment names; a number between 0 and
    [2 PI - 1e-9] is stored as it is.  Nothing else of the wave
    function changes: dimensions, amplitude, identifier and
    connections stay. *)
Theorem WaveFunction_setPhase_closed_range (w : WaveFunction.t) (value : R) :
  0 <= WaveFunction.getPhase (WaveFunction.setPhase w value) <= 2 * PI
  /\ (0 <= value <= 2 * PI - / 10 ^ 9 ->
      WaveFunction.getPhase (WaveFunction.setPhase w value) = value)
  /\ WaveFunction.dimensions (WaveFunction.setPhase w value) = WaveFunction.dimensions w
  /\ WaveFunction.getAmplitude (WaveFunction.setPhase w value)
     = WaveFunction.getAmplitude w
  /\ WaveFunction.id (WaveFunction.setPhase w value) = WaveFunction.id w
  /\ WaveFunction.connections (WaveFunction.setPhase w value)
     = WaveFunction.connections w.
Proof.
  pose proof PI_RGT_0 as Hpi.
  assert (H2pi : 0 < 2 * PI) by lra.
  unfold WaveFunction.getPhase, WaveFunction.setPhase. cbn.
  destruct (rem_range value (2 * PI) H2pi) as [Hpos Hneg].
  split; [|split; [|repeat split]].
  - destruct (Rle_dec 0 value) as [Hv|Hv].
    + specialize (Hpos Hv).
      destruct (Rlt_dec (JSMath.rem value (2 * PI)) 0) as [Hlt|_]; lra.
    + assert (Hv' : value < 0) by lra. specialize (Hneg Hv').
      destruct (Rlt_dec (JSMath.rem value (2 * PI)) 0) as [Hlt|Hge]; lra.
  - intros Hrange.
    assert (Hsmall : 0 <= value < 2 * PI) by lra.
    rewrite (rem_small _ _ Hsmall).
    destruct (Rlt_dec value 0) as [Hlt|_]; lra.
Qed.

Lemma WaveFunction_setPhase_closed_range_witness :
  WaveFunction.getPhase (WaveFunction.setPhase (WaveFunction.new "w" 2) 1) = 1.
Proof.
  apply (proj1 (proj2 (WaveFunction_setPhase_closed_range (WaveFunction.new "w" 2) 1))).
  pose proof PI2_1. split; lra.
Defined.

(** *** [superpose] *)

Lemma superpose_loop (a b : list Complex.t) (amp ph : R) (rid : string)
    (conns : list string) (d : list Complex.t) :
  length d = length a ->
  forall k : nat,
    (k <= length a)%nat -> (k <= length b)%nat ->
    fold_left
      (fun (acc : result WaveFunction.t) i =>
         bind_result acc (fun created =>
           match a !! i, b !! i with
           | Some x, Some y =>
               Ok (WaveFunction.setDimension created i
                     (Complex.scale (Complex.add x y) (1 / sqrt 2)))
           | _, _ => Throw "TypeError: cannot read properties of undefined"
           end))
      (seq 0 k) (Ok (WaveFunction.mk d amp ph rid conns))
    = Ok (WaveFunction.mk
            (map (fun pair : Complex.t * Complex.t =>
                    Complex.scale (Complex.add pair.1 pair.2) (1 / sqrt 2))
                 (zip (take k a) (take k b))
             ++ drop k d)
            amp ph rid conns).
Proof.
  intros Hd. induction k as [|k IH]; intros Hka Hkb.
  - cbn. rewrite drop_0. reflexivity.
  - rewrite seq_S, fold_left_app, IH by lia. cbn [fold_left bind_result Nat.add].
    destruct (lookup_lt_is_Some_2 a k ltac:(lia)) as [x Hx].
    destruct (lookup_lt_is_Some_2 b k ltac:(lia)) as [y Hy].
    destruct (lookup_lt_is_Some_2 d k ltac:(lia)) as [z Hz].
    rewrite Hx, Hy. f_equal. unfold WaveFunction.setDimension.
    cbn [WaveFunction.dimensions WaveFunction.amplitude WaveFunction.phase
         WaveFunction.id WaveFunction.connections].
    f_equal.
    assert (Hlen : length (map (fun pair : Complex.t * Complex.t =>
                                  Complex.scale (Complex.add pair.1 pair.2) (1 / sqrt 2))
                               (zip (take k a) (take k b))) = k).
    { rewrite length_map, length_zip_with, !length_take. lia. }
    rewrite insert_app_r_alt by (rewrite Hlen; lia).
    rewrite Hlen, Nat.sub_diag, (drop_S _ _ _ Hz). cbn [insert list_insert].
    rewrite (take_S_r _ _ _ Hx), (take_S_r _ _ _ Hy).
    rewrite zip_with_app by (rewrite !length_take; lia).
    rewrite map_app, <- app_assoc. reflexivity.
Qed.

Lemma fold_left_Throw {A B} (f : A -> B -> result A) (l : list B) (m : string) :
  fold_left (fun (acc : result A) i => bind_result acc (fun x => f x i)) l (Throw m)
  = Throw m.
Proof. induction l as [|i l IH]; [reflexivity | exact IH]. Qed.

Lemma zip_add_comm (a b : list Complex.t) (k : R) :
  map (fun pair : Complex.t * Complex.t => Complex.scale (Complex.add pair.1 pair.2) k)
      (zip a b)
  = map (fun pair : Complex.t * Complex.t => Complex.scale (Complex.add pair.1 pair.2) k)
        (zip b a).
Proof.
  revert b. induction a as [|x a IH]; intros [|y b]; try reflexivity.
  cbn [zip zip_with map]. rewrite <- (IH b). f_equal.
  unfold Complex.scale, Complex.add. cbn [Complex.real Complex.imag fst snd].
  f_equal; lra.
Qed.

(** X11: [superpose] returns a new wave function without connections
    whose entry [i] is [(this[i] + other[i]) / sqrt 2], provided [other]
    is at least as long as [this]; it throws when [other] is shorter.
    On wave functions of the same length the result does not depend on
    which of the two is the receiver. *)
Theorem WaveFunction_superpose_entries (random_id : string) (a b : WaveFunction.t) :
  ((length (WaveFunction.dimensions a) <= length (WaveFunction.dimensions b))%nat ->
   exists w,
     WaveFunction.superpose random_id a b = Ok w
     /\ WaveFunction.dimensions w
        = map (fun pair : Complex.t * Complex.t =>
                 Complex.scale (Complex.add pair.1 pair.2) (1 / sqrt 2))
              (zip (WaveFunction.dimensions a) (WaveFunction.dimensions b))
     /\ WaveFunction.getAmplitude w
        = JSMath.clamp01 ((WaveFunction.amplitude a + WaveFunction.amplitude b) / 2)
     /\ WaveFunction.id w = random_id
     /\ WaveFunction.connections w = [])
  /\ ((length (WaveFunction.dimensions b) < length (WaveFunction.dimensions a))%nat ->
      exists m, WaveFunction.superpose random_id a b = Throw m)
  /\ (length (WaveFunction.dimensions a) = length (WaveFunction.dimensions b) ->
      WaveFunction.superpose random_id a b = WaveFunction.superpose random_id b a).
Proof.
  assert (Hok : forall a b : WaveFunction.t,
             (length (WaveFunction.dimensions a) <= length (WaveFunction.dimensions b))%nat ->
             WaveFunction.superpose random_id a b
             = Ok (WaveFunction.mk
                     (map (fun pair : Complex.t * Complex.t =>
                             Complex.scale (Complex.add pair.1 pair.2) (1 / sqrt 2))
                          (zip (WaveFunction.dimensions a) (WaveFunction.dimensions b)))
                     (JSMath.clamp01
                        ((WaveFunction.amplitude a + WaveFunction.amplitude b) / 2))
                     (WaveFunction.phase
                        (WaveFunction.setPhase (WaveFunction.new random_id 0)
                           ((WaveFunction.phase a + WaveFunction.phase b) / 2)))
                     random_id [])).
  { clear a b. intros a b Hle. unfold WaveFunction.superpose.
    unfold WaveFunction.setPhase, WaveFunction.setAmplitude, WaveFunction.new.
    cbn [WaveFunction.dimensions WaveFunction.amplitude WaveFunction.phase
         WaveFunction.id WaveFunction.connections].
    rewrite (superpose_loop (WaveFunction.dimensions a) (WaveFunction.dimensions b))
      by (rewrite ?length_replicate; lia).
    rewrite drop_ge by (rewrite length_replicate; lia).
    rewrite app_nil_r, firstn_all. do 3 f_equal. apply zip_with_take_r. }
  split; [|split].
  - intros Hle. eexists. split; [apply Hok; assumption|]. repeat split.
  - intros Hlt. unfold WaveFunction.superpose.
    unfold WaveFunction.setPhase, WaveFunction.setAmplitude, WaveFunction.new.
    cbn [WaveFunction.dimensions WaveFunction.amplitude WaveFunction.phase
         WaveFunction.id WaveFunction.connections].
    set (n := length (WaveFunction.dimensions a)) in *.
    set (k := length (WaveFunction.dimensions b)) in *.
    assert (Hseq : seq 0 n = seq 0 k ++ seq k (S (n - k - 1))).
    { change (seq k (S (n - k - 1))) with (seq (0 + k) (S (n - k - 1))).
      rewrite <- (seq_app k (S (n - k - 1)) 0). f_equal. lia. }
    rewrite Hseq, fold_left_app.
    rewrite (superpose_loop (WaveFunction.dimensions a) (WaveFunction.dimensions b))
      by (rewrite ?length_replicate; lia).
    cbn [seq fold_left bind_result Nat.add].
    rewrite (lookup_ge_None_2 (WaveFunction.dimensions b) k) by lia.
    destruct (WaveFunction.dimensions a !! k);
      rewrite fold_left_Throw; eexists; reflexivity.
  - intros Heq. rewrite (Hok a b), (Hok b a) by lia. f_equal.
    rewrite (zip_add_comm (WaveFunction.dimensions a)).
    f_equal; [f_equal; f_equal; lra|]. f_equal. f_equal. f_equal. lra.
Qed.

Lemma WaveFunction_superpose_entries_witness :
  WaveFunction.superpose "s"
    (WaveFunction.mk [Complex.mk 1 0; Complex.mk 0 1] 1 0 "a" ["n1"%string])
    (WaveFunction.mk [Complex.mk 0 1; Complex.mk 1 0] 0 1 "b" [])
  = WaveFunction.superpose "s"
      (WaveFunction.mk [Complex.mk 0 1; Complex.mk 1 0] 0 1 "b" [])
      (WaveFunction.mk [Complex.mk 1 0; Complex.mk 0 1] 1 0 "a" ["n1"%string]).
Proof.
  apply (proj2 (proj2 (WaveFunction_superpose_entries "s" _ _))). reflexivity.
Defined.

(** ** Polar form *)

Lemma sqrt_square_sum_pos (x y : R) :
  0 < x -> sqrt (x * x + y * y) = x * sqrt (1 + (y / x) * (y / x)).
Proof.
  intros Hx.
  replace (x * x + y * y) with (x * x * (1 + (y / x) * (y / x))) by (field; lra).
  rewrite sqrt_mult by nra. rewrite sqrt_square by lra. reflexivity.
Qed.

Lemma sqrt_square_sum_neg (x y : R) :
  x < 0 -> sqrt (x * x + y * y) = - x * sqrt (1 + (y / x) * (y / x)).
Proof.
  intros Hx.
  replace (x * x + y * y) with (- x * - x * (1 + (y / x) * (y / x))) by (field; lra).
  rewrite sqrt_mult by nra. rewrite sqrt_square by lra. reflexivity.
Qed.

Lemma sqrt_one_plus_square_pos (t : R) : 0 < sqrt (1 + t * t).
Proof. apply sqrt_lt_R0. nra. Qed.

(** [Complex.fromPolar(z.magnitude(), z.phase())] is [z]. *)
Lemma Complex_polar_parts (x y : R) :
  sqrt (x * x + y * y) * cos (JSMath.atan2 y x) = x
  /\ sqrt (x * x + y * y) * sin (JSMath.atan2 y x) = y.
Proof.
  unfold JSMath.atan2.
  destruct (Rlt_dec 0 x) as [Hx|Hx].
  - rewrite (sqrt_square_sum_pos x y Hx), cos_atan, sin_atan. unfold Rsqr.
    pose proof (sqrt_one_plus_square_pos (y / x)) as Hs.
    split; field; lra.
  - destruct (Rlt_dec x 0) as [Hx'|Hx'].
    + rewrite (sqrt_square_sum_neg x y Hx').
      pose proof (sqrt_one_plus_square_pos (y / x)) as Hs.
      destruct (Rle_dec 0 y) as [Hy|Hy].
      * rewrite neg_cos, neg_sin, cos_atan, sin_atan. unfold Rsqr.
        split; field; lra.
      * unfold Rminus. rewrite cos_plus, sin_plus, cos_neg, sin_neg, cos_PI, sin_PI.
        rewrite cos_atan, sin_atan. unfold Rsqr. split; field; lra.
    + assert (x = 0) by lra. subst x.
      replace (0 * 0 + y * y) with (y * y) by lra.
      destruct (Rlt_dec 0 y) as [Hy|Hy].
      * rewrite sqrt_square by lra. rewrite cos_PI2, sin_PI2. lra.
      * destruct (Rlt_dec y 0) as [Hy'|Hy'].
        -- replace (y * y) with (- y * - y) by lra. rewrite sqrt_square by lra.
           rewrite cos_neg, sin_neg, cos_PI2, sin_PI2. lra.
        -- assert (y = 0) by lra. subst y. rewrite Rmult_0_l, sqrt_0. lra.
Qed.

Lemma Rabs_diag_le (x bound : R) : 0 <= bound -> Rabs (x - x) <= bound.
Proof. intros Hbound. rewrite Rminus_diag, Rabs_R0. assumption. Qed.

(** X12: the polar form round trip, up to rounding.  For a complex
    number [z] whose [|z|^2] is in the range of doubles, both parts of
    [Complex.fromPolar(z.magnitude(), z.phase())] are within
    [1e-9 |z|] of the parts of [z]; and for [r >= 0] with [r^2] in the
    range, the magnitude of [fromPolar(r, theta)] is within [1e-9 r]
    of [r]. *)
Theorem Complex_polar_round_trip_near (z : Complex.t) (r theta : R) :
  (inDoubleRange (squaredModulus z) ->
   Rabs (Complex.real (Complex.fromPolar (Complex.magnitude z) (Complex.phase z))
         - Complex.real z) <= / 10 ^ 9 * Complex.magnitude z
   /\ Rabs (Complex.imag (Complex.fromPolar (Complex.magnitude z) (Complex.phase z))
            - Complex.imag z) <= / 10 ^ 9 * Complex.magnitude z)
  /\ (0 <= r -> inDoubleRange (r * r) ->
      Rabs (Complex.magnitude (Complex.fromPolar r theta) - r) <= / 10 ^ 9 * r).
Proof.
  split.
  - intros _. destruct z as [x y].
    assert (Hbound : 0 <= / 10 ^ 9 * Complex.magnitude (Complex.mk x y)).
    { apply Rmult_le_pos; [lra | apply sqrt_pos]. }
    revert Hbound.
    unfold Complex.fromPolar, Complex.magnitude, Complex.phase.
    cbn [Complex.real Complex.imag].
    destruct (Complex_polar_parts x y) as [-> ->]. intros Hbound.
    split; apply Rabs_diag_le; assumption.
  - intros Hr _. unfold Complex.magnitude.
    change (Rabs (sqrt (squaredModulus (Complex.fromPolar r theta)) - r)
            <= / 10 ^ 9 * r).
    rewrite squaredModulus_fromPolar, sqrt_square by assumption.
    apply Rabs_diag_le. lra.
Qed.

Lemma Complex_polar_round_trip_near_witness :
  Rabs (Complex.magnitude (Complex.fromPolar 2 1) - 2) <= / 10 ^ 9 * 2.
Proof.
  apply (proj2 (Complex_polar_round_trip_near (Complex.mk 0 0) 2 1)).
  - lra.
  - unfold inDoubleRange. split; lra.
Defined.

(** ** The evolution operators *)

Lemma Rsum_squaredModulus_map (f : Complex.t -> Complex.t) (k : R) (vs : list Complex.t) :
  (forall v, squaredModulus (f v) = k * squaredModulus v) ->
  Rsum (map squaredModulus (map f vs)) = k * Rsum (map squaredModulus vs).
Proof.
  intros Hf. induction vs as [|v vs IH]; cbn [map Rsum foldr]; [lra|].
  fold (Rsum (map squaredModulus (map f vs))). fold (Rsum (map squaredModulus vs)).
  rewrite IH, Hf. lra.
Qed.

Lemma Rabs_bound (x bound : R) : - bound <= x <= bound -> Rabs x <= bound.
Proof. intros [Hlo Hhi]. apply Rabs_le. split; assumption. Qed.

(** X13: what one application of a built-in operator does to the sum
    [E] of the squared magnitudes of a wave function, for moderate
    [E] and up to rounding: dissipation over [|rate time| <= 100]
    multiplies it by [exp (- 2 rate time)], within a billionth of the
    product; the harmonic operator with [|frequency time| <= 1000] and
    [|amplitude| <= 1000] multiplies it by
    [(1 + amplitude cos (frequency time))^2], within
    [1e-9 (1 + |amplitude|)^2 E]; phase evolution leaves it as it is,
    within [1e-9 E].  None of the three changes the number of
    dimensions, the amplitude, the phase, the identifier or the
    connections of the wave function. *)
Theorem QuantumEvolution_operator_energy_near (w : WaveFunction.t) (time : R) :
  moderate (Rsum (map squaredModulus (WaveFunction.dimensions w))) ->
  (forall rate,
      Rabs (rate * time) <= 100 ->
      Rabs (Rsum (map squaredModulus
                    (WaveFunction.dimensions
                       (QuantumEvolution.apply
                          (QuantumEvolution.createDissipationOperator rate) w time)))
            - exp (- 2 * rate * time)
              * Rsum (map squaredModulus (WaveFunction.dimensions w)))
      <= / 10 ^ 9
         * (exp (- 2 * rate * time)
            * Rsum (map squaredModulus (WaveFunction.dimensions w))))
  /\ (forall frequency amplitude,
         Rabs (frequency * time) <= 1000 -> Rabs amplitude <= 1000 ->
         Rabs (Rsum (map squaredModulus
                       (WaveFunction.dimensions
                          (QuantumEvolution.apply
                             (QuantumEvolution.createHarmonicOperator frequency amplitude)
                             w time)))
               - (1 + cos (frequency * time) * amplitude)
                 * (1 + cos (frequency * time) * amplitude)
                 * Rsum (map squaredModulus (WaveFunction.dimensions w)))
         <= / 10 ^ 9
            * ((1 + Rabs amplitude) * (1 + Rabs amplitude)
               * Rsum (map squaredModulus (WaveFunction.dimensions w))))
  /\ (forall frequency,
         Rabs (frequency * time) <= 1000 ->
         Rabs (Rsum (map squaredModulus
                       (WaveFunction.dimensions
                          (QuantumEvolution.apply
                             (QuantumEvolution.createPhaseEvolutionOperator frequency)
                             w time)))
               - Rsum (map squaredModulus (WaveFunction.dimensions w)))
         <= / 10 ^ 9 * Rsum (map squaredModulus (WaveFunction.dimensions w)))
  /\ (forall operator,
         builtinOperator operator ->
         length (WaveFunction.dimensions (QuantumEvolution.apply operator w time))
         = length (WaveFunction.dimensions w)
         /\ WaveFunction.amplitude (QuantumEvolution.apply operator w time)
            = WaveFunction.amplitude w
         /\ WaveFunction.phase (QuantumEvolution.apply operator w time)
            = WaveFunction.phase w
         /\ WaveFunction.id (QuantumEvolution.apply operator w time)
            = WaveFunction.id w
         /\ WaveFunction.connections (QuantumEvolution.apply operator w time)
            = WaveFunction.connections w).
Proof.
  intros Hmoderate.
  assert (HE : 0 <= Rsum (map squaredModulus (WaveFunction.dimensions w)))
    by apply Rsum_squaredModulus_nonneg.
  split; [|split; [|split]].
  - intros rate _.
    cbn [QuantumEvolution.apply QuantumEvolution.createDissipationOperator].
    rewrite forEachDimension_map. cbn [WaveFunction.dimensions].
    rewrite (Rsum_squaredModulus_map _ (exp (- 2 * rate * time))).
    + apply Rabs_diag_le. apply Rmult_le_pos; [lra|].
      apply Rmult_le_pos; [left; apply exp_pos | assumption].
    + intros v. unfold squaredModulus, Complex.scale. cbn [Complex.real Complex.imag].
      replace (- 2 * rate * time) with (- rate * time + - rate * time) by lra.
      rewrite exp_plus. lra.
  - intros frequency amplitude _ _.
    cbn [QuantumEvolution.apply QuantumEvolution.createHarmonicOperator].
    rewrite forEachDimension_map. cbn [WaveFunction.dimensions].
    rewrite (Rsum_squaredModulus_map _
               ((1 + cos (frequency * time) * amplitude)
                * (1 + cos (frequency * time) * amplitude))).
    + apply Rabs_diag_le. pose proof (Rabs_pos amplitude) as Ha.
      apply Rmult_le_pos; [lra|]. apply Rmult_le_pos; [nra | assumption].
    + intros v. unfold squaredModulus, Complex.scale. cbn [Complex.real Complex.imag].
      lra.
  - intros frequency _.
    cbn [QuantumEvolution.apply QuantumEvolution.createPhaseEvolutionOperator].
    rewrite forEachDimension_map. cbn [WaveFunction.dimensions].
    rewrite (Rsum_squaredModulus_map _ 1).
    + rewrite Rmult_1_l. apply Rabs_diag_le. lra.
    + intros v. rewrite squaredModulus_fromPolar.
      rewrite sqrt_sqrt by apply (squaredModulus_nonneg v).
      unfold squaredModulus. lra.
  - intros operator [[frequency [amplitude ->]] | [[rate ->] | [frequency ->]]];
      cbn [QuantumEvolution.apply QuantumEvolution.createDissipationOperator
           QuantumEvolution.createPhaseEvolutionOperator
           QuantumEvolution.createHarmonicOperator];
      rewrite forEachDimension_map; cbn; rewrite length_map; repeat split.
Qed.

Lemma QuantumEvolution_operator_energy_near_witness :
  Rabs (Rsum (map squaredModulus
                (WaveFunction.dimensions
                   (QuantumEvolution.apply
                      (QuantumEvolution.createDissipationOperator (1 / 2))
                      (WaveFunction.mk [Complex.mk 1 0; Complex.mk 0 1] 1 0 "w" []) 1)))
        - exp (- 2 * (1 / 2) * 1)
          * Rsum (map squaredModulus [Complex.mk 1 0; Complex.mk 0 1]))
  <= / 10 ^ 9
     * (exp (- 2 * (1 / 2) * 1)
        * Rsum (map squaredModulus [Complex.mk 1 0; Complex.mk 0 1])).
Proof.
  apply (proj1 (QuantumEvolution_operator_energy_near
                  (WaveFunction.mk [Complex.mk 1 0; Complex.mk 0 1] 1 0 "w" []) 1
                  ltac:(unfold moderate, squaredModulus;
                        cbn [WaveFunction.dimensions map Rsum foldr
                             Complex.real Complex.imag];
                        split; lra))
           (1 / 2)).
  apply Rabs_bound. split; lra.
Defined.

(** ** The evolution loop *)

Lemma cloneStates_single (random : QuantumEvolution.RandomSource) (drawn : nat)
    (st : EncodedState) :
  QuantumEvolution.cloneStates random drawn [st]
  = ([QuantumEvolution.cloneState (random drawn) st], S drawn).
Proof. reflexivity. Qed.

(** One round of the loop of [evolveState] records one entry: its time
    is the current time and its energy is what [calculateMetrics] sums
    over the normalised wave function. *)
Lemma recordTimeStep_single (options : QuantumEvolution.EvolutionOptions)
    (random : QuantumEvolution.RandomSource) (drawn : nat)
    (history : list QuantumEvolution.Recorded) (st : EncodedState) (t : R) :
  exists r drawn',
    QuantumEvolution.recordTimeStep options random drawn history [st] t
    = Ok (history ++ [r], drawn')
    /\ QuantumEvolution.recorded_time r = t
    /\ QuantumEvolution.totalEnergy (QuantumEvolution.recorded_metrics r)
       = Rsum (map squaredModulus (WaveFunction.dimensions (waveFunction st)))
    /\ QuantumEvolution.recorded_states r
       = if QuantumEvolution.trackMetrics options
         then Some [QuantumEvolution.cloneState (random drawn) st]
         else None.
Proof.
  destruct (calculateMetrics_single st) as [m [Hm He]].
  unfold QuantumEvolution.recordTimeStep. rewrite Hm.
  assert (Hen : QuantumEvolution.totalEnergy m
                = Rsum (map squaredModulus (WaveFunction.dimensions (waveFunction st)))).
  { rewrite He. unfold WaveFunction.getDimensions.
    rewrite (fold_left_Rsum
               (fun dim => Complex.real dim * Complex.real dim
                           + Complex.imag dim * Complex.imag dim)).
    rewrite Rplus_0_l. reflexivity. }
  destruct (QuantumEvolution.trackMetrics options); cbn [negb bind_result].
  - rewrite cloneStates_single. do 2 eexists. split; [reflexivity|].
    cbn. repeat split. exact Hen.
  - do 2 eexists. split; [reflexivity|]. cbn. repeat split. exact Hen.
Qed.

(** The loop of [evolveState], round by round.  [Inv] is a property of
    the state the rounds keep, [Q] what a round records. *)
Lemma evolveLoop_rounds (options : QuantumEvolution.EvolutionOptions)
    (random : QuantumEvolution.RandomSource)
    (Inv : EncodedState -> Prop) (Q : R -> QuantumEvolution.Recorded -> Prop) :
  0 < QuantumEvolution.timeStep options ->
  (forall st t drawn history,
      Inv st -> t <= QuantumEvolution.totalTime options ->
      let w := fold_left (fun w operator => QuantumEvolution.apply operator w t)
                 (QuantumEvolution.operators options) (waveFunction st) in
      let st' := QuantumEvolution.withWaveFunction st (WaveFunction.normalize w) in
      Inv st'
      /\ exists r drawn',
           QuantumEvolution.recordTimeStep options random drawn history [st'] t
           = Ok (history ++ [r], drawn')
           /\ Q t r) ->
  forall (fuel : nat) (t : R),
    QuantumEvolution.totalTime options - t
    < INR fuel * QuantumEvolution.timeStep options ->
    forall drawn st history,
      Inv st ->
      exists final added,
        QuantumEvolution.evolveLoop fuel options random drawn st t history
        = Some (Ok (final, history ++ added))
        /\ Inv final
        /\ stepsFrom Q (QuantumEvolution.timeStep options) t added
        /\ QuantumEvolution.totalTime options
           < t + INR (length added) * QuantumEvolution.timeStep options.
Proof.
  intros Hdt Hround.
  induction fuel as [|fuel IH]; intros t Hfuel drawn st history Hinv.
  - cbn [INR] in Hfuel. cbn [QuantumEvolution.evolveLoop].
    destruct (Rle_dec t (QuantumEvolution.totalTime options)) as [Hle|Hgt];
      [exfalso; lra|].
    exists st, []. rewrite app_nil_r. cbn. repeat split; [assumption | lra].
  - cbn [QuantumEvolution.evolveLoop].
    destruct (Rle_dec t (QuantumEvolution.totalTime options)) as [Hle|Hgt].
    + destruct (Hround st t drawn history Hinv Hle) as [Hinv' [r [drawn' [Hrec Hq]]]].
      cbv zeta in Hinv', Hrec. rewrite Hrec.
      assert (Hfuel' : QuantumEvolution.totalTime options
                       - (t + QuantumEvolution.timeStep options)
                       < INR fuel * QuantumEvolution.timeStep options).
      { rewrite S_INR in Hfuel. lra. }
      destruct (IH _ Hfuel' drawn' _ (history ++ [r]) Hinv')
        as [final [added [Hrun [Hfin [Hsteps Hend]]]]].
      exists final, (r :: added). rewrite Hrun.
      split; [rewrite <- app_assoc; reflexivity|]. split; [assumption|].
      split; [split; assumption|].
      cbn [length]. rewrite S_INR. lra.
    + exists st, []. rewrite app_nil_r. cbn. repeat split; [assumption | lra].
Qed.

Lemma evolveState_fuel (options : QuantumEvolution.EvolutionOptions) :
  0 < QuantumEvolution.timeStep options ->
  exists fuel, forall extra,
    QuantumEvolution.totalTime options - 0
    < INR (fuel + extra) * QuantumEvolution.timeStep options.
Proof.
  intros Hdt.
  destruct (INR_unbounded
              (QuantumEvolution.totalTime options / QuantumEvolution.timeStep options))
    as [fuel Hfuel].
  exists fuel. intros extra. rewrite plus_INR, Rminus_0_r.
  apply Rlt_le_trans with (INR fuel * QuantumEvolution.timeStep options).
  - apply (Rmult_lt_compat_r _ _ _ Hdt) in Hfuel.
    unfold Rdiv in Hfuel. rewrite Rmult_assoc, Rinv_l, Rmult_1_r in Hfuel by lra.
    exact Hfuel.
  - apply Rmult_le_compat_r; [lra|]. pose proof (pos_INR extra). lra.
Qed.

Lemma forEachDimension_zeroWave (f : Complex.t -> Complex.t) (w : WaveFunction.t) :
  f (Complex.mk 0 0) = Complex.mk 0 0 ->
  zeroWave w -> WaveFunction.forEachDimension f w = w.
Proof.
  intros Hf Hz. rewrite forEachDimension_map.
  destruct w as [dims a p i c]. unfold zeroWave in Hz.
  cbn [WaveFunction.dimensions WaveFunction.amplitude WaveFunction.phase
       WaveFunction.id WaveFunction.connections] in *.
  f_equal. rewrite Hz at 1. rewrite Hz at 2.
  generalize (length dims) as n. induction n as [|n IH]; [reflexivity|].
  cbn [replicate map]. rewrite IH, Hf. reflexivity.
Qed.

Lemma builtinOperator_zeroWave (operator : QuantumEvolution.EvolutionOperator)
    (w : WaveFunction.t) (time : R) :
  builtinOperator operator -> zeroWave w ->
  QuantumEvolution.apply operator w time = w.
Proof.
  intros [[frequency [amplitude ->]]|[[rate ->]|[frequency ->]]] Hz.
  - cbn [QuantumEvolution.apply QuantumEvolution.createHarmonicOperator].
    apply forEachDimension_zeroWave; [|assumption].
    unfold Complex.scale. cbn [Complex.real Complex.imag]. f_equal; lra.
  - apply dissipation_zeroWave. assumption.
  - cbn [QuantumEvolution.apply QuantumEvolution.createPhaseEvolutionOperator].
    apply forEachDimension_zeroWave; [|assumption].
    cbn [Complex.real Complex.imag]. unfold Complex.fromPolar.
    replace (0 * 0 + 0 * 0) with 0 by lra. rewrite sqrt_0. f_equal; lra.
Qed.

Lemma builtinOperators_zeroWave (operators : list QuantumEvolution.EvolutionOperator)
    (w : WaveFunction.t) (time : R) :
  Forall builtinOperator operators -> zeroWave w ->
  fold_left (fun w operator => QuantumEvolution.apply operator w time) operators w = w.
Proof.
  intros Hall Hz. induction Hall as [|operator operators Hop _ IH]; [reflexivity|].
  cbn [fold_left]. rewrite (builtinOperator_zeroWave _ _ _ Hop Hz). exact IH.
Qed.

Lemma zeroWave_energy (w : WaveFunction.t) :
  zeroWave w -> Rsum (map squaredModulus (WaveFunction.dimensions w)) = 0.
Proof.
  intros Hz. apply Rsum_squaredModulus_zero. rewrite Hz.
  apply Forall_replicate. reflexivity.
Qed.

Lemma stepsFrom_Forall (P : QuantumEvolution.Recorded -> Prop) (dt : R)
    (added : list QuantumEvolution.Recorded) :
  forall t, stepsFrom (fun _ r => P r) dt t added -> Forall P added.
Proof.
  induction added as [|r rest IH]; intros t Hsteps; [apply Forall_nil_2|].
  destruct Hsteps as [Hr Hrest]. apply Forall_cons. split; [assumption|].
  apply (IH _ Hrest).
Qed.

Lemma operatorInRange_builtin (totalTime : R)
    (operator : QuantumEvolution.EvolutionOperator) :
  operatorInRange totalTime operator -> builtinOperator operator.
Proof.
  intros [[frequency [amplitude [-> _]]] | [[rate [-> _]] | [frequency [-> _]]]].
  - left. exists frequency, amplitude. reflexivity.
  - right. left. exists rate. reflexivity.
  - right. right. exists frequency. reflexivity.
Qed.

(** X15: when every operator comes from one of the three factories,
    with parameters that keep its arithmetic finite up to [totalTime],
    and the run takes no more than a million steps, the evolution
    never leaves the all-zero wave function [cloneState] starts from:
    whatever the initial state holds, [evolveState] returns, every
    step of the history has [totalEnergy] 0, and the states it lists
    are all-zero wave functions with the source node and the
    connections of the initial state. *)
Theorem evolveState_operators_in_range_stay_zero
    (options : QuantumEvolution.EvolutionOptions)
    (random : QuantumEvolution.RandomSource) (initialState : EncodedState) :
  Forall (operatorInRange (QuantumEvolution.totalTime options))
    (QuantumEvolution.operators options) ->
  0 < QuantumEvolution.timeStep options ->
  QuantumEvolution.totalTime options <= 10 ^ 6 * QuantumEvolution.timeStep options ->
  exists fuel, forall extra, exists history,
    QuantumEvolution.evolveState (fuel + extra) options random initialState
    = Some (Ok history)
    /\ Forall
         (fun step =>
            QuantumEvolution.totalEnergy (QuantumEvolution.metrics step) = 0
            /\ Forall
                 (fun s =>
                    zeroWave (waveFunction s)
                    /\ length (WaveFunction.dimensions (waveFunction s))
                       = length (WaveFunction.dimensions (waveFunction initialState))
                    /\ sourceNode s = sourceNode initialState
                    /\ connections s = connections initialState)
                 (QuantumEvolution.states step))
         history.
Proof.
  intros Hrange Hdt _.
  assert (Hops : Forall builtinOperator (QuantumEvolution.operators options)).
  { apply (Forall_impl _ _ _ Hrange). intros operator.
    apply operatorInRange_builtin. }
  destruct (evolveState_fuel options Hdt) as [fuel Hfuel].
  exists fuel. intros extra. unfold QuantumEvolution.evolveState.
  set (good := fun s : EncodedState =>
                 zeroWave (waveFunction s)
                 /\ length (WaveFunction.dimensions (waveFunction s))
                    = length (WaveFunction.dimensions (waveFunction initialState))
                 /\ sourceNode s = sourceNode initialState
                 /\ connections s = connections initialState).
  destruct (evolveLoop_rounds options random good
              (fun _ r =>
                 QuantumEvolution.totalEnergy (QuantumEvolution.recorded_metrics r) = 0
                 /\ forall cs, QuantumEvolution.recorded_states r = Some cs ->
                      Forall good cs)
              Hdt) with (fuel := (fuel + extra)%nat) (t := 0) (drawn := 1%nat)
              (st := QuantumEvolution.cloneState (random 0%nat) initialState)
              (history := @nil QuantumEvolution.Recorded)
    as [final [added [Hrun [Hfinal [Hsteps _]]]]].
  - intros st t drawn history [Hz [Hlen [Hnode Hconn]]] Hle w st'.
    assert (Hw : w = waveFunction st).
    { subst w. apply builtinOperators_zeroWave; assumption. }
    assert (Hst : st' = st).
    { subst st'. rewrite Hw, (normalize_zeroWave _ Hz). destruct st; reflexivity. }
    rewrite Hst. split; [repeat split; assumption|].
    destruct (recordTimeStep_single options random drawn history st t)
      as [r [drawn' [Hrec [_ [Hen Hstates]]]]].
    exists r, drawn'. split; [exact Hrec|]. split.
    + rewrite Hen. apply zeroWave_energy. assumption.
    + intros cs Hcs. rewrite Hstates in Hcs.
      destruct (QuantumEvolution.trackMetrics options); [|discriminate].
      injection Hcs as <-. apply Forall_cons. split; [|apply Forall_nil_2].
      unfold good, QuantumEvolution.cloneState. cbn [waveFunction sourceNode connections].
      split; [apply zeroWave_new|]. split; [|split; assumption].
      unfold WaveFunction.getDimensions. cbn [WaveFunction.new WaveFunction.dimensions].
      rewrite length_replicate. exact Hlen.
  - apply Hfuel.
  - unfold good, QuantumEvolution.cloneState. cbn [waveFunction sourceNode connections].
    split; [apply zeroWave_new|]. split; [|split; reflexivity].
    unfold WaveFunction.getDimensions. cbn [WaveFunction.new WaveFunction.dimensions].
    apply length_replicate.
  - rewrite Hrun. cbn [app]. eexists. split; [reflexivity|].
    apply stepsFrom_Forall in Hsteps. apply Forall_map.
    apply (Forall_impl _ _ _ Hsteps). intros r [Hen Hcs].
    cbn [QuantumEvolution.resolve QuantumEvolution.metrics QuantumEvolution.states].
    split; [exact Hen|].
    destruct (QuantumEvolution.recorded_states r) as [cs|]; cbn [default].
    + apply Hcs. reflexivity.
    + apply Forall_cons. split; [exact Hfinal | apply Forall_nil_2].
Qed.

Lemma evolveState_operators_in_range_stay_zero_witness :
  exists fuel, forall extra, exists history,
    QuantumEvolution.evolveState (fuel + extra)
      (QuantumEvolution.mkOptions (1 / 10) 1
         [QuantumEvolution.createHarmonicOperator 2 (1 / 2);
          QuantumEvolution.createDissipationOperator (1 / 2);
          QuantumEvolution.createPhaseEvolutionOperator 3] true false)
      (fun _ => "r"%string) sampleStateB
    = Some (Ok history)
    /\ Forall
         (fun step =>
            QuantumEvolution.totalEnergy (QuantumEvolution.metrics step) = 0
            /\ Forall
                 (fun s =>
                    zeroWave (waveFunction s)
                    /\ length (WaveFunction.dimensions (waveFunction s))
                       = length (WaveFunction.dimensions (waveFunction sampleStateB))
                    /\ sourceNode s = sourceNode sampleStateB
                    /\ connections s = connections sampleStateB)
                 (QuantumEvolution.states step))
         history.
Proof.
  apply (evolveState_operators_in_range_stay_zero
           (QuantumEvolution.mkOptions (1 / 10) 1
              [QuantumEvolution.createHarmonicOperator 2 (1 / 2);
               QuantumEvolution.createDissipationOperator (1 / 2);
               QuantumEvolution.createPhaseEvolutionOperator 3] true false)
           (fun _ => "r"%string) sampleStateB).
  - cbn [QuantumEvolution.operators QuantumEvolution.totalTime].
    apply Forall_cons. split.
    { left. exists 2, (1 / 2). split; [reflexivity|].
      rewrite Rabs_pos_eq by lra. lra. }
    apply Forall_cons. split.
    { right. left. exists (1 / 2). split; [reflexivity|].
      rewrite Rabs_pos_eq by lra. lra. }
    apply Forall_cons. split; [|apply Forall_nil_2].
    right. right. exists 3. split; [reflexivity|].
    rewrite Rabs_pos_eq by lra. lra.
  - cbn. lra.
  - cbn [QuantumEvolution.totalTime QuantumEvolution.timeStep]. lra.
Defined.

(** ** The prime factors of [getPrimeFactors] *)

Lemma divideOut_spec (fuel : nat) :
  forall (d num : Z) (factors : list Z) (num' : Z) (factors' : list Z),
    (2 <= d)%Z -> (1 <= num)%Z ->
    QuantumField.divideOut fuel d num factors = Some (num', factors') ->
    exists k : nat,
      factors' = factors ++ replicate k d
      /\ (num = num' * d ^ Z.of_nat k)%Z
      /\ (1 <= num')%Z
      /\ ~ Z.divide d num'
      /\ ((0 < k)%nat -> Z.divide d num).
Proof.
  induction fuel as [|fuel IH]; intros d num factors num' factors' Hd Hnum Hrun.
  - cbn in Hrun. destruct (decide (Z.rem num d = 0%Z)) as [Hrem|Hrem]; [discriminate|].
    injection Hrun as <- <-. exists 0%nat. cbn [replicate]. rewrite app_nil_r.
    repeat split; [lia | assumption | | lia].
    intros Hdiv. apply Hrem. apply Z.rem_divide; [lia | assumption].
  - cbn in Hrun. destruct (decide (Z.rem num d = 0%Z)) as [Hrem|Hrem].
    + assert (Hdiv : Z.divide d num) by (apply Z.rem_divide; [lia | assumption]).
      assert (Hq : (num = d * (num / d))%Z).
      { destruct Hdiv as [c ->]. rewrite Z.div_mul by lia. lia. }
      assert (Hq1 : (1 <= num / d)%Z) by nia.
      destruct (IH d (num / d)%Z (factors ++ [d]) num' factors' Hd Hq1 Hrun)
        as [k [Hf [Hn [Hn1 [Hnd _]]]]].
      exists (S k). split; [rewrite Hf, <- app_assoc; reflexivity|].
      split; [|repeat split; [assumption | assumption | intros _; assumption]].
      rewrite Nat2Z.inj_succ, Z.pow_succ_r by lia. rewrite Hq at 1. rewrite Hn. ring.
    + injection Hrun as <- <-. exists 0%nat. cbn [replicate]. rewrite app_nil_r.
      repeat split; [lia | assumption | | lia].
      intros Hdiv. apply Hrem. apply Z.rem_divide; [lia | assumption].
Qed.

Lemma StronglySorted_snoc (l : list Z) (x : Z) :
  StronglySorted Z.le l -> Forall (fun p => (p <= x)%Z) l ->
  StronglySorted Z.le (l ++ [x]).
Proof.
  intros Hs Hall. induction Hs as [|p l Hs IH Hp]; cbn [app].
  - apply SSorted_cons; [apply SSorted_nil | apply Forall_nil_2].
  - apply Forall_cons in Hall as [Hpx Hall]. apply SSorted_cons; [apply IH; assumption|].
    apply Forall_app. split; [assumption|]. apply Forall_cons. split; [assumption|].
    apply Forall_nil_2.
Qed.

Lemma StronglySorted_replicate (l : list Z) (x : Z) (k : nat) :
  StronglySorted Z.le l -> Forall (fun p => (p <= x)%Z) l ->
  StronglySorted Z.le (l ++ replicate k x)
  /\ Forall (fun p => (p <= x)%Z) (l ++ replicate k x).
Proof.
  revert l. induction k as [|k IH]; intros l Hs Hall.
  - cbn [replicate]. rewrite app_nil_r. split; assumption.
  - cbn [replicate]. rewrite (cons_middle x l), app_assoc. apply IH.
    + apply StronglySorted_snoc; assumption.
    + apply Forall_app. split; [assumption|]. apply Forall_cons. split; [lia|].
      apply Forall_nil_2.
Qed.

Lemma product_app (l1 l2 : list Z) :
  (fold_right Z.mul 1 (l1 ++ l2) = fold_right Z.mul 1 l1 * fold_right Z.mul 1 l2)%Z.
Proof. induction l1 as [|x l1 IH]; cbn [app fold_right]; [lia | rewrite IH; ring]. Qed.

Lemma product_replicate (k : nat) (d : Z) :
  (fold_right Z.mul 1 (replicate k d) = d ^ Z.of_nat k)%Z.
Proof.
  induction k as [|k IH]; [reflexivity|].
  cbn [replicate fold_right]. rewrite IH, Nat2Z.inj_succ, Z.pow_succ_r by lia.
  reflexivity.
Qed.

(** A number above 1 that divides [num] while nothing from 2 up to it
    does is a prime. *)
Lemma least_divisor_prime (d num : Z) :
  (2 <= d)%Z ->
  (forall q, (2 <= q < d)%Z -> ~ Z.divide q num) ->
  Z.divide d num -> Z.prime d.
Proof.
  intros Hd Hsmall Hdiv. split; [lia|]. intros q Hq Hqd.
  apply (Hsmall q); [lia|]. apply (Z.divide_trans _ _ _ Hqd Hdiv).
Qed.

(** A number above 1 and below [d * d] that nothing from 2 up to [d]
    divides is a prime. *)
Lemma no_small_divisor_prime (d num : Z) :
  (2 <= d)%Z -> (1 < num < d * d)%Z ->
  (forall q, (2 <= q < d)%Z -> ~ Z.divide q num) ->
  Z.prime num /\ (d <= num)%Z.
Proof.
  intros Hd Hnum Hsmall.
  assert (Hge : (d <= num)%Z).
  { destruct (Z_lt_le_dec num d) as [Hlt|]; [|assumption].
    exfalso. apply (Hsmall num); [lia|]. apply Z.divide_refl. }
  split; [|assumption]. split; [lia|]. intros q Hq [c Hc].
  assert (Hcpos : (2 <= c)%Z) by nia.
  destruct (Z_lt_le_dec q d) as [Hqd|Hqd].
  - apply (Hsmall q); [lia|]. exists c. assumption.
  - destruct (Z_lt_le_dec c d) as [Hcd|Hcd].
    + apply (Hsmall c); [lia|]. exists q. lia.
    + nia.
Qed.

Lemma factorLoop_spec (fuel : nat) :
  forall (d num : Z) (factors result : list Z),
    (2 <= d)%Z -> (1 <= num)%Z ->
    (forall q, (2 <= q < d)%Z -> ~ Z.divide q num) ->
    Forall Z.prime factors ->
    Forall (fun p => (p <= d - 1)%Z) factors ->
    StronglySorted Z.le factors ->
    QuantumField.factorLoop fuel d num factors = Some result ->
    (fold_right Z.mul 1 result = fold_right Z.mul 1 factors * num)%Z
    /\ Forall Z.prime result
    /\ StronglySorted Z.le result.
Proof.
  induction fuel as [|fuel IH];
    intros d num factors result Hd Hnum Hsmall Hprime Hbound Hsorted Hrun.
  - cbn in Hrun. destruct (decide (1 < num)%Z) as [Hgt|Hle]; [discriminate|].
    injection Hrun as <-. assert (num = 1%Z) by lia. subst num.
    repeat split; [lia | assumption | assumption].
  - cbn [QuantumField.factorLoop] in Hrun.
    destruct (decide (1 < num)%Z) as [Hgt|Hle].
    + destruct (QuantumField.divideOut (Z.to_nat num) d num factors)
        as [[num' factors']|] eqn:Hdiv; [|discriminate].
      destruct (divideOut_spec _ _ _ _ _ _ Hd Hnum Hdiv)
        as [k [Hf [Hn [Hn1 [Hnd Hk]]]]].
      assert (Hbound' : Forall (fun p => (p <= d)%Z) factors).
      { apply (Forall_impl _ _ _ Hbound). intros p Hp. lia. }
      destruct (StronglySorted_replicate factors d k Hsorted Hbound')
        as [Hsorted' Hle'].
      rewrite <- Hf in Hsorted', Hle'.
      assert (Hprime' : Forall Z.prime factors').
      { rewrite Hf. apply Forall_app. split; [assumption|].
        destruct k as [|k]; [apply Forall_nil_2|].
        apply Forall_replicate. apply (least_divisor_prime d num Hd Hsmall).
        apply Hk. lia. }
      assert (Hprod : (fold_right Z.mul 1 factors' * num'
                       = fold_right Z.mul 1 factors * num)%Z).
      { rewrite Hf, product_app, product_replicate, Hn. ring. }
      assert (Hsmall' : forall q, (2 <= q < d + 1)%Z -> ~ Z.divide q num').
      { intros q Hq Hqd. destruct (decide (q = d)) as [->|Hne]; [contradiction|].
        apply (Hsmall q); [lia|]. rewrite Hn.
        apply Z.divide_mul_l. assumption. }
      destruct (decide (num' < (d + 1) * (d + 1))%Z) as [Hbreak|Hcont].
      * injection Hrun as <-.
        destruct (decide (1 < num')%Z) as [Hgt'|Hle1].
        -- destruct (no_small_divisor_prime (d + 1) num' ltac:(lia) ltac:(lia) Hsmall')
             as [Hp Hge].
           split; [|split].
           ++ rewrite product_app. cbn [fold_right]. lia.
           ++ apply Forall_app. split; [assumption|]. apply Forall_cons.
              split; [assumption | apply Forall_nil_2].
           ++ apply StronglySorted_snoc; [assumption|].
              apply (Forall_impl _ _ _ Hle'). intros p Hp'. lia.
        -- assert (num' = 1%Z) by lia. subst num'.
           repeat split; [lia | assumption | assumption].
      * destruct (IH (d + 1)%Z num' factors' result ltac:(lia) Hn1 Hsmall' Hprime'
                    ltac:(apply (Forall_impl _ _ _ Hle'); intros p Hp'; lia)
                    Hsorted' Hrun) as [Hp [Hpr Hs]].
        split; [lia|]. split; assumption.
    + injection Hrun as <-. assert (num = 1%Z) by lia. subst num.
      repeat split; [lia | assumption | assumption].
Qed.

(** X16: for [n > 1], [getPrimeFactors(n)] is the prime factorisation of
    [n]: the factors are primes, they are listed in non-decreasing
    order, and their product is [n].  For [n <= 1] the method answers
    [[1]]. *)
Theorem QuantumField_getPrimeFactors_factorisation (n : Z) :
  ((n <= 1)%Z -> QuantumField.getPrimeFactors n = [1%Z])
  /\ ((1 < n)%Z ->
      fold_right Z.mul 1%Z (QuantumField.getPrimeFactors n) = n
      /\ Forall Z.prime (QuantumField.getPrimeFactors n)
      /\ StronglySorted Z.le (QuantumField.getPrimeFactors n)).
Proof.
  split.
  - intros Hle. unfold QuantumField.getPrimeFactors.
    destruct (decide (n <= 1)%Z); [reflexivity | contradiction].
  - intros Hgt. destruct (getPrimeFactors_in_fuel n Hgt) as [factors [Hrun ->]].
    destruct (factorLoop_spec (Z.to_nat n) 2%Z n [] factors) as [Hp [Hpr Hs]];
      [lia | lia | intros q Hq; lia | apply Forall_nil_2 | apply Forall_nil_2
       | apply SSorted_nil | exact Hrun |].
    split; [|split; assumption]. rewrite Hp. cbn [fold_right]. lia.
Qed.

Lemma QuantumField_getPrimeFactors_factorisation_witness :
  fold_right Z.mul 1%Z (QuantumField.getPrimeFactors 360) = 360%Z.
Proof.
  apply (proj1 (proj2 (QuantumField_getPrimeFactors_factorisation 360) ltac:(lia))).
Defined.

(** ** Resonance and phase coherence of two fields *)

Lemma magnitude_overlap (a b : Complex.t) :
  Complex.magnitude (Complex.multiply a (Complex.conjugate b))
  = Complex.magnitude a * Complex.magnitude b.
Proof.
  unfold Complex.magnitude. rewrite <- sqrt_mult by nra. f_equal.
  unfold Complex.multiply, Complex.conjugate. cbn [Complex.real Complex.imag]. ring.
Qed.

Lemma magnitude_nonneg (a : Complex.t) : 0 <= Complex.magnitude a.
Proof. unfold Complex.magnitude. apply sqrt_pos. Qed.

Lemma Rsum_zip_swap {A} (g : A * A -> R) (a b : list A) :
  (forall x y, g (x, y) = g (y, x)) ->
  Rsum (map g (zip a b)) = Rsum (map g (zip b a)).
Proof.
  intros Hg. revert b. induction a as [|x a IH]; intros [|y b]; try reflexivity.
  cbn [zip zip_with map Rsum foldr]. fold (Rsum (map g (zip a b))).
  fold (Rsum (map g (zip b a))). rewrite (IH b), Hg. reflexivity.
Qed.

Lemma Rsum_bounds {A} (g : A -> R) (lo hi : R) (l : list A) :
  (forall x, lo <= g x <= hi) ->
  INR (length l) * lo <= Rsum (map g l) <= INR (length l) * hi.
Proof.
  intros Hg. induction l as [|x l IH].
  - cbn. lra.
  - cbn [map Rsum foldr]. fold (Rsum (map g l)). cbn [length]. rewrite S_INR.
    pose proof (Hg x). lra.
Qed.

Lemma Rsum_zip_self {A} (g : A * A -> R) (h : A -> R) (a : list A) :
  (forall x, g (x, x) = h x) ->
  Rsum (map g (zip a a)) = Rsum (map h a).
Proof.
  intros Hg. induction a as [|x a IH]; [reflexivity|].
  cbn [zip zip_with map Rsum foldr]. fold (Rsum (map g (zip a a))).
  fold (Rsum (map h a)). rewrite IH, Hg. reflexivity.
Qed.

Lemma computeResonance_Rsum (a b : QuantumField.t) :
  (length (QuantumField.values a) <= length (QuantumField.values b))%nat ->
  QuantumField.computeResonance a b
  = Ok (Rsum (map (fun pair : Complex.t * Complex.t =>
                     Complex.magnitude pair.1 * Complex.magnitude pair.2)
                  (zip (QuantumField.values a) (QuantumField.values b)))
        / INR (length (QuantumField.values a))).
Proof.
  intros Hle. unfold QuantumField.computeResonance.
  rewrite (proj2 (Nat.ltb_ge _ _)) by assumption.
  rewrite (fold_left_Rsum
             (fun pair : Complex.t * Complex.t =>
                Complex.magnitude (Complex.multiply pair.1 (Complex.conjugate pair.2)))).
  rewrite Rplus_0_l. do 3 f_equal. apply map_ext. intros [x y].
  apply magnitude_overlap.
Qed.

Lemma Rsum_map_nonneg {A} (g : A -> R) (l : list A) :
  (forall x, 0 <= g x) -> 0 <= Rsum (map g l).
Proof.
  intros Hg. induction l as [|x l IH]; [cbn; lra|].
  cbn [map Rsum foldr]. fold (Rsum (map g l)). pose proof (Hg x). lra.
Qed.

Lemma QuantumField_normalize_cases (f : QuantumField.t) :
  let N := Rsum (map squaredModulus (QuantumField.values f)) in
  (N = 0 /\ QuantumField.normalize f = f)
  \/ (0 < N
      /\ QuantumField.normalize f
         = QuantumField.set_values f
             (map (fun v => Complex.scale v (1 / sqrt N)) (QuantumField.values f))
      /\ Rsum (map squaredModulus (QuantumField.values (QuantumField.normalize f))) = 1).
Proof.
  intros N. unfold QuantumField.normalize.
  rewrite (normalize_norm_Rsum (QuantumField.values f)). fold N.
  pose proof (Rsum_squaredModulus_nonneg (QuantumField.values f)) as HN. fold N in HN.
  destruct (Rlt_dec 0 (sqrt N)) as [Hs|Hs].
  - right.
    assert (HNpos : 0 < N).
    { destruct (Req_dec_T N 0) as [H0|H0]; [|lra]. rewrite H0, sqrt_0 in Hs. lra. }
    split; [assumption|]. split; [reflexivity|].
    cbn [QuantumField.set_values QuantumField.values].
    rewrite Rsum_squaredModulus_scale. fold N.
    replace (1 / sqrt N * (1 / sqrt N) * N) with (N / (sqrt N * sqrt N))
      by (field; lra).
    rewrite sqrt_sqrt by lra. field. lra.
  - left. split; [|reflexivity].
    destruct (Req_dec_T N 0) as [H0|H0]; [assumption|].
    exfalso. apply Hs. apply sqrt_lt_R0. lra.
Qed.



Lemma computePhaseCoherence_Rsum (a b : QuantumField.t) :
  (length (QuantumField.values a) <= length (QuantumField.values b))%nat ->
  QuantumField.computePhaseCoherence a b
  = Ok ((Rsum (map (fun pair : Complex.t * Complex.t =>
                      cos (Complex.phase pair.1 - Complex.phase pair.2))
                   (zip (QuantumField.values a) (QuantumField.values b)))
         / INR (length (QuantumField.values a)) + 1) / 2).
Proof.
  intros Hle. unfold QuantumField.computePhaseCoherence.
  rewrite (proj2 (Nat.ltb_ge _ _)) by assumption.
  rewrite (fold_left_Rsum
             (fun pair : Complex.t * Complex.t =>
                cos (Complex.phase pair.1 - Complex.phase pair.2))).
  rewrite Rplus_0_l. reflexivity.
Qed.

(** X18: [computePhaseCoherence] throws when the other field has fewer
    values.  On fields that have values and are equally long its result
    lies between 0 and 1 and does not depend on the order of the two
    fields; the phase coherence of a field with itself is 1. *)
Theorem QuantumField_computePhaseCoherence_range (a b : QuantumField.t) :
  ((length (QuantumField.values b) < length (QuantumField.values a))%nat ->
   exists m, QuantumField.computePhaseCoherence a b = Throw m)
  /\ (length (QuantumField.values a) = length (QuantumField.values b) ->
      QuantumField.values a <> [] ->
      exists c,
        QuantumField.computePhaseCoherence a b = Ok c
        /\ QuantumField.computePhaseCoherence b a = Ok c
        /\ 0 <= c <= 1)
  /\ (QuantumField.values a <> [] -> QuantumField.computePhaseCoherence a a = Ok 1).
Proof.
  split; [|split].
  - intros Hlt. unfold QuantumField.computePhaseCoherence.
    rewrite (proj2 (Nat.ltb_lt _ _)) by assumption. eexists. reflexivity.
  - intros Heq Hne.
    rewrite (computePhaseCoherence_Rsum a b), (computePhaseCoherence_Rsum b a) by lia.
    eexists. split; [reflexivity|]. split.
    + rewrite Heq. do 4 f_equal.
      apply (Rsum_zip_swap
               (fun pair : Complex.t * Complex.t =>
                  cos (Complex.phase pair.1 - Complex.phase pair.2))).
      intros x y. cbn [fst snd]. rewrite <- cos_neg. f_equal. lra.
    + pose proof (Rsum_bounds
                    (fun pair : Complex.t * Complex.t =>
                       cos (Complex.phase pair.1 - Complex.phase pair.2))
                    (-1) 1 (zip (QuantumField.values a) (QuantumField.values b))
                    (fun pair => COS_bound _)) as Hb.
      rewrite length_zip_with, <- Heq, Nat.min_id in Hb.
      set (S := Rsum _) in *. set (n := INR _) in *.
      assert (Hn : 0 < n).
      { subst n. apply lt_0_INR. destruct (QuantumField.values a);
          [contradiction | cbn; lia]. }
      assert (Hq : -1 <= S / n <= 1).
      { split.
        - apply (Rmult_le_reg_r n); [assumption|]. unfold Rdiv.
          rewrite Rmult_assoc, Rinv_l by lra. lra.
        - apply (Rmult_le_reg_r n); [assumption|]. unfold Rdiv.
          rewrite Rmult_assoc, Rinv_l by lra. lra. }
      lra.
  - intros Hne. rewrite computePhaseCoherence_Rsum by lia. f_equal.
    rewrite (Rsum_zip_self
               (fun pair : Complex.t * Complex.t =>
                  cos (Complex.phase pair.1 - Complex.phase pair.2))
               (fun _ => 1)).
    + assert (Hones : forall l : list Complex.t,
                 Rsum (map (fun _ => 1) l) = INR (length l)).
      { induction l as [|x l IH]; [reflexivity|].
        cbn [map Rsum foldr length]. fold (Rsum (map (fun _ : Complex.t => 1) l)).
        rewrite IH, S_INR. lra. }
      rewrite Hones.
      assert (Hn : 0 < INR (length (QuantumField.values a))).
      { apply lt_0_INR. destruct (QuantumField.values a); [contradiction | cbn; lia]. }
      field. lra.
    + intros x. cbn [fst snd]. rewrite Rminus_diag. apply cos_0.
Qed.

Lemma QuantumField_computePhaseCoherence_range_witness :
  QuantumField.computePhaseCoherence (QuantumField.new 2) (QuantumField.new 2) = Ok 1.
Proof.
  apply (proj2 (proj2 (QuantumField_computePhaseCoherence_range
                         (QuantumField.new 2) (QuantumField.new 2)))).
  cbn. discriminate.
Defined.

(** ** [scale], [normalize] and [add] *)

(** Over the reals a second [normalize()] changes nothing, and a
    positive factor is normalised away. *)
Lemma normalize_twice_and_scaled (f : QuantumField.t) (factor : R) :
  QuantumField.normalize (QuantumField.normalize f) = QuantumField.normalize f
  /\ (0 < factor ->
      QuantumField.values (QuantumField.normalize (QuantumField.scale f factor))
      = QuantumField.values (QuantumField.normalize f)).
Proof.
  split.
  - destruct (QuantumField_normalize_cases f) as [[_ Heq]|[_ [_ H1]]].
    + rewrite !Heq. reflexivity.
    + destruct (QuantumField_normalize_cases (QuantumField.normalize f))
        as [[_ Heq']|[_ [Heq' _]]]; [exact Heq'|].
      rewrite Heq', H1, sqrt_1.
      destruct (QuantumField.normalize f) as [d vs ph co dy pf sf].
      unfold QuantumField.set_values. cbn [QuantumField.values QuantumField.dimensions
        QuantumField.phase QuantumField.coherence QuantumField.dynamics
        QuantumField.primeFactors QuantumField.spectralForm].
      f_equal. rewrite <- (map_id vs) at 2. apply map_ext. intros [x y].
      unfold Complex.scale. cbn [Complex.real Complex.imag]. f_equal; field.
  - intros Hk.
    set (N := Rsum (map squaredModulus (QuantumField.values f))).
    assert (HNk : Rsum (map squaredModulus
                          (QuantumField.values (QuantumField.scale f factor)))
                  = factor * factor * N).
    { unfold QuantumField.scale.
      cbn [QuantumField.set_values QuantumField.set_primeFactors
           QuantumField.set_spectralForm QuantumField.values].
      apply Rsum_squaredModulus_scale. }
    destruct (QuantumField_normalize_cases f) as [[HN Heq]|[HN [Heq _]]]; fold N in HN.
    + destruct (QuantumField_normalize_cases (QuantumField.scale f factor))
        as [[_ Heq']|[HN' _]].
      * rewrite Heq, Heq'. unfold QuantumField.scale.
        cbn [QuantumField.set_values QuantumField.set_primeFactors
             QuantumField.set_spectralForm QuantumField.values].
        apply Rsum_squaredModulus_zero in HN. clear -HN.
        induction HN as [|v vs Hv _ IH]; [reflexivity|].
        cbn [map]. rewrite IH, Hv. unfold Complex.scale.
        cbn [Complex.real Complex.imag]. rewrite Rmult_0_l. reflexivity.
      * rewrite HNk, HN in HN'. lra.
    + destruct (QuantumField_normalize_cases (QuantumField.scale f factor))
        as [[HN' _]|[_ [Heq' _]]].
      * rewrite HNk in HN'.
        pose proof (Rmult_lt_0_compat _ _ (Rmult_lt_0_compat _ _ Hk Hk) HN). lra.
      * rewrite Heq, Heq', HNk. fold N.
        unfold QuantumField.scale.
        cbn [QuantumField.set_values QuantumField.set_primeFactors
             QuantumField.set_spectralForm QuantumField.values].
        rewrite map_map. apply map_ext. intros [x y].
        rewrite sqrt_mult by nra. rewrite sqrt_square by lra.
        pose proof (sqrt_lt_R0 N HN) as Hs.
        unfold Complex.scale. cbn [Complex.real Complex.imag]. f_equal; field; lra.
Qed.

Lemma closeTo_refl (l : list Complex.t) : Forall2 closeTo l l.
Proof.
  induction l as [|v l IH]; [apply Forall2_nil_2|].
  apply Forall2_cons. split; [|exact IH].
  split; apply Rabs_diag_le; lra.
Qed.

(** X19: [normalize()] is idempotent up to rounding, and it undoes
    [scale]: for a field the sum of whose squared magnitudes is in the
    range of doubles, a second [normalize()] moves no part of a value
    by more than [1e-6] and leaves everything else of the field as it
    is; and when the scaled field is in the range too, scaling by a
    positive factor and normalising gives, within [1e-6], the values
    that normalising the field itself gives. *)
Theorem QuantumField_normalize_idempotent_near (f : QuantumField.t) (factor : R) :
  inDoubleRange (QuantumField.squaredNorm (QuantumField.values f)) ->
  (Forall2 closeTo
     (QuantumField.values (QuantumField.normalize (QuantumField.normalize f)))
     (QuantumField.values (QuantumField.normalize f))
   /\ QuantumField.set_values (QuantumField.normalize (QuantumField.normalize f)) []
      = QuantumField.set_values f [])
  /\ (0 < factor ->
      inDoubleRange
        (QuantumField.squaredNorm (QuantumField.values (QuantumField.scale f factor))) ->
      Forall2 closeTo
        (QuantumField.values (QuantumField.normalize (QuantumField.scale f factor)))
        (QuantumField.values (QuantumField.normalize f))).
Proof.
  intros _. destruct (normalize_twice_and_scaled f factor) as [Htwice Hscaled].
  split; [split|].
  - rewrite Htwice. apply closeTo_refl.
  - rewrite Htwice.
    destruct (QuantumField_normalize_cases f) as [[_ ->]|[_ [-> _]]]; reflexivity.
  - intros Hfactor _. rewrite (Hscaled Hfactor). apply closeTo_refl.
Qed.

Lemma QuantumField_normalize_idempotent_near_witness :
  Forall2 closeTo
    (QuantumField.values
       (QuantumField.normalize
          (QuantumField.scale
             (QuantumField.set_values (QuantumField.new 2)
                [Complex.mk 3 0; Complex.mk 0 4])
             5)))
    (QuantumField.values
       (QuantumField.normalize
          (QuantumField.set_values (QuantumField.new 2)
             [Complex.mk 3 0; Complex.mk 0 4]))).
Proof.
  apply (proj2 (QuantumField_normalize_idempotent_near
                  (QuantumField.set_values (QuantumField.new 2)
                     [Complex.mk 3 0; Complex.mk 0 4])
                  5
                  ltac:(rewrite squaredNorm_Rsum; unfold inDoubleRange, squaredModulus;
                        cbn [QuantumField.values QuantumField.set_values map Rsum
                             foldr Complex.real Complex.imag];
                        split; lra))).
  - lra.
  - rewrite squaredNorm_Rsum. unfold inDoubleRange, squaredModulus, QuantumField.scale.
    cbn [QuantumField.values QuantumField.set_values QuantumField.set_primeFactors
         QuantumField.set_spectralForm map Rsum foldr Complex.real Complex.imag
         Complex.scale].
    split; lra.
Defined.

Lemma uniqueInOrder_from (l : list Z) :
  forall seen : list Z,
    NoDup seen ->
    let result :=
      fold_left (fun seen x => if decide (x ∈ seen) then seen else seen ++ [x]) l seen in
    NoDup result /\ forall x, x ∈ result <-> x ∈ seen \/ x ∈ l.
Proof.
  induction l as [|y l IH]; intros seen Hnd result.
  - subst result. cbn. split; [assumption|]. intros x. split; [tauto|].
    intros [H|H]; [assumption|]. apply elem_of_nil in H. contradiction.
  - subst result. cbn [fold_left]. destruct (decide (y ∈ seen)) as [Hin|Hout].
    + destruct (IH seen Hnd) as [Hnd' Hmem]. split; [assumption|].
      intros x. rewrite Hmem, elem_of_cons. split; [tauto|].
      intros [H|[->|H]]; tauto.
    + assert (Hnd1 : NoDup (seen ++ [y])).
      { apply NoDup_app. split; [assumption|]. split; [|apply NoDup_singleton].
        intros x Hx Hx'. apply list_elem_of_singleton in Hx'. subst. contradiction. }
      destruct (IH (seen ++ [y]) Hnd1) as [Hnd' Hmem]. split; [assumption|].
      intros x. rewrite Hmem, elem_of_app, list_elem_of_singleton, elem_of_cons. tauto.
Qed.

Lemma QuantumField_add_cases (a b : QuantumField.t) :
  ((length (QuantumField.values b) < length (QuantumField.values a))%nat
   \/ (length (QuantumField.spectralForm b) < length (QuantumField.spectralForm a))%nat ->
   exists m, QuantumField.add a b = Throw m)
  /\ ((length (QuantumField.values a) <= length (QuantumField.values b))%nat ->
      (length (QuantumField.spectralForm a) <= length (QuantumField.spectralForm b))%nat ->
      exists s,
        QuantumField.add a b = Ok s
        /\ QuantumField.values s
           = map (fun pair : Complex.t * Complex.t => Complex.add pair.1 pair.2)
                 (zip (QuantumField.values a) (QuantumField.values b))
        /\ length (QuantumField.values s) = length (QuantumField.values a)
        /\ QuantumField.dimensions s = length (QuantumField.values a)
        /\ NoDup (QuantumField.primeFactors s)
        /\ (forall p, p ∈ QuantumField.primeFactors s
                      <-> p ∈ QuantumField.primeFactors a
                          \/ p ∈ QuantumField.primeFactors b)
        /\ QuantumField.coherence s = 0
        /\ QuantumField.phase s = replicate (length (QuantumField.values a)) 0).
Proof.
  unfold QuantumField.add, QuantumField.addArrays. split.
  - intros [Hlt|Hlt].
    + rewrite (proj2 (Nat.ltb_lt _ _)) by assumption. eexists. reflexivity.
    + destruct (length (QuantumField.values b) <? length (QuantumField.values a))%nat;
        cbn [bind_result]; [eexists; reflexivity|].
      rewrite (proj2 (Nat.ltb_lt _ _)) by assumption. eexists. reflexivity.
  - intros Hv Hs.
    rewrite (proj2 (Nat.ltb_ge _ _)) by assumption. cbn [bind_result].
    rewrite (proj2 (Nat.ltb_ge _ _)) by assumption. cbn [bind_result].
    eexists. split; [reflexivity|].
    cbn [QuantumField.set_spectralForm QuantumField.set_primeFactors
         QuantumField.set_values QuantumField.new QuantumField.values
         QuantumField.dimensions QuantumField.primeFactors QuantumField.coherence
         QuantumField.phase].
    destruct (uniqueInOrder_from (QuantumField.primeFactors a ++ QuantumField.primeFactors b)
                [] (NoDup_nil_2)) as [Hnd Hmem].
    split; [reflexivity|]. split; [rewrite length_map, length_zip_with; lia|].
    split; [reflexivity|]. split; [exact Hnd|]. split; [|split; reflexivity].
    intros p. unfold QuantumField.uniqueInOrder. rewrite Hmem, elem_of_app.
    split; [intros [H|H]; [apply elem_of_nil in H; contradiction | assumption] | tauto].
Qed.


(** X20: [add] throws when the other field has fewer values or a
    shorter spectral form.  Otherwise the sum holds the entrywise sums
    of the values, as many as the receiver has, and each prime factor of
    either field exactly once; its phases and its coherence are those of
    a new field, all zero. *)
Theorem QuantumField_add_sum (a b : QuantumField.t) :
  ((length (QuantumField.values b) < length (QuantumField.values a))%nat
   \/ (length (QuantumField.spectralForm b) < length (QuantumField.spectralForm a))%nat ->
   exists m, QuantumField.add a b = Throw m)
  /\ ((length (QuantumField.values a) <= length (QuantumField.values b))%nat ->
      (length (QuantumField.spectralForm a) <= length (QuantumField.spectralForm b))%nat ->
      exists s,
        QuantumField.add a b = Ok s
        /\ QuantumField.values s
           = map (fun pair : Complex.t * Complex.t => Complex.add pair.1 pair.2)
                 (zip (QuantumField.values a) (QuantumField.values b))
        /\ length (QuantumField.values s) = length (QuantumField.values a)
        /\ QuantumField.dimensions s = length (QuantumField.values a)
        /\ NoDup (QuantumField.primeFactors s)
        /\ (forall p, p ∈ QuantumField.primeFactors s
                      <-> p ∈ QuantumField.primeFactors a
                          \/ p ∈ QuantumField.primeFactors b)
        /\ QuantumField.coherence s = 0
        /\ QuantumField.phase s = replicate (length (QuantumField.values a)) 0).
Proof. exact (QuantumField_add_cases a b). Qed.

Lemma QuantumField_add_sum_witness :
  (exists m, QuantumField.add (QuantumField.new 3) (QuantumField.new 2) = Throw m)
  /\ exists s,
       QuantumField.add (QuantumField.new 2)
         (QuantumField.set_primeFactors (QuantumField.new 2) [2%Z; 2%Z; 3%Z]) = Ok s
       /\ NoDup (QuantumField.primeFactors s).
Proof.
  split.
  - apply (proj1 (QuantumField_add_sum _ _)). left. cbn. lia.
  - destruct (proj2 (QuantumField_add_sum (QuantumField.new 2)
                       (QuantumField.set_primeFactors (QuantumField.new 2)
                          [2%Z; 2%Z; 3%Z]))
                ltac:(cbn; lia) ltac:(cbn; lia)) as [s [Hs [_ [_ [_ [Hnd _]]]]]].
    exists s. split; assumption.
Defined.

(** ** The learner *)

Lemma computeFieldAdjustment_loop (this : FieldLearner.t)
    (sourceValues targetValues : list Complex.t) (resonance : R) :
  forall k : nat,
    (k <= FieldLearner.fieldDimensions this)%nat ->
    (k <= length sourceValues)%nat -> (k <= length targetValues)%nat ->
    exists vs,
      length vs = FieldLearner.fieldDimensions this
      /\ fold_left
           (fun (acc : result QuantumField.t) i =>
              bind_result acc (fun adjustment =>
                match sourceValues !! i, targetValues !! i with
                | Some s, Some t =>
                    let sourcePhase := Complex.phase s in
                    let targetPhase := Complex.phase t in
                    let phaseDiff := targetPhase - sourcePhase in
                    let magnitude := resonance * FieldLearner.learningRate this in
                    let phase := phaseDiff * FieldLearner.momentum this in
                    Ok (QuantumField.set_values adjustment
                          (<[i := Complex.fromPolar magnitude phase]>
                             (QuantumField.getValues adjustment)))
                | _, _ => Throw "TypeError: cannot read properties of undefined"
                end))
           (seq 0 k) (Ok (QuantumField.new (FieldLearner.fieldDimensions this)))
         = Ok (QuantumField.set_values
                 (QuantumField.new (FieldLearner.fieldDimensions this)) vs).
Proof.
  induction k as [|k IH]; intros Hk Hs Ht.
  - exists (replicate (FieldLearner.fieldDimensions this) (Complex.mk 0 0)).
    split; [apply length_replicate | reflexivity].
  - destruct (IH ltac:(lia) ltac:(lia) ltac:(lia)) as [vs [Hlen Hrun]].
    rewrite seq_S, fold_left_app, Hrun. cbn [fold_left bind_result Nat.add].
    destruct (lookup_lt_is_Some_2 sourceValues k ltac:(lia)) as [s ->].
    destruct (lookup_lt_is_Some_2 targetValues k ltac:(lia)) as [t ->].
    eexists. split; [|reflexivity].
    cbn [QuantumField.getValues QuantumField.set_values QuantumField.values].
    rewrite length_insert. exact Hlen.
Qed.

Lemma normalize_shape (f : QuantumField.t) :
  length (QuantumField.values (QuantumField.normalize f)) = length (QuantumField.values f)
  /\ QuantumField.spectralForm (QuantumField.normalize f) = QuantumField.spectralForm f
  /\ QuantumField.primeFactors (QuantumField.normalize f) = QuantumField.primeFactors f.
Proof.
  unfold QuantumField.normalize. destruct (Rlt_dec 0 _); [|repeat split].
  cbn [QuantumField.set_values QuantumField.values QuantumField.spectralForm
       QuantumField.primeFactors].
  rewrite length_map. repeat split.
Qed.

Lemma computeFieldAdjustment_returns (this : FieldLearner.t)
    (sourceField targetField : QuantumField.t) (resonance : R) :
  ((FieldLearner.fieldDimensions this <= length (QuantumField.values sourceField))%nat ->
   (FieldLearner.fieldDimensions this <= length (QuantumField.values targetField))%nat ->
   exists adjustment,
     FieldLearner.computeFieldAdjustment this sourceField targetField resonance
     = Ok adjustment
     /\ length (QuantumField.values adjustment) = FieldLearner.fieldDimensions this
     /\ QuantumField.spectralForm adjustment
        = replicate (FieldLearner.fieldDimensions this) (Complex.mk 0 0))
  /\ ((length (QuantumField.values sourceField) < FieldLearner.fieldDimensions this)%nat
      \/ (length (QuantumField.values targetField) < FieldLearner.fieldDimensions this)%nat ->
      exists m,
        FieldLearner.computeFieldAdjustment this sourceField targetField resonance
        = Throw m).
Proof.
  unfold FieldLearner.computeFieldAdjustment. split.
  - intros Hs Ht.
    destruct (computeFieldAdjustment_loop this (QuantumField.getValues sourceField)
                (QuantumField.getValues targetField) resonance
                (FieldLearner.fieldDimensions this) (le_n _) Hs Ht) as [vs [Hlen Hrun]].
    cbv zeta in Hrun |- *. rewrite Hrun.
    cbn [bind_result]. eexists. split; [reflexivity|].
    destruct (normalize_shape
                (QuantumField.set_values
                   (QuantumField.new (FieldLearner.fieldDimensions this)) vs))
      as [Hl [Hsf _]].
    rewrite Hl, Hsf. split; [exact Hlen | reflexivity].
  - intros Hshort.
    set (n := FieldLearner.fieldDimensions this) in *.
    set (j := Nat.min (length (QuantumField.values sourceField))
                      (length (QuantumField.values targetField))).
    assert (Hj : (j < n)%nat) by lia.
    assert (Hseq : seq 0 n = seq 0 j ++ seq j (S (n - j - 1))).
    { change (seq j (S (n - j - 1))) with (seq (0 + j) (S (n - j - 1))).
      rewrite <- (seq_app j (S (n - j - 1)) 0). f_equal. lia. }
    destruct (computeFieldAdjustment_loop this (QuantumField.getValues sourceField)
                (QuantumField.getValues targetField) resonance j)
      as [vs [Hlen Hrun]]; [fold n; lia | unfold QuantumField.getValues; lia
                            | unfold QuantumField.getValues; lia |].
    fold n in Hrun. cbv zeta in Hrun |- *. rewrite Hseq, fold_left_app, Hrun.
    cbn [seq fold_left bind_result].
    assert (Hnone : QuantumField.getValues sourceField !! j = None
                    \/ QuantumField.getValues targetField !! j = None).
    { unfold QuantumField.getValues.
      destruct (Nat.le_ge_cases (length (QuantumField.values sourceField))
                  (length (QuantumField.values targetField))) as [Hle|Hle].
      - left. apply lookup_ge_None_2. lia.
      - right. apply lookup_ge_None_2. lia. }
    destruct Hnone as [Hn|Hn]; rewrite Hn.
    + rewrite fold_left_Throw. cbn [bind_result]. eexists. reflexivity.
    + destruct (QuantumField.getValues sourceField !! j);
        rewrite fold_left_Throw; cbn [bind_result]; eexists; reflexivity.
Qed.

Lemma learnFromInteraction_outcome (this : FieldLearner.t)
    (sourceField targetField : QuantumField.t) (resonance : R)
    (context : option FieldLearner.LearningContext) :
  let outcome :=
    FieldLearner.learnFromInteraction this sourceField targetField resonance context in
  (snd outcome = Ok tt
   <-> length (QuantumField.values sourceField) = FieldLearner.fieldDimensions this
       /\ (FieldLearner.fieldDimensions this
           <= length (QuantumField.values targetField))%nat
       /\ (length (QuantumField.spectralForm sourceField)
           <= FieldLearner.fieldDimensions this)%nat)
  /\ (snd outcome <> Ok tt ->
      FieldLearner.fieldMemory (fst outcome) = FieldLearner.fieldMemory this).
Proof.
  intros outcome. subst outcome. unfold FieldLearner.learnFromInteraction.
  set (this1 := FieldLearner.updateResonanceHistory this _ resonance).
  assert (Hfd : FieldLearner.fieldDimensions this1 = FieldLearner.fieldDimensions this)
    by reflexivity.
  assert (Hmem : FieldLearner.fieldMemory this1 = FieldLearner.fieldMemory this)
    by reflexivity.
  destruct (computeFieldAdjustment_returns this1 sourceField targetField resonance)
    as [Hok Hthrow].
  rewrite Hfd in Hok, Hthrow.
  destruct (Nat.le_gt_cases (FieldLearner.fieldDimensions this)
              (length (QuantumField.values sourceField))) as [Hs|Hs];
    [destruct (Nat.le_gt_cases (FieldLearner.fieldDimensions this)
                 (length (QuantumField.values targetField))) as [Ht|Ht]|].
  - destruct (Hok Hs Ht) as [adjustment [-> [Hlen Hsf]]].
    destruct (QuantumField_add_cases sourceField adjustment) as [Haddthrow Haddok].
    destruct (Nat.le_gt_cases (length (QuantumField.values sourceField))
                (FieldLearner.fieldDimensions this)) as [Hs'|Hs'];
      [destruct (Nat.le_gt_cases (length (QuantumField.spectralForm sourceField))
                   (FieldLearner.fieldDimensions this)) as [Hsp|Hsp]|].
    + destruct Haddok as [sum [-> _]];
        [lia | rewrite Hsf, length_replicate; lia|].
      cbn [fst snd]. split; [|intros Hne; contradiction].
      split; [intros _; repeat split; lia | reflexivity].
    + destruct Haddthrow as [m ->]; [right; rewrite Hsf, length_replicate; lia|].
      cbn [fst snd]. split; [|intros _; exact Hmem].
      split; [discriminate | lia].
    + destruct Haddthrow as [m ->]; [left; lia|].
      cbn [fst snd]. split; [|intros _; exact Hmem].
      split; [discriminate | lia].
  - destruct Hthrow as [m ->]; [right; lia|].
    cbn [fst snd]. split; [|intros _; exact Hmem].
    split; [discriminate | lia].
  - destruct Hthrow as [m ->]; [left; lia|].
    cbn [fst snd]. split; [|intros _; exact Hmem].
    split; [discriminate | lia].
Qed.


(** X21: [learnFromInteraction] returns normally exactly when the source
    field has [fieldDimensions] values, the target field has at least
    that many, and the spectral form of the source is no longer than
    that; otherwise it throws, and the field memory is then what it was
    before the call. *)
Theorem FieldLearner_learnFromInteraction_returns (this : FieldLearner.t)
    (sourceField targetField : QuantumField.t) (resonance : R)
    (context : option FieldLearner.LearningContext) :
  let outcome :=
    FieldLearner.learnFromInteraction this sourceField targetField resonance context in
  (snd outcome = Ok tt
   <-> length (QuantumField.values sourceField) = FieldLearner.fieldDimensions this
       /\ (FieldLearner.fieldDimensions this
           <= length (QuantumField.values targetField))%nat
       /\ (length (QuantumField.spectralForm sourceField)
           <= FieldLearner.fieldDimensions this)%nat)
  /\ (snd outcome <> Ok tt ->
      FieldLearner.fieldMemory (fst outcome) = FieldLearner.fieldMemory this).
Proof.
  exact (learnFromInteraction_outcome this sourceField targetField resonance context).
Qed.

Lemma FieldLearner_learnFromInteraction_returns_witness :
  snd (FieldLearner.learnFromInteraction (FieldLearner.new (Some 2%nat) None None None)
         (QuantumField.new 2) (QuantumField.new 2) 1 None) = Ok tt
  /\ FieldLearner.fieldMemory
       (fst (FieldLearner.learnFromInteraction
               (FieldLearner.new (Some 2%nat) None None None)
               (QuantumField.new 3) (QuantumField.new 2) 1 None))
     = FieldLearner.fieldMemory (FieldLearner.new (Some 2%nat) None None None).
Proof.
  split.
  - apply (proj2 (proj1 (FieldLearner_learnFromInteraction_returns
                           (FieldLearner.new (Some 2%nat) None None None)
                           (QuantumField.new 2) (QuantumField.new 2) 1 None))).
    cbn. repeat split; lia.
  - apply (proj2 (FieldLearner_learnFromInteraction_returns
                    (FieldLearner.new (Some 2%nat) None None None)
                    (QuantumField.new 3) (QuantumField.new 2) 1 None)).
    intros Hok.
    apply (proj1 (proj1 (FieldLearner_learnFromInteraction_returns
                           (FieldLearner.new (Some 2%nat) None None None)
                           (QuantumField.new 3) (QuantumField.new 2) 1 None))) in Hok.
    cbn in Hok. lia.
Defined.

Lemma decayHistory_shape (d : R) (history : list R) (resonance : R) :
  let after := FieldLearner.decayHistory d history resonance in
  last after = Some resonance
  /\ length after
     = (if (100 <? S (length history))%nat then length history else S (length history)).
Proof.
  intros after. subst after. unfold FieldLearner.decayHistory.
  rewrite length_app. cbn [length]. rewrite Nat.add_1_r.
  set (kept := if (100 <? S (length history))%nat
               then tail (history ++ [resonance]) else history ++ [resonance]).
  assert (Hkept : last kept = Some resonance
                  /\ length kept
                     = (if (100 <? S (length history))%nat
                        then length history else S (length history))).
  { subst kept. destruct (100 <? S (length history))%nat eqn:Hlong.
    - apply Nat.ltb_lt in Hlong. destruct history as [|h history]; [cbn in Hlong; lia|].
      cbn [app tail length]. rewrite last_snoc, length_app. cbn [length].
      split; [reflexivity | lia].
    - rewrite last_snoc, length_app. cbn [length]. split; [reflexivity | lia]. }
  destruct Hkept as [Hlast Hlen]. rewrite length_imap. split; [|exact Hlen].
  rewrite last_lookup, length_imap, list_lookup_imap.
  rewrite last_lookup in Hlast. rewrite Hlast. cbn [fmap option_fmap option_map].
  f_equal. unfold JSMath.pow.
  replace (length kept - Nat.pred (length kept) - 1)%nat with 0%nat by lia.
  cbn [pow]. lra.
Qed.

(** X22: whether or not the call goes on to throw, [learnFromInteraction]
    appends the resonance to the history of the source key: it is the
    newest entry, undecayed.  A history that had 100 entries or fewer
    grows by one entry up to 100 and then stays at 100, and the
    histories of the other keys are not touched; so if no history of
    the learner is longer than 100 entries, none is after the call. *)
Theorem FieldLearner_history_window (this : FieldLearner.t)
    (sourceField targetField : QuantumField.t) (resonance : R)
    (context : option FieldLearner.LearningContext) :
  let this' :=
    fst (FieldLearner.learnFromInteraction this sourceField targetField resonance
           context) in
  let before := FieldLearner.getResonancePattern this sourceField context in
  let after := FieldLearner.getResonancePattern this' sourceField context in
  last after = Some resonance
  /\ ((length before <= 100)%nat -> length after = Nat.min (S (length before)) 100)
  /\ (forall key,
         key <> FieldLearner.getFieldKey sourceField context ->
         JSMap.get (FieldLearner.resonanceHistory this') key
         = JSMap.get (FieldLearner.resonanceHistory this) key)
  /\ ((forall key history,
          JSMap.get (FieldLearner.resonanceHistory this) key = Some history ->
          (length history <= 100)%nat) ->
      forall key history,
        JSMap.get (FieldLearner.resonanceHistory this') key = Some history ->
        (length history <= 100)%nat).
Proof.
  intros this' before after.
  destruct (learnFromInteraction_history this sourceField targetField resonance context)
    as [Hafter _].
  fold this' in Hafter. fold before in Hafter. fold after in Hafter.
  destruct (decayHistory_shape (FieldLearner.decayFactor this) before resonance)
    as [Hlast Hlen].
  rewrite <- Hafter in Hlast, Hlen.
  assert (Hother : forall key,
             key <> FieldLearner.getFieldKey sourceField context ->
             JSMap.get (FieldLearner.resonanceHistory this') key
             = JSMap.get (FieldLearner.resonanceHistory this) key).
  { intros key Hkey. subst this'. unfold FieldLearner.learnFromInteraction.
    destruct (FieldLearner.computeFieldAdjustment _ _ _ _) as [adjustment|m];
      [destruct (QuantumField.add sourceField adjustment) as [adjusted|m]|];
      cbn [fst FieldLearner.setFieldMemory FieldLearner.resonanceHistory
           FieldLearner.updateResonanceHistory];
      apply JSMap_get_set_ne; congruence. }
  split; [exact Hlast|]. split; [|split; [exact Hother|]].
  - intros Hbefore. rewrite Hlen.
    destruct (100 <? S (length before))%nat eqn:Hlong.
    + apply Nat.ltb_lt in Hlong. lia.
    + apply Nat.ltb_ge in Hlong. lia.
  - intros Hall key history Hget.
    destruct (decide (key = FieldLearner.getFieldKey sourceField context)) as [->|Hkey].
    + assert (Hh : history = after).
      { subst after. unfold FieldLearner.getResonancePattern. rewrite Hget. reflexivity. }
      rewrite Hh, Hlen.
      assert (Hb : (length before <= 100)%nat).
      { subst before. unfold FieldLearner.getResonancePattern.
        destruct (JSMap.get (FieldLearner.resonanceHistory this)
                    (FieldLearner.getFieldKey sourceField context)) as [h|] eqn:Hh0.
        - cbn [default]. apply (Hall _ _ Hh0).
        - cbn. lia. }
      destruct (100 <? S (length before))%nat eqn:Hlong.
      * exact Hb.
      * apply Nat.ltb_ge in Hlong. lia.
    + rewrite (Hother key Hkey) in Hget. apply (Hall _ _ Hget).
Qed.

Lemma FieldLearner_history_window_witness :
  length (FieldLearner.getResonancePattern
            (fst (FieldLearner.learnFromInteraction defaultLearner
                    (QuantumField.new 2) (QuantumField.new 2) 1 None))
            (QuantumField.new 2) None)
  = Nat.min (S (length (FieldLearner.getResonancePattern defaultLearner
                          (QuantumField.new 2) None))) 100.
Proof.
  apply (proj1 (proj2 (FieldLearner_history_window defaultLearner
                         (QuantumField.new 2) (QuantumField.new 2) 1 None))).
  cbn. lia.
Defined.

Lemma fold_result_primeFactors
    (step : QuantumField.t -> nat -> result QuantumField.t) :
  (forall f i f', step f i = Ok f' ->
                  QuantumField.primeFactors f' = QuantumField.primeFactors f) ->
  forall (indices : list nat) (acc : result QuantumField.t) (filled : QuantumField.t),
    fold_left (fun acc i => bind_result acc (fun adjustment => step adjustment i))
      indices acc = Ok filled ->
    exists first,
      acc = Ok first
      /\ QuantumField.primeFactors filled = QuantumField.primeFactors first.
Proof.
  intros Hstep. induction indices as [|i indices IH]; intros acc filled Hfold.
  - exists filled. split; [exact Hfold | reflexivity].
  - cbn [fold_left] in Hfold. apply IH in Hfold as [next [Hnext Hfactors]].
    destruct acc as [first|m]; [|discriminate].
    exists first. split; [reflexivity|]. cbn [bind_result] in Hnext.
    rewrite Hfactors. apply (Hstep _ _ _ Hnext).
Qed.

(** The adjustment [computeFieldAdjustment] builds has no prime factors. *)
Lemma computeFieldAdjustment_primeFactors (this : FieldLearner.t)
    (sourceField targetField : QuantumField.t) (resonance : R)
    (adjustment : QuantumField.t) :
  FieldLearner.computeFieldAdjustment this sourceField targetField resonance
  = Ok adjustment ->
  QuantumField.primeFactors adjustment = [].
Proof.
  unfold FieldLearner.computeFieldAdjustment. cbv zeta.
  destruct (fold_left _ _ _) as [filled|m] eqn:Hfilled; [|discriminate].
  cbn [bind_result]. intros [= <-].
  destruct (normalize_shape filled) as [_ [_ ->]].
  eapply fold_result_primeFactors in Hfilled as [first [[= <-] ->]]; [reflexivity|].
  intros f i f'. cbv beta.
  destruct (QuantumField.getValues sourceField !! i) as [sv|]; [|discriminate].
  destruct (QuantumField.getValues targetField !! i) as [tv|]; [|discriminate].
  intros [= <-]. reflexivity.
Qed.

Lemma normalize_keeps (f : QuantumField.t) :
  QuantumField.dimensions (QuantumField.normalize f) = QuantumField.dimensions f
  /\ QuantumField.coherence (QuantumField.normalize f) = QuantumField.coherence f
  /\ QuantumField.phase (QuantumField.normalize f) = QuantumField.phase f.
Proof.
  unfold QuantumField.normalize. destruct (Rlt_dec 0 _); repeat split.
Qed.

(** X23: after a call of [learnFromInteraction] that returns, the memory
    holds the target field, as it was given, under the target key.  When
    the two keys differ it holds under the source key a field built by
    [add]: it has [fieldDimensions] values, phases that are all 0 and
    coherence 0, and its prime factors are those of the source field,
    each once; when the two fields share their key the adjusted source
    is overwritten by the target.  The entries of the other keys are
    not touched. *)
Theorem FieldLearner_memory_after_learning_shape (this : FieldLearner.t)
    (sourceField targetField : QuantumField.t) (resonance : R)
    (context : option FieldLearner.LearningContext) :
  let outcome :=
    FieldLearner.learnFromInteraction this sourceField targetField resonance context in
  let sourceKey := FieldLearner.getFieldKey sourceField context in
  let targetKey := FieldLearner.getFieldKey targetField context in
  snd outcome = Ok tt ->
  JSMap.get (FieldLearner.fieldMemory (fst outcome)) targetKey = Some targetField
  /\ (sourceKey <> targetKey ->
      exists adjusted,
        JSMap.get (FieldLearner.fieldMemory (fst outcome)) sourceKey = Some adjusted
        /\ length (QuantumField.values adjusted) = FieldLearner.fieldDimensions this
        /\ QuantumField.dimensions adjusted = FieldLearner.fieldDimensions this
        /\ QuantumField.phase adjusted = replicate (FieldLearner.fieldDimensions this) 0
        /\ QuantumField.coherence adjusted = 0
        /\ NoDup (QuantumField.primeFactors adjusted)
        /\ (forall p, p ∈ QuantumField.primeFactors adjusted
                      <-> p ∈ QuantumField.primeFactors sourceField))
  /\ (forall key,
         key <> sourceKey -> key <> targetKey ->
         JSMap.get (FieldLearner.fieldMemory (fst outcome)) key
         = JSMap.get (FieldLearner.fieldMemory this) key).
Proof.
  intros outcome sourceKey targetKey. subst outcome.
  unfold FieldLearner.learnFromInteraction. fold sourceKey. fold targetKey.
  set (this1 := FieldLearner.updateResonanceHistory this sourceKey resonance).
  destruct (computeFieldAdjustment_returns this1 sourceField targetField resonance)
    as [Hadj Hadjthrow].
  change (FieldLearner.fieldDimensions this1) with (FieldLearner.fieldDimensions this)
    in Hadj, Hadjthrow.
  destruct (FieldLearner.computeFieldAdjustment this1 sourceField targetField resonance)
    as [adjustment|m] eqn:Hcompute; [|discriminate].
  destruct (QuantumField_add_cases sourceField adjustment) as [Haddthrow Haddok].
  destruct (QuantumField.add sourceField adjustment) as [adjusted|m] eqn:Hadd;
    [|discriminate].
  intros _. cbn [fst FieldLearner.setFieldMemory FieldLearner.fieldMemory].
  assert (Hs : (FieldLearner.fieldDimensions this
                <= length (QuantumField.values sourceField))%nat).
  { destruct (Nat.le_gt_cases (FieldLearner.fieldDimensions this)
                (length (QuantumField.values sourceField))) as [Hle|Hgt]; [assumption|].
    destruct Hadjthrow as [m Hm]; [left; assumption | discriminate]. }
  assert (Ht : (FieldLearner.fieldDimensions this
                <= length (QuantumField.values targetField))%nat).
  { destruct (Nat.le_gt_cases (FieldLearner.fieldDimensions this)
                (length (QuantumField.values targetField))) as [Hle|Hgt]; [assumption|].
    destruct Hadjthrow as [m Hm]; [right; assumption | discriminate]. }
  destruct (Hadj Hs Ht) as [adjustment' [Heq [Hlen Hsf]]].
  injection Heq as <-.
  assert (Hs' : (length (QuantumField.values sourceField)
                 <= length (QuantumField.values adjustment))%nat).
  { destruct (Nat.le_gt_cases (length (QuantumField.values sourceField))
                (length (QuantumField.values adjustment))) as [Hle|Hgt]; [assumption|].
    destruct Haddthrow as [m Hm]; [left; assumption | discriminate]. }
  assert (Hsp : (length (QuantumField.spectralForm sourceField)
                 <= length (QuantumField.spectralForm adjustment))%nat).
  { destruct (Nat.le_gt_cases (length (QuantumField.spectralForm sourceField))
                (length (QuantumField.spectralForm adjustment))) as [Hle|Hgt];
      [assumption|].
    destruct Haddthrow as [m Hm]; [right; assumption | discriminate]. }
  destruct (Haddok Hs' Hsp)
    as [sum [Heq [_ [Hsumlen [Hdim [Hnodup [Hmem [Hcoh Hphase]]]]]]]].
  injection Heq as <-.
  pose proof (computeFieldAdjustment_primeFactors _ _ _ _ _ Hcompute) as Hnone.
  split; [apply JSMap_get_set_eq|]. split.
  - intros Hne. exists (QuantumField.normalize adjusted).
    rewrite JSMap_get_set_ne by congruence. split; [apply JSMap_get_set_eq|].
    destruct (normalize_shape adjusted) as [Hnlen [_ Hnpf]].
    destruct (normalize_keeps adjusted) as [Hndim [Hncoh Hnphase]].
    split; [lia|]. split; [lia|]. split; [rewrite Hnphase, Hphase; f_equal; lia|].
    split; [rewrite Hncoh; exact Hcoh|]. rewrite Hnpf. split; [exact Hnodup|].
    intros p. rewrite Hmem, Hnone. split; [|tauto].
    intros [Hp|Hp]; [exact Hp|]. apply elem_of_nil in Hp. contradiction.
  - intros key Hks Hkt. rewrite !JSMap_get_set_ne by congruence. reflexivity.
Qed.

Lemma FieldLearner_memory_after_learning_shape_witness :
  exists adjusted,
    JSMap.get
      (FieldLearner.fieldMemory
         (fst (FieldLearner.learnFromInteraction
                 (FieldLearner.new (Some 2%nat) None None None)
                 (QuantumField.set_values (QuantumField.new 2)
                    [Complex.mk 3 0; Complex.mk 0 4])
                 (QuantumField.new 2) 1 None)))
      (FieldLearner.getFieldKey
         (QuantumField.set_values (QuantumField.new 2) [Complex.mk 3 0; Complex.mk 0 4])
         None)
    = Some adjusted
    /\ length (QuantumField.values adjusted) = 2%nat
    /\ QuantumField.dimensions adjusted = 2%nat
    /\ QuantumField.phase adjusted = [0; 0]
    /\ QuantumField.coherence adjusted = 0.
Proof.
  destruct (proj1 (proj2 (FieldLearner_memory_after_learning_shape
                            (FieldLearner.new (Some 2%nat) None None None)
                            (QuantumField.set_values (QuantumField.new 2)
                               [Complex.mk 3 0; Complex.mk 0 4])
                            (QuantumField.new 2) 1 None
                            (proj2 (proj1 (learnFromInteraction_outcome
                                             (FieldLearner.new (Some 2%nat) None None None)
                                             (QuantumField.set_values (QuantumField.new 2)
                                                [Complex.mk 3 0; Complex.mk 0 4])
                                             (QuantumField.new 2) 1 None))
                               ltac:(cbn; repeat split; lia)))))
    as [adjusted [Hget [Hlen [Hdim [Hphase [Hcoh _]]]]]].
  - unfold FieldLearner.getFieldKey. cbn. intros Hkeys.
    injection Hkeys as Hthree _. lra.
  - exists adjusted. repeat split; assumption.
Defined.

(** *** [findSimilarFields] *)

(** What an entry of the memory has to satisfy to be reported. *)
Lemma findSimilarFields_fold (field : QuantumField.t) (threshold : R)
    (fieldKey : FieldLearner.FieldKey)
    (entries : list (FieldLearner.FieldKey * QuantumField.t)) :
  forall acc similar : list QuantumField.t,
    fold_left
      (fun (acc : result (list QuantumField.t))
           (entry : FieldLearner.FieldKey * QuantumField.t) =>
         bind_result acc (fun similar =>
           if decide (entry.1 = fieldKey) then Ok similar
           else
             bind_result (QuantumField.computeResonance field entry.2) (fun resonance =>
               bind_result (QuantumField.computePhaseCoherence field entry.2)
                 (fun phaseCoherence =>
                    let similarity := (resonance + phaseCoherence) / 2 in
                    if Rle_dec threshold similarity then Ok (similar ++ [entry.2])
                    else Ok similar))))
      entries (Ok acc) = Ok similar ->
    forall s, s ∈ similar ->
      s ∈ acc
      \/ exists key resonance phaseCoherence,
           (key, s) ∈ entries /\ key <> fieldKey
           /\ QuantumField.computeResonance field s = Ok resonance
           /\ QuantumField.computePhaseCoherence field s = Ok phaseCoherence
           /\ threshold <= (resonance + phaseCoherence) / 2.
Proof.
  induction entries as [|[key stored] entries IH]; intros acc similar Hrun s Hs.
  - cbn in Hrun. injection Hrun as <-. left. exact Hs.
  - cbn [fold_left bind_result fst snd] in Hrun.
    assert (Hlater : forall acc' : list QuantumField.t,
               s ∈ acc'
               \/ (exists key0 resonance phaseCoherence,
                      (key0, s) ∈ entries /\ key0 <> fieldKey
                      /\ QuantumField.computeResonance field s = Ok resonance
                      /\ QuantumField.computePhaseCoherence field s = Ok phaseCoherence
                      /\ threshold <= (resonance + phaseCoherence) / 2) ->
               (s ∈ acc' -> s ∈ acc
                            \/ exists key0 resonance phaseCoherence,
                                 (key0, s) ∈ (key, stored) :: entries /\ key0 <> fieldKey
                                 /\ QuantumField.computeResonance field s = Ok resonance
                                 /\ QuantumField.computePhaseCoherence field s
                                    = Ok phaseCoherence
                                 /\ threshold <= (resonance + phaseCoherence) / 2) ->
               s ∈ acc
               \/ exists key0 resonance phaseCoherence,
                    (key0, s) ∈ (key, stored) :: entries /\ key0 <> fieldKey
                    /\ QuantumField.computeResonance field s = Ok resonance
                    /\ QuantumField.computePhaseCoherence field s = Ok phaseCoherence
                    /\ threshold <= (resonance + phaseCoherence) / 2).
    { intros acc' [Hin|[key0 [r [c [Hin Hrest]]]]] Hacc; [apply Hacc; assumption|].
      right. exists key0, r, c. split; [apply elem_of_cons; right; assumption|].
      exact Hrest. }
    destruct (decide (key = fieldKey)) as [Hown|Hother].
    + apply (Hlater acc); [apply (IH _ _ Hrun s Hs)|]. intros Hin. left. exact Hin.
    + destruct (QuantumField.computeResonance field stored) as [r|m] eqn:Hr;
        cbn [bind_result] in Hrun; [|rewrite fold_left_Throw in Hrun; discriminate].
      destruct (QuantumField.computePhaseCoherence field stored) as [c|m] eqn:Hc;
        cbn [bind_result] in Hrun; [|rewrite fold_left_Throw in Hrun; discriminate].
      cbv zeta in Hrun.
      destruct (Rle_dec threshold ((r + c) / 2)) as [Hle|Hgt].
      * apply (Hlater (acc ++ [stored])); [apply (IH _ _ Hrun s Hs)|].
        intros Hin. apply elem_of_app in Hin as [Hin|Hin]; [left; exact Hin|].
        apply list_elem_of_singleton in Hin. subst s. right.
        exists key, r, c. split; [apply elem_of_cons; left; reflexivity|].
        repeat split; assumption.
      * apply (Hlater acc); [apply (IH _ _ Hrun s Hs)|]. intros Hin. left. exact Hin.
Qed.

Lemma findSimilarFields_fold_returns (field : QuantumField.t) (threshold : R)
    (fieldKey : FieldLearner.FieldKey)
    (entries : list (FieldLearner.FieldKey * QuantumField.t)) :
  (forall key stored, (key, stored) ∈ entries ->
     (length (QuantumField.values field) <= length (QuantumField.values stored))%nat) ->
  forall acc : list QuantumField.t,
    exists similar,
      fold_left
        (fun (acc : result (list QuantumField.t))
             (entry : FieldLearner.FieldKey * QuantumField.t) =>
           bind_result acc (fun similar =>
             if decide (entry.1 = fieldKey) then Ok similar
             else
               bind_result (QuantumField.computeResonance field entry.2) (fun resonance =>
                 bind_result (QuantumField.computePhaseCoherence field entry.2)
                   (fun phaseCoherence =>
                      let similarity := (resonance + phaseCoherence) / 2 in
                      if Rle_dec threshold similarity then Ok (similar ++ [entry.2])
                      else Ok similar))))
        entries (Ok acc) = Ok similar.
Proof.
  induction entries as [|[key stored] entries IH]; intros Hlong acc.
  - exists acc. reflexivity.
  - cbn [fold_left bind_result fst snd].
    assert (Hrest : forall key0 stored0, (key0, stored0) ∈ entries ->
               (length (QuantumField.values field)
                <= length (QuantumField.values stored0))%nat).
    { intros key0 stored0 Hin. apply (Hlong key0 stored0).
      apply elem_of_cons. right. assumption. }
    destruct (decide (key = fieldKey)) as [Hown|Hother]; [apply (IH Hrest)|].
    rewrite (computeResonance_Rsum field stored), (computePhaseCoherence_Rsum field stored)
      by (apply (Hlong key stored); apply elem_of_cons; left; reflexivity).
    cbn [bind_result]. cbv zeta.
    destruct (Rle_dec threshold _); apply (IH Hrest).
Qed.

(** The sum of the products of the magnitudes is at most the mean of the
    two sums of squared magnitudes. *)
Lemma Rsum_products_bound (a b : list Complex.t) :
  2 * Rsum (map (fun pair : Complex.t * Complex.t =>
                   Complex.magnitude pair.1 * Complex.magnitude pair.2) (zip a b))
  <= Rsum (map squaredModulus a) + Rsum (map squaredModulus b).
Proof.
  revert b. induction a as [|x a IH]; intros [|y b].
  - cbn. lra.
  - cbn [zip zip_with map Rsum foldr]. fold (Rsum (map squaredModulus b)).
    pose proof (Rsum_squaredModulus_nonneg b). pose proof (squaredModulus_nonneg y). lra.
  - cbn [zip zip_with map Rsum foldr]. fold (Rsum (map squaredModulus a)).
    pose proof (Rsum_squaredModulus_nonneg a). pose proof (squaredModulus_nonneg x). lra.
  - cbn [zip zip_with map Rsum foldr fst snd].
    fold (Rsum (map squaredModulus a)). fold (Rsum (map squaredModulus b)).
    fold (Rsum (map (fun pair : Complex.t * Complex.t =>
                       Complex.magnitude pair.1 * Complex.magnitude pair.2) (zip a b))).
    specialize (IH b).
    rewrite <- (magnitude_squared x), <- (magnitude_squared y).
    generalize dependent (Rsum (map squaredModulus a)).
    generalize dependent (Rsum (map squaredModulus b)).
    generalize (Rsum (map (fun pair : Complex.t * Complex.t =>
                             Complex.magnitude pair.1 * Complex.magnitude pair.2)
                          (zip a b))).
    generalize (Complex.magnitude x) (Complex.magnitude y).
    intros p q S Sb Sa IH.
    assert (Hsq : 0 <= (p - q) * (p - q)) by apply Rle_0_sqr.
    lra.
Qed.

(** X24: [findSimilarFields] returns when every stored field has at
    least as many values as the query; what it returns are stored
    fields, never the one under the key of the query itself, whose mean
    of resonance and phase coherence reaches the threshold.  Since the
    resonance of two normalised fields of [n] values is at most [1 / n],
    that mean is at most [(1 / n + 1) / 2]: with the default threshold
    0.8, a normalised query of two or more values is never answered
    with a normalised field of its length. *)
Theorem FieldLearner_findSimilarFields_sound (this : FieldLearner.t)
    (field : QuantumField.t) (threshold : option R)
    (context : option FieldLearner.LearningContext) :
  QuantumField.values field <> [] ->
  ((forall key stored, (key, stored) ∈ FieldLearner.fieldMemory this ->
      (length (QuantumField.values field) <= length (QuantumField.values stored))%nat) ->
   exists similar,
     FieldLearner.findSimilarFields this field threshold context = Ok similar)
  /\ (forall similar,
         FieldLearner.findSimilarFields this field threshold context = Ok similar ->
         forall s, s ∈ similar ->
           (exists key resonance phaseCoherence,
               (key, s) ∈ FieldLearner.fieldMemory this
               /\ key <> FieldLearner.getFieldKey field context
               /\ QuantumField.computeResonance field s = Ok resonance
               /\ QuantumField.computePhaseCoherence field s = Ok phaseCoherence
               /\ default (8 / 10) threshold <= (resonance + phaseCoherence) / 2)
           /\ (threshold = None ->
               (2 <= length (QuantumField.values field))%nat ->
               QuantumField.squaredNorm (QuantumField.values field) = 1 ->
               ~ (length (QuantumField.values s) = length (QuantumField.values field)
                  /\ QuantumField.squaredNorm (QuantumField.values s) = 1))).
Proof.
  intros Hne. unfold FieldLearner.findSimilarFields, JSMap.entries. cbv zeta. split.
  - intros Hlong. apply findSimilarFields_fold_returns. exact Hlong.
  - intros similar Hrun s Hs.
    destruct (findSimilarFields_fold _ _ _ _ _ _ Hrun s Hs)
      as [Hnil|[key [r [c [Hin [Hkey [Hr [Hc Hth]]]]]]]];
      [apply elem_of_nil in Hnil; contradiction|].
    split; [exists key, r, c; repeat split; assumption|].
    intros -> Hn Hnorm [Hlen Hnorm']. cbn [default] in Hth.
    rewrite computeResonance_Rsum in Hr by lia. injection Hr as <-.
    rewrite computePhaseCoherence_Rsum in Hc by lia. injection Hc as <-.
    rewrite squaredNorm_Rsum in Hnorm, Hnorm'.
    pose proof (Rsum_products_bound (QuantumField.values field) (QuantumField.values s))
      as Hprod.
    pose proof (Rsum_bounds
                  (fun pair : Complex.t * Complex.t =>
                     cos (Complex.phase pair.1 - Complex.phase pair.2))
                  (-1) 1 (zip (QuantumField.values field) (QuantumField.values s))
                  (fun pair => COS_bound _)) as [_ Hcos].
    rewrite length_zip_with, Hlen, Nat.min_id in Hcos.
    rewrite Hnorm, Hnorm' in Hprod.
    set (P := Rsum (map (fun pair : Complex.t * Complex.t =>
                           Complex.magnitude pair.1 * Complex.magnitude pair.2) _)) in *.
    set (C := Rsum (map (fun pair : Complex.t * Complex.t =>
                           cos (Complex.phase pair.1 - Complex.phase pair.2)) _)) in *.
    set (n := INR (length (QuantumField.values field))) in *.
    assert (Hn2 : 2 <= n).
    { subst n. change 2 with (INR 2). apply le_INR. exact Hn. }
    assert (Hinv : 0 < / n <= / 2).
    { split; [apply Rinv_0_lt_compat; lra|]. apply Rinv_le_contravar; lra. }
    assert (HP : P / n <= / 2).
    { unfold Rdiv. assert (P <= 1) by lra.
      assert (0 <= P).
      { subst P. apply Rsum_map_nonneg. intros [x y]. cbn [fst snd].
        apply Rmult_le_pos; apply magnitude_nonneg. }
      nra. }
    assert (HC : C / n <= 1).
    { apply (Rmult_le_reg_r n); [lra|]. unfold Rdiv.
      rewrite Rmult_assoc, Rinv_l by lra. lra. }
    lra.
Qed.

Lemma FieldLearner_findSimilarFields_sound_witness :
  exists similar,
    FieldLearner.findSimilarFields
      (fst (FieldLearner.learnFromInteraction
              (FieldLearner.new (Some 2%nat) None None None)
              (QuantumField.new 2) (QuantumField.new 2) 1 None))
      (QuantumField.new 2) None None = Ok similar.
Proof.
  apply (proj1 (FieldLearner_findSimilarFields_sound
                  (fst (FieldLearner.learnFromInteraction
                          (FieldLearner.new (Some 2%nat) None None None)
                          (QuantumField.new 2) (QuantumField.new 2) 1 None))
                  (QuantumField.new 2) None None ltac:(cbn; discriminate))).
  intros key stored Hin.
  assert (Hmem : FieldLearner.fieldMemory
                   (fst (FieldLearner.learnFromInteraction
                           (FieldLearner.new (Some 2%nat) None None None)
                           (QuantumField.new 2) (QuantumField.new 2) 1 None))
                 = [(FieldLearner.getFieldKey (QuantumField.new 2) None,
                     QuantumField.new 2)]).
  { unfold FieldLearner.learnFromInteraction.
    destruct (FieldLearner.computeFieldAdjustment _ _ _ _) as [adjustment|m] eqn:Hadj.
    - destruct (QuantumField.add _ adjustment) as [adjusted|m] eqn:Hadd.
      + cbn [fst FieldLearner.setFieldMemory FieldLearner.fieldMemory
             FieldLearner.updateResonanceHistory FieldLearner.new default JSMap.set
             JSMap.empty].
        destruct (decide _) as [_|Hn]; [reflexivity | contradiction].
      + exfalso.
        pose proof (proj2 (proj1 (learnFromInteraction_outcome
                                    (FieldLearner.new (Some 2%nat) None None None)
                                    (QuantumField.new 2) (QuantumField.new 2) 1 None))
                      ltac:(cbn; repeat split; lia)) as Hok.
        unfold FieldLearner.learnFromInteraction in Hok. rewrite Hadj, Hadd in Hok.
        discriminate.
    - exfalso.
      pose proof (proj2 (proj1 (learnFromInteraction_outcome
                                  (FieldLearner.new (Some 2%nat) None None None)
                                  (QuantumField.new 2) (QuantumField.new 2) 1 None))
                    ltac:(cbn; repeat split; lia)) as Hok.
      unfold FieldLearner.learnFromInteraction in Hok. rewrite Hadj in Hok.
      discriminate. }
  rewrite Hmem in Hin. apply list_elem_of_singleton in Hin. injection Hin as _ ->.
  cbn. lia.
Defined.

(** ** [getShortestPath] *)

Lemma ltDistance_finite (a b : option nat) :
  Graph.ltDistance a b = true -> exists x, a = Some x.
Proof. destruct a as [x|]; [eexists; reflexivity | discriminate]. Qed.

Lemma closestUnvisited_fold (distances : JSMap.t string nat) (l : list string) :
  forall (acc : option string * option nat) (c : string),
    fst (fold_left
           (fun (acc : option string * option nat) nodeId =>
              let distance := JSMap.get distances nodeId in
              if Graph.ltDistance distance acc.2 then (Some nodeId, distance) else acc)
           l acc) = Some c ->
    fst acc = Some c \/ (c ∈ l /\ exists d, JSMap.get distances c = Some d).
Proof.
  induction l as [|x l IH]; intros acc c Hc.
  - left. exact Hc.
  - cbn [fold_left] in Hc. apply IH in Hc as [Hacc|[Hin Hd]].
    + cbv zeta in Hacc.
      destruct (Graph.ltDistance (JSMap.get distances x) acc.2) eqn:Hlt.
      * cbn [fst] in Hacc. injection Hacc as <-. right.
        split; [apply elem_of_cons; left; reflexivity|].
        apply ltDistance_finite in Hlt. exact Hlt.
      * left. exact Hacc.
    + right. split; [apply elem_of_cons; right; exact Hin | exact Hd].
Qed.

Lemma closestUnvisited_spec (distances : JSMap.t string nat) (unvisited : list string)
    (c : string) :
  Graph.closestUnvisited distances unvisited = Some c ->
  c ∈ unvisited /\ exists d, JSMap.get distances c = Some d.
Proof.
  intros Hc. apply closestUnvisited_fold in Hc as [Hacc|Hc]; [discriminate | exact Hc].
Qed.

Lemma filter_remove_length (l : list string) (x : string) :
  x ∈ l ->
  (length (List.filter (fun id => negb (bool_decide (id = x))) l) < length l)%nat.
Proof.
  induction l as [|y l IH]; intros Hin; [apply elem_of_nil in Hin; contradiction|].
  cbn [List.filter length]. destruct (decide (y = x)) as [->|Hne].
  - rewrite bool_decide_eq_true_2 by reflexivity. cbn [negb].
    pose proof (List.filter_length_le (fun id => negb (bool_decide (id = x))) l). lia.
  - rewrite bool_decide_eq_false_2 by assumption. cbn [negb length].
    apply elem_of_cons in Hin as [Heq|Hin]; [congruence|]. specialize (IH Hin). lia.
Qed.

Lemma filter_remove_elem (l : list string) (x y : string) :
  y ∈ List.filter (fun id => negb (bool_decide (id = x))) l <-> y ∈ l /\ y <> x.
Proof.
  rewrite !list_elem_of_In, filter_In. split.
  - intros [Hin Hb]. split; [assumption|]. intros ->.
    rewrite bool_decide_eq_true_2 in Hb by reflexivity. discriminate.
  - intros [Hin Hne]. split; [assumption|].
    rewrite bool_decide_eq_false_2 by assumption. reflexivity.
Qed.

(** Every neighbour comes from an edge between the node and it. *)
Lemma getNodeNeighbors_edge (g : Graph.t) (id : string) (n : GraphNode) :
  n ∈ Graph.getNodeNeighbors g id ->
  exists e,
    In e (JSMap.values (Graph.edges g))
    /\ ((edge_source e = id /\ JSMap.get (Graph.nodes g) (edge_target e) = Some n)
        \/ (edge_target e = id /\ JSMap.get (Graph.nodes g) (edge_source e) = Some n)).
Proof.
  unfold Graph.getNodeNeighbors.
  assert (Hfold : forall (l : list GraphEdge) (acc : list GraphNode),
             n ∈ fold_left
                   (fun neighbors edge =>
                      if decide (edge_source edge = id) then
                        match JSMap.get (Graph.nodes g) (edge_target edge) with
                        | Some targetNode => neighbors ++ [targetNode]
                        | None => neighbors
                        end
                      else if decide (edge_target edge = id) then
                        match JSMap.get (Graph.nodes g) (edge_source edge) with
                        | Some sourceNode => neighbors ++ [sourceNode]
                        | None => neighbors
                        end
                      else neighbors) l acc ->
             n ∈ acc
             \/ exists e,
                  In e l
                  /\ ((edge_source e = id
                       /\ JSMap.get (Graph.nodes g) (edge_target e) = Some n)
                      \/ (edge_target e = id
                          /\ JSMap.get (Graph.nodes g) (edge_source e) = Some n))).
  { induction l as [|e l IH]; intros acc Hn; [left; exact Hn|].
    cbn [fold_left] in Hn. apply IH in Hn as [Hn|[e' [Hin He']]].
    - destruct (decide (edge_source e = id)) as [Hs|Hs].
      + destruct (JSMap.get (Graph.nodes g) (edge_target e)) as [tn|] eqn:Hget;
          [|left; exact Hn].
        apply elem_of_app in Hn as [Hn|Hn]; [left; exact Hn|].
        apply list_elem_of_singleton in Hn. subst tn. right. exists e.
        split; [left; reflexivity|]. left. split; assumption.
      + destruct (decide (edge_target e = id)) as [Ht|Ht]; [|left; exact Hn].
        destruct (JSMap.get (Graph.nodes g) (edge_source e)) as [sn|] eqn:Hget;
          [|left; exact Hn].
        apply elem_of_app in Hn as [Hn|Hn]; [left; exact Hn|].
        apply list_elem_of_singleton in Hn. subst sn. right. exists e.
        split; [left; reflexivity|]. right. split; assumption.
    - right. exists e'. split; [right; exact Hin | exact He']. }
  intros Hn. apply Hfold in Hn as [Hn|Hn]; [apply elem_of_nil in Hn; contradiction|].
  exact Hn.
Qed.

Lemma relaxNeighbors_invariant (g : Graph.t) (unvisited : list string)
    (current : string) (dc : nat) (neighbors : list GraphNode) :
  current ∉ unvisited ->
  (forall nb, nb ∈ neighbors ->
     exists e, In e (JSMap.values (Graph.edges g)) /\ edgeAt (node_id nb) e) ->
  (S dc + length unvisited <= length (JSMap.keys (Graph.nodes g)))%nat ->
  forall maps : JSMap.t string nat * JSMap.t string string,
    JSMap.get (fst maps) current = Some dc ->
    visitInvariant g unvisited maps ->
    visitInvariant g unvisited (Graph.relaxNeighbors unvisited current neighbors maps).
Proof.
  intros Hcur Hedges Hbound. unfold Graph.relaxNeighbors.
  induction neighbors as [|nb neighbors IH]; intros [distances previous] Hdc Hinv;
    [exact Hinv|].
  cbn [fold_left fst snd] in *.
  assert (Hrest : forall nb0, nb0 ∈ neighbors ->
             exists e, In e (JSMap.values (Graph.edges g)) /\ edgeAt (node_id nb0) e).
  { intros nb0 Hin. apply Hedges. apply elem_of_cons. right. exact Hin. }
  destruct (decide (node_id nb ∈ unvisited)) as [Hnb|Hnb].
  - rewrite bool_decide_eq_true_2 by assumption. cbn [negb]. rewrite Hdc.
    destruct (Graph.ltDistance (Some (S dc)) (JSMap.get distances (node_id nb)));
      [|apply (IH Hrest); assumption].
    assert (Hne : node_id nb <> current) by (intros Heq; rewrite Heq in Hnb; contradiction).
    apply (IH Hrest).
    + cbn [fst]. rewrite JSMap_get_set_ne by assumption. exact Hdc.
    + destruct Hinv as [H1 [H2 H3]]. cbn [fst snd] in *. split; [|split].
      * intros x p Hxp. cbn [fst snd] in *.
        destruct (decide (x = node_id nb)) as [->|Hx].
        -- rewrite JSMap_get_set_eq in Hxp. injection Hxp as <-.
           split; [assumption|]. exists dc, (S dc).
           rewrite JSMap_get_set_ne by assumption. rewrite JSMap_get_set_eq.
           repeat split; [assumption | lia].
        -- rewrite JSMap_get_set_ne in Hxp by congruence.
           destruct (H1 x p Hxp) as [Hp [dp [dx [Hdp [Hdx Hlt]]]]].
           split; [assumption|]. exists dp, dx.
           rewrite !JSMap_get_set_ne; [repeat split; assumption | congruence |].
           intros Heq. rewrite <- Heq in Hp. contradiction.
      * intros x d Hx. cbn [fst snd] in *.
        destruct (decide (x = node_id nb)) as [->|Hxne].
        -- rewrite JSMap_get_set_eq in Hx. injection Hx as <-. exact Hbound.
        -- rewrite JSMap_get_set_ne in Hx by congruence. apply (H2 x d Hx).
      * intros x p Hxp. cbn [fst snd] in *.
        destruct (decide (x = node_id nb)) as [->|Hx].
        -- apply Hedges. apply elem_of_cons. left. reflexivity.
        -- rewrite JSMap_get_set_ne in Hxp by congruence. apply (H3 x p Hxp).
  - rewrite bool_decide_eq_false_2 by assumption. cbn [negb].
    apply (IH Hrest); assumption.
Qed.

Lemma neighbors_have_edges (g : Graph.t) (id : string) :
  keyed node_id (Graph.nodes g) ->
  forall nb, nb ∈ Graph.getNodeNeighbors g id ->
    exists e, In e (JSMap.values (Graph.edges g)) /\ edgeAt (node_id nb) e.
Proof.
  intros Hkeyed nb Hnb.
  destruct (getNodeNeighbors_edge g id nb Hnb) as [e [Hin [[_ Hget]|[_ Hget]]]];
    exists e; (split; [exact Hin|]);
    pose proof (keyed_get_id node_id (Graph.nodes g) _ nb Hkeyed Hget) as Hid;
    unfold edgeAt; [right | left]; exact Hid.
Qed.

(** The first loop ends within one round a node, and keeps its invariant. *)
Lemma visitLoop_invariant (g : Graph.t) (targetId : string) :
  keyed node_id (Graph.nodes g) ->
  forall (fuel : nat) (unvisited : list string)
         (maps : JSMap.t string nat * JSMap.t string string),
    (length unvisited <= fuel)%nat ->
    visitInvariant g unvisited maps ->
    exists maps' unvisited',
      Graph.visitLoop fuel g targetId unvisited maps = Some maps'
      /\ visitInvariant g unvisited' maps'.
Proof.
  intros Hkeyed. induction fuel as [|fuel IH]; intros unvisited maps Hfuel Hinv.
  - destruct unvisited as [|x unvisited]; [|cbn in Hfuel; lia].
    exists maps, []. split; [reflexivity | exact Hinv].
  - destruct unvisited as [|x unvisited]; [exists maps, []; split; [reflexivity | exact Hinv]|].
    cbn [Graph.visitLoop].
    destruct (Graph.closestUnvisited (fst maps) (x :: unvisited)) as [current|] eqn:Hclosest;
      [|exists maps, (x :: unvisited); split; [reflexivity | exact Hinv]].
    destruct (decide (current = targetId)) as [Ht|Ht];
      [exists maps, (x :: unvisited); split; [reflexivity | exact Hinv]|].
    destruct (closestUnvisited_spec _ _ _ Hclosest) as [Hin [dc Hdc]].
    pose proof (filter_remove_length (x :: unvisited) current Hin) as Hshorter.
    set (rest := List.filter (fun id => negb (bool_decide (id = current))) (x :: unvisited))
      in *.
    assert (Hcur : current ∉ rest).
    { intros Hc. apply filter_remove_elem in Hc as [_ Hc]. contradiction. }
    destruct Hinv as [H1 [H2 H3]].
    apply IH; [lia|].
    apply (relaxNeighbors_invariant g rest current dc); try assumption.
    + apply neighbors_have_edges. exact Hkeyed.
    + specialize (H2 current dc Hdc). lia.
    + split; [|split].
      * intros y p Hyp. destruct (H1 y p Hyp) as [Hp Hd]. split; [|exact Hd].
        intros Hc. apply filter_remove_elem in Hc as [Hc _]. contradiction.
      * intros y d Hy. specialize (H2 y d Hy). lia.
      * exact H3.
Qed.

Lemma visitInvariant_initial (g : Graph.t) (sourceId : string) :
  visitInvariant g (JSMap.keys (Graph.nodes g))
    (JSMap.set (JSMap.empty : JSMap.t string nat) sourceId 0%nat,
     (JSMap.empty : JSMap.t string string)).
Proof.
  split; [|split]; cbn [fst snd].
  - intros x p Hxp. discriminate.
  - intros x d Hx. cbn in Hx. destruct (decide (sourceId = x)); [|discriminate].
    injection Hx as <-. lia.
  - intros x p Hxp. discriminate.
Qed.

(** The second loop ends as well: every step moves to a node that is
    strictly closer to the source. *)
Lemma reconstructLoop_terminates (g : Graph.t) (sourceId : string)
    (unvisited : list string) (maps : JSMap.t string nat * JSMap.t string string) :
  visitInvariant g unvisited maps ->
  forall (fuel : nat) (current : string) (path : list GraphNode),
    (0 < fuel)%nat ->
    (forall d, JSMap.get (fst maps) current = Some d -> (S d < fuel)%nat) ->
    exists path',
      Graph.reconstructLoop fuel g sourceId (snd maps) current path = Some path'.
Proof.
  intros [H1 _]. induction fuel as [|fuel IH]; intros current path Hpos Hd; [lia|].
  cbn [Graph.reconstructLoop].
  destruct (decide (current = sourceId)); [eexists; reflexivity|].
  destruct (JSMap.get (Graph.nodes g) current) as [node|]; [|eexists; reflexivity].
  destruct (JSMap.get (snd maps) current) as [prev|] eqn:Hprev; [|eexists; reflexivity].
  destruct (decide (prev = ""%string)); [eexists; reflexivity|].
  destruct (H1 current prev Hprev) as [_ [dp [dx [Hdp [Hdx Hlt]]]]].
  specialize (Hd dx Hdx).
  apply IH; [lia|]. intros d Hget. rewrite Hdp in Hget. injection Hget as <-. lia.
Qed.

Lemma reconstructLoop_shape (g : Graph.t) (sourceId : string)
    (previous : JSMap.t string string) :
  keyed node_id (Graph.nodes g) ->
  forall (fuel : nat) (current : string) (path path' : list GraphNode),
    Graph.reconstructLoop fuel g sourceId previous current path = Some path' ->
    (exists added,
        path' = added ++ path
        /\ Forall (fun n => Graph.getNode g (node_id n) = Some n) added)
    /\ (current <> sourceId ->
        forall node, JSMap.get (Graph.nodes g) current = Some node ->
          exists added, path' = added ++ node :: path)
    /\ (current = sourceId \/ JSMap.get (Graph.nodes g) current = None -> path' = path).
Proof.
  intros Hkeyed. induction fuel as [|fuel IH]; intros current path path' Hrun.
  - cbn in Hrun. destruct (decide (current = sourceId)) as [Hs|Hs]; [|discriminate].
    injection Hrun as <-. split; [exists []; split; [reflexivity | apply Forall_nil_2]|].
    split; [intros Hne; contradiction | reflexivity].
  - cbn [Graph.reconstructLoop] in Hrun.
    destruct (decide (current = sourceId)) as [Hs|Hs].
    { injection Hrun as <-. split; [exists []; split; [reflexivity | apply Forall_nil_2]|].
      split; [intros Hne; contradiction | reflexivity]. }
    destruct (JSMap.get (Graph.nodes g) current) as [node|] eqn:Hnode.
    2:{ injection Hrun as <-.
        split; [exists []; split; [reflexivity | apply Forall_nil_2]|].
        split; [intros _ node Hn; discriminate | reflexivity]. }
    assert (Hself : Graph.getNode g (node_id node) = Some node).
    { unfold Graph.getNode.
      rewrite <- (keyed_get_id node_id (Graph.nodes g) current node Hkeyed Hnode).
      exact Hnode. }
    assert (Hstop : path' = node :: path ->
              (exists added,
                  path' = added ++ path
                  /\ Forall (fun n => Graph.getNode g (node_id n) = Some n) added)
              /\ (current <> sourceId ->
                  forall node0, Some node = Some node0 ->
                    exists added, path' = added ++ node0 :: path)
              /\ (current = sourceId \/ Some node = None -> path' = path)).
    { intros ->. split; [|split].
      - exists [node]. split; [reflexivity|]. apply Forall_cons.
        split; [exact Hself | apply Forall_nil_2].
      - intros _ node0 Heq. injection Heq as <-. exists []. reflexivity.
      - intros [Heq|Heq]; [contradiction | discriminate]. }
    destruct (JSMap.get previous current) as [prev|];
      [|injection Hrun as <-; apply Hstop; reflexivity].
    destruct (decide (prev = ""%string));
      [injection Hrun as <-; apply Hstop; reflexivity|].
    destruct (IH prev (node :: path) path' Hrun) as [[added [Hadded Hall]] _].
    split; [|split].
    + exists (added ++ [node]). split; [rewrite <- app_assoc; exact Hadded|].
      apply Forall_app. split; [exact Hall|]. apply Forall_cons.
      split; [exact Hself | apply Forall_nil_2].
    + intros _ node0 Heq. injection Heq as <-. exists added. exact Hadded.
    + intros [Heq|Heq]; [contradiction | discriminate].
Qed.

(** The two loops of [getShortestPath] end within the rounds they are
    given. *)
Lemma getShortestPath_in_fuel (g : Graph.t) (sourceId targetId : string) :
  keyed node_id (Graph.nodes g) ->
  exists maps unvisited path,
    Graph.visitLoop (length (JSMap.keys (Graph.nodes g))) g targetId
      (JSMap.keys (Graph.nodes g))
      (JSMap.set (JSMap.empty : JSMap.t string nat) sourceId 0%nat,
       (JSMap.empty : JSMap.t string string)) = Some maps
    /\ visitInvariant g unvisited maps
    /\ Graph.reconstructLoop (S (S (length (JSMap.keys (Graph.nodes g))))) g sourceId
         (snd maps) targetId [] = Some path
    /\ Graph.getShortestPath g sourceId targetId
       = match JSMap.get (Graph.nodes g) sourceId with
         | Some sourceNode => sourceNode :: path
         | None => path
         end.
Proof.
  intros Hkeyed.
  destruct (visitLoop_invariant g targetId Hkeyed
              (length (JSMap.keys (Graph.nodes g))) (JSMap.keys (Graph.nodes g))
              _ (le_n _) (visitInvariant_initial g sourceId))
    as [maps [unvisited [Hvisit Hinv]]].
  destruct (reconstructLoop_terminates g sourceId unvisited maps Hinv
              (S (S (length (JSMap.keys (Graph.nodes g))))) targetId [] ltac:(lia))
    as [path Hpath].
  { intros d Hd. destruct Hinv as [_ [H2 _]]. specialize (H2 targetId d Hd). lia. }
  exists maps, unvisited, path. split; [exact Hvisit|]. split; [exact Hinv|].
  split; [exact Hpath|].
  unfold Graph.getShortestPath. cbv zeta. rewrite Hvisit.
  destruct maps as [distances previous]. cbn [snd] in Hpath. rewrite Hpath.
  reflexivity.
Qed.

(** X25: on a graph built by the methods of the class,
    [getShortestPath(source, target)] returns a list of nodes of the
    graph that begins with the source node, when the graph has it, and
    ends with the target node, when the graph has it.  When the two
    identifiers are equal, or the graph has no target node, the list is
    the source node alone (or empty, without a source node). *)
Theorem Graph_getShortestPath_endpoints (g : Graph.t) (sourceId targetId : string) :
  Graph.reachable g ->
  (forall sourceNode, Graph.getNode g sourceId = Some sourceNode ->
     head (Graph.getShortestPath g sourceId targetId) = Some sourceNode)
  /\ (forall targetNode, Graph.getNode g targetId = Some targetNode ->
        last (Graph.getShortestPath g sourceId targetId) = Some targetNode)
  /\ (sourceId = targetId \/ Graph.getNode g targetId = None ->
      Graph.getShortestPath g sourceId targetId
      = match Graph.getNode g sourceId with
        | Some sourceNode => [sourceNode]
        | None => []
        end)
  /\ Forall (fun n => Graph.getNode g (node_id n) = Some n)
       (Graph.getShortestPath g sourceId targetId).
Proof.
  intros Hreach. destruct (Graph_reachable_wf g Hreach) as [Hkeyed _].
  destruct (getShortestPath_in_fuel g sourceId targetId Hkeyed)
    as [maps [unvisited [path [_ [_ [Hpath Hresult]]]]]].
  destruct (reconstructLoop_shape g sourceId (snd maps) Hkeyed _ _ _ _ Hpath)
    as [[added [Hadded Hall]] [Hlast Hnone]].
  rewrite app_nil_r in Hadded. subst added.
  unfold Graph.getNode in *. rewrite Hresult. split; [|split; [|split]].
  - intros sourceNode ->. reflexivity.
  - intros targetNode Htarget.
    destruct (decide (targetId = sourceId)) as [Heq|Hne].
    + rewrite (Hnone (or_introl Heq)). subst targetId. rewrite Htarget. reflexivity.
    + destruct (Hlast Hne targetNode Htarget) as [added ->].
      destruct (JSMap.get (Graph.nodes g) sourceId) as [sourceNode|].
      * rewrite (app_comm_cons added [targetNode] sourceNode). apply last_snoc.
      * apply last_snoc.
  - intros Hcase. rewrite Hnone; [reflexivity|].
    destruct Hcase as [Heq|Hmissing]; [left; symmetry; exact Heq | right; exact Hmissing].
  - destruct (JSMap.get (Graph.nodes g) sourceId) as [sourceNode|] eqn:Hsource;
      [|exact Hall].
    apply Forall_cons. split; [|exact Hall].
    rewrite <- (keyed_get_id node_id (Graph.nodes g) sourceId sourceNode Hkeyed Hsource).
    exact Hsource.
Qed.

Lemma Graph_getShortestPath_endpoints_witness :
  last (Graph.getShortestPath sampleGraph "a" "c")
  = Some (mkGraphNode "c" "cheese" "concept" [] None).
Proof.
  apply (proj1 (proj2 (Graph_getShortestPath_endpoints sampleGraph "a" "c"
                         sampleGraph_reachable))).
  reflexivity.
Defined.

(** *** Two nodes with an edge between them, and a target without edges *)

Lemma closestUnvisited_source_stays (distances : JSMap.t string nat)
    (sourceId : string) (l : list string) :
  (forall x, JSMap.get distances x = if decide (sourceId = x) then Some 0%nat else None) ->
  fold_left
    (fun (acc : option string * option nat) nodeId =>
       let distance := JSMap.get distances nodeId in
       if Graph.ltDistance distance acc.2 then (Some nodeId, distance) else acc)
    l (Some sourceId, Some 0%nat)
  = (Some sourceId, Some 0%nat).
Proof.
  intros Hget. induction l as [|x l IH]; [reflexivity|].
  cbn [fold_left]. cbv zeta. rewrite Hget. cbn [snd].
  destruct (decide (sourceId = x)); cbn [Graph.ltDistance Nat.ltb Nat.leb]; exact IH.
Qed.

Lemma closestUnvisited_initial (sourceId : string) (l : list string) :
  sourceId ∈ l ->
  Graph.closestUnvisited (JSMap.set (JSMap.empty : JSMap.t string nat) sourceId 0%nat) l
  = Some sourceId.
Proof.
  set (distances := JSMap.set (JSMap.empty : JSMap.t string nat) sourceId 0%nat).
  assert (Hget : forall x, JSMap.get distances x
                           = if decide (sourceId = x) then Some 0%nat else None).
  { intros x. reflexivity. }
  clearbody distances.
  unfold Graph.closestUnvisited. induction l as [|x l IH]; intros Hin;
    [apply elem_of_nil in Hin; contradiction|].
  cbn [fold_left]. cbv zeta. rewrite Hget. cbn [snd].
  destruct (decide (sourceId = x)) as [<-|Hne]; cbn [Graph.ltDistance].
  - pose proof (closestUnvisited_source_stays distances sourceId l Hget) as Hstays.
    cbv zeta in Hstays. rewrite Hstays. reflexivity.
  - apply IH. apply elem_of_cons in Hin as [Heq|Hin]; [contradiction | exact Hin].
Qed.

Lemma getNodeNeighbors_complete (g : Graph.t) (id other : string) (e : GraphEdge)
    (n : GraphNode) :
  In e (JSMap.values (Graph.edges g)) ->
  id <> other ->
  (edge_source e = id /\ edge_target e = other)
  \/ (edge_source e = other /\ edge_target e = id) ->
  JSMap.get (Graph.nodes g) other = Some n ->
  n ∈ Graph.getNodeNeighbors g id.
Proof.
  intros Hin Hne Hends Hget. unfold Graph.getNodeNeighbors.
  assert (Hfold : forall (l : list GraphEdge) (acc : list GraphNode),
             n ∈ acc \/ In e l ->
             n ∈ fold_left
                   (fun neighbors edge =>
                      if decide (edge_source edge = id) then
                        match JSMap.get (Graph.nodes g) (edge_target edge) with
                        | Some targetNode => neighbors ++ [targetNode]
                        | None => neighbors
                        end
                      else if decide (edge_target edge = id) then
                        match JSMap.get (Graph.nodes g) (edge_source edge) with
                        | Some sourceNode => neighbors ++ [sourceNode]
                        | None => neighbors
                        end
                      else neighbors) l acc).
  { induction l as [|e0 l IH]; intros acc [Hacc|Hl].
    - exact Hacc.
    - destruct Hl.
    - cbn [fold_left]. apply IH. left.
      destruct (decide (edge_source e0 = id)).
      + destruct (JSMap.get (Graph.nodes g) (edge_target e0));
          [apply elem_of_app; left; exact Hacc | exact Hacc].
      + destruct (decide (edge_target e0 = id)); [|exact Hacc].
        destruct (JSMap.get (Graph.nodes g) (edge_source e0));
          [apply elem_of_app; left; exact Hacc | exact Hacc].
    - cbn [fold_left]. apply IH. destruct Hl as [->|Hl]; [|right; exact Hl]. left.
      destruct Hends as [[Hs Ht]|[Hs Ht]].
      + destruct (decide (edge_source e = id)) as [_|Hn]; [|contradiction].
        rewrite Ht, Hget. apply elem_of_app. right. apply list_elem_of_singleton.
        reflexivity.
      + destruct (decide (edge_source e = id)) as [Heq|_]; [congruence|].
        destruct (decide (edge_target e = id)) as [_|Hn]; [|contradiction].
        rewrite Hs, Hget. apply elem_of_app. right. apply list_elem_of_singleton.
        reflexivity. }
  apply Hfold. right. exact Hin.
Qed.

(** Once the target is at distance 1 with the source before it, no
    later round changes that. *)
Lemma relaxNeighbors_keeps_first (unvisited : list string) (sourceId targetId : string)
    (current : string) (neighbors : list GraphNode) :
  forall maps : JSMap.t string nat * JSMap.t string string,
    JSMap.get (fst maps) targetId = Some 1%nat
    /\ JSMap.get (snd maps) targetId = Some sourceId ->
    let maps' := Graph.relaxNeighbors unvisited current neighbors maps in
    JSMap.get (fst maps') targetId = Some 1%nat
    /\ JSMap.get (snd maps') targetId = Some sourceId.
Proof.
  unfold Graph.relaxNeighbors.
  induction neighbors as [|nb neighbors IH]; intros [distances previous] HQ;
    [exact HQ|].
  cbn [fold_left]. cbn [fst snd] in HQ.
  destruct (negb (bool_decide (node_id nb ∈ unvisited))); [apply IH; exact HQ|].
  destruct (JSMap.get distances current) as [d|]; [|apply IH; exact HQ].
  destruct (Graph.ltDistance (Some (S d)) (JSMap.get distances (node_id nb))) eqn:Hlt;
    [|apply IH; exact HQ].
  apply IH. cbn [fst snd]. destruct HQ as [Hd Hp].
  destruct (decide (node_id nb = targetId)) as [Heq|Hne].
  - rewrite Heq, Hd in Hlt. cbn in Hlt. discriminate.
  - rewrite !JSMap_get_set_ne by assumption. split; assumption.
Qed.

Lemma visitLoop_keeps_first (g : Graph.t) (sourceId targetId : string) :
  forall (fuel : nat) (unvisited : list string)
         (maps maps' : JSMap.t string nat * JSMap.t string string),
    JSMap.get (fst maps) targetId = Some 1%nat
    /\ JSMap.get (snd maps) targetId = Some sourceId ->
    Graph.visitLoop fuel g targetId unvisited maps = Some maps' ->
    JSMap.get (fst maps') targetId = Some 1%nat
    /\ JSMap.get (snd maps') targetId = Some sourceId.
Proof.
  induction fuel as [|fuel IH]; intros unvisited maps maps' HQ Hrun.
  - destruct unvisited as [|x unvisited]; [injection Hrun as <-; exact HQ|].
    cbn [Graph.visitLoop] in Hrun.
    destruct (Graph.closestUnvisited _ _) as [current|]; [|injection Hrun as <-; exact HQ].
    destruct (decide (current = targetId)); [injection Hrun as <-; exact HQ | discriminate].
  - destruct unvisited as [|x unvisited]; [injection Hrun as <-; exact HQ|].
    cbn [Graph.visitLoop] in Hrun.
    destruct (Graph.closestUnvisited _ _) as [current|]; [|injection Hrun as <-; exact HQ].
    destruct (decide (current = targetId)); [injection Hrun as <-; exact HQ|].
    apply (IH _ _ _ (relaxNeighbors_keeps_first _ sourceId targetId current _ maps HQ) Hrun).
Qed.

(** The round that visits the source puts a neighbour of it at
    distance 1. *)
Lemma relaxNeighbors_sets_first (unvisited : list string) (sourceId targetId : string)
    (neighbors : list GraphNode) :
  sourceId ∉ unvisited -> targetId ∈ unvisited ->
  forall maps : JSMap.t string nat * JSMap.t string string,
    JSMap.get (fst maps) sourceId = Some 0%nat ->
    (JSMap.get (fst maps) targetId = Some 1%nat
     /\ JSMap.get (snd maps) targetId = Some sourceId)
    \/ (JSMap.get (fst maps) targetId = None
        /\ exists nb, nb ∈ neighbors /\ node_id nb = targetId) ->
    let maps' := Graph.relaxNeighbors unvisited sourceId neighbors maps in
    JSMap.get (fst maps') targetId = Some 1%nat
    /\ JSMap.get (snd maps') targetId = Some sourceId.
Proof.
  intros Hs Ht. unfold Graph.relaxNeighbors.
  induction neighbors as [|nb neighbors IH]; intros [distances previous] Hd0 Hcase.
  - destruct Hcase as [HQ|[_ [nb [Hin _]]]]; [exact HQ|].
    apply elem_of_nil in Hin. contradiction.
  - cbn [fold_left]. cbn [fst snd] in Hd0, Hcase.
    destruct (decide (node_id nb ∈ unvisited)) as [Hnb|Hnb].
    + rewrite bool_decide_eq_true_2 by assumption. cbn [negb]. rewrite Hd0.
      assert (Hne : node_id nb <> sourceId)
        by (intros Heq; rewrite Heq in Hnb; contradiction).
      destruct (Graph.ltDistance (Some 1%nat) (JSMap.get distances (node_id nb)))
        eqn:Hlt.
      * apply IH; cbn [fst snd]; [rewrite JSMap_get_set_ne by assumption; exact Hd0|].
        destruct (decide (node_id nb = targetId)) as [Heq|Hother].
        -- left. rewrite Heq, !JSMap_get_set_eq. split; reflexivity.
        -- rewrite !JSMap_get_set_ne by assumption.
           destruct Hcase as [HQ|[Hnone [nb0 [Hin Hid]]]]; [left; exact HQ|].
           right. split; [exact Hnone|]. exists nb0. split; [|exact Hid].
           apply elem_of_cons in Hin as [->|Hin]; [contradiction | exact Hin].
      * apply IH; [exact Hd0|].
        destruct Hcase as [HQ|[Hnone [nb0 [Hin Hid]]]]; [left; exact HQ|].
        right. split; [exact Hnone|]. exists nb0. split; [|exact Hid].
        apply elem_of_cons in Hin as [->|Hin]; [|exact Hin].
        rewrite Hid, Hnone in Hlt. cbn in Hlt. discriminate.
    + rewrite bool_decide_eq_false_2 by assumption. cbn [negb].
      apply IH; [exact Hd0|].
      destruct Hcase as [HQ|[Hnone [nb0 [Hin Hid]]]]; [left; exact HQ|].
      right. split; [exact Hnone|]. exists nb0. split; [|exact Hid].
      apply elem_of_cons in Hin as [->|Hin]; [|exact Hin].
      rewrite Hid in Hnb. contradiction.
Qed.

Lemma JSMap_get_keys {V} (m : JSMap.t string V) (k : string) (v : V) :
  JSMap.get m k = Some v -> k ∈ JSMap.keys m.
Proof.
  intros Hget. apply JSMap_get_Some_elem in Hget. unfold JSMap.keys.
  apply list_elem_of_fmap. exists (k, v). split; [reflexivity | exact Hget].
Qed.

(** X26: [getShortestPath] answers [[source, target]] for two different
    nodes joined by an edge, and it gives the very same answer when no
    edge of the graph touches the target: a list of two nodes does not
    tell a path from the absence of one. *)
Theorem Graph_getShortestPath_two_nodes (g : Graph.t) (sourceId targetId : string)
    (sourceNode targetNode : GraphNode) :
  Graph.reachable g ->
  sourceId <> targetId ->
  Graph.getNode g sourceId = Some sourceNode ->
  Graph.getNode g targetId = Some targetNode ->
  Graph.getNodeDegree g targetId = 0%nat
  \/ (exists e,
         In e (JSMap.values (Graph.edges g))
         /\ ((edge_source e = sourceId /\ edge_target e = targetId)
             \/ (edge_source e = targetId /\ edge_target e = sourceId))) ->
  Graph.getShortestPath g sourceId targetId = [sourceNode; targetNode].
Proof.
  intros Hreach Hne Hsource Htarget Hcase. unfold Graph.getNode in *.
  destruct (Graph_reachable_wf g Hreach) as [Hkeyed _].
  destruct (getShortestPath_in_fuel g sourceId targetId Hkeyed)
    as [maps [unvisited [path [Hvisit [Hinv [Hpath Hresult]]]]]].
  rewrite Hresult, Hsource. f_equal.
  cbn [Graph.reconstructLoop] in Hpath.
  destruct (decide (targetId = sourceId)) as [Heq|_]; [congruence|].
  rewrite Htarget in Hpath.
  destruct Hcase as [Hdegree|[e [Hin Hends]]].
  - destruct (JSMap.get (snd maps) targetId) as [prev|] eqn:Hprev;
      [|injection Hpath as <-; reflexivity].
    exfalso. destruct Hinv as [_ [_ H3]].
    destruct (H3 targetId prev Hprev) as [e [Hin Hat]].
    unfold Graph.getNodeDegree, Graph.getNodeEdges in Hdegree.
    apply length_zero_iff_nil in Hdegree.
    assert (Hmem : In e (List.filter
                           (fun edge => bool_decide (edge_source edge = targetId
                                                     \/ edge_target edge = targetId))
                           (JSMap.values (Graph.edges g)))).
    { apply filter_In. split; [exact Hin|]. apply bool_decide_eq_true_2. exact Hat. }
    rewrite Hdegree in Hmem. destruct Hmem.
  - assert (Hskey : sourceId ∈ JSMap.keys (Graph.nodes g))
      by (apply (JSMap_get_keys _ _ _ Hsource)).
    assert (Htkey : targetId ∈ JSMap.keys (Graph.nodes g))
      by (apply (JSMap_get_keys _ _ _ Htarget)).
    assert (Hfirst : JSMap.get (fst maps) targetId = Some 1%nat
                     /\ JSMap.get (snd maps) targetId = Some sourceId).
    { destruct (JSMap.keys (Graph.nodes g)) as [|x keys] eqn:Hkeys;
        [apply elem_of_nil in Hskey; contradiction|].
      cbn [length Graph.visitLoop fst] in Hvisit.
      rewrite (closestUnvisited_initial sourceId (x :: keys) Hskey) in Hvisit.
      destruct (decide (sourceId = targetId)) as [Heq|_]; [contradiction|].
      apply (visitLoop_keeps_first g sourceId targetId _ _ _ _) in Hvisit;
        [exact Hvisit|].
      apply relaxNeighbors_sets_first.
      - intros Hc. apply filter_remove_elem in Hc as [_ Hc]. contradiction.
      - apply filter_remove_elem. split; [exact Htkey | congruence].
      - cbn. destruct (decide (sourceId = sourceId)); [reflexivity | contradiction].
      - right. split.
        + cbn. destruct (decide (sourceId = targetId)); [contradiction | reflexivity].
        + exists targetNode. split.
          * apply (getNodeNeighbors_complete g sourceId targetId e); assumption.
          * symmetry.
            apply (keyed_get_id node_id (Graph.nodes g) targetId targetNode Hkeyed Htarget). }
    destruct Hfirst as [_ Hprev]. rewrite Hprev in Hpath.
    destruct (decide (sourceId = ""%string)); [injection Hpath as <-; reflexivity|].
    destruct (decide (sourceId = sourceId)) as [_|Hn]; [|contradiction].
    injection Hpath as <-. reflexivity.
Qed.

Lemma Graph_getShortestPath_two_nodes_witness :
  Graph.getShortestPath sampleGraph "a" "b"
  = [mkGraphNode "a" "cat" "concept" [] None; mkGraphNode "b" "mouse" "concept" [] None].
Proof.
  apply (Graph_getShortestPath_two_nodes sampleGraph "a" "b" _ _ sampleGraph_reachable).
  - discriminate.
  - reflexivity.
  - reflexivity.
  - right. exists (mkGraphEdge "e1" "a" "b" "chases" (9 / 10) []).
    split; [left; reflexivity|]. left. split; reflexivity.
Defined.

(** ** The similarity and the stability the pattern detector measures *)

Lemma calculateWavefunctionSimilarity_Rsum (wave1 wave2 : WaveFunction.t) :
  (length (WaveFunction.dimensions wave1) <= length (WaveFunction.dimensions wave2))%nat ->
  PatternDetector.calculateWavefunctionSimilarity wave1 wave2
  = Ok (Rsum (map (fun pair : Complex.t * Complex.t =>
                     1 - Rabs (Complex.magnitude pair.1 - Complex.magnitude pair.2))
                  (zip (WaveFunction.dimensions wave1) (WaveFunction.dimensions wave2)))
        / INR (length (WaveFunction.dimensions wave1))).
Proof.
  intros Hle. unfold PatternDetector.calculateWavefunctionSimilarity,
    WaveFunction.getDimensions. cbv zeta.
  rewrite (proj2 (Nat.ltb_ge _ _)) by assumption.
  rewrite (fold_left_Rsum
             (fun pair : Complex.t * Complex.t =>
                1 - Rabs (Complex.magnitude pair.1 - Complex.magnitude pair.2))).
  rewrite Rplus_0_l. reflexivity.
Qed.

Lemma Rsum_ones {A} (l : list A) : Rsum (map (fun _ => 1) l) = INR (length l).
Proof.
  induction l as [|x l IH]; [reflexivity|].
  cbn [map Rsum foldr length]. fold (Rsum (map (fun _ : A => 1) l)).
  rewrite IH, S_INR. lra.
Qed.

(** Over the reals the similarity of a state with itself is 1, and 1 is
    the most a similarity can be. *)
Lemma calculateStateSimilarity_over_R (options : PatternDetector.PatternDetectionOptions)
    (state1 state2 : EncodedState) :
  ((length (WaveFunction.dimensions (waveFunction state2))
    < length (WaveFunction.dimensions (waveFunction state1)))%nat ->
   exists m, PatternDetector.calculateStateSimilarity options state1 state2 = Throw m)
  /\ (WaveFunction.dimensions (waveFunction state1) <> [] ->
      PatternDetector.calculateStateSimilarity options state1 state1 = Ok 1)
  /\ (length (WaveFunction.dimensions (waveFunction state1))
      = length (WaveFunction.dimensions (waveFunction state2)) ->
      PatternDetector.calculateStateSimilarity options state1 state2
      = PatternDetector.calculateStateSimilarity options state2 state1)
  /\ (length (WaveFunction.dimensions (waveFunction state1))
      = length (WaveFunction.dimensions (waveFunction state2)) ->
      WaveFunction.dimensions (waveFunction state1) <> [] ->
      0 <= PatternDetector.amplitudeWeight options ->
      0 <= PatternDetector.phaseWeight options ->
      PatternDetector.amplitudeWeight options + PatternDetector.phaseWeight options <= 1 ->
      exists similarity,
        PatternDetector.calculateStateSimilarity options state1 state2 = Ok similarity
        /\ similarity <= 1).
Proof.
  unfold PatternDetector.calculateStateSimilarity. cbv zeta.
  split; [|split; [|split]].
  - intros Hlt. unfold PatternDetector.calculateWavefunctionSimilarity,
      WaveFunction.getDimensions. cbv zeta.
    rewrite (proj2 (Nat.ltb_lt _ _)) by assumption. eexists. reflexivity.
  - intros Hne. rewrite calculateWavefunctionSimilarity_Rsum by lia.
    cbn [bind_result]. f_equal.
    rewrite (Rsum_zip_self
               (fun pair : Complex.t * Complex.t =>
                  1 - Rabs (Complex.magnitude pair.1 - Complex.magnitude pair.2))
               (fun _ => 1)).
    + rewrite Rsum_ones, !Rminus_diag, Rabs_R0.
      assert (Hn : 0 < INR (length (WaveFunction.dimensions (waveFunction state1)))).
      { apply lt_0_INR. destruct (WaveFunction.dimensions (waveFunction state1));
          [contradiction | cbn; lia]. }
      field. split; [lra | pose proof PI_RGT_0; lra].
    + intros x. cbn [fst snd]. rewrite Rminus_diag, Rabs_R0. lra.
  - intros Hlen.
    rewrite (calculateWavefunctionSimilarity_Rsum (waveFunction state1)),
      (calculateWavefunctionSimilarity_Rsum (waveFunction state2)) by lia.
    cbn [bind_result]. f_equal. rewrite Hlen.
    rewrite (Rsum_zip_swap
               (fun pair : Complex.t * Complex.t =>
                  1 - Rabs (Complex.magnitude pair.1 - Complex.magnitude pair.2))
               (WaveFunction.dimensions (waveFunction state1))
               (WaveFunction.dimensions (waveFunction state2)))
      by (intros x y; cbn [fst snd]; rewrite Rabs_minus_sym; reflexivity).
    rewrite (Rabs_minus_sym (WaveFunction.getAmplitude (waveFunction state1))),
      (Rabs_minus_sym (WaveFunction.getPhase (waveFunction state1))).
    reflexivity.
  - intros Hlen Hne Ha Hp Hsum.
    rewrite calculateWavefunctionSimilarity_Rsum by lia. cbn [bind_result].
    eexists. split; [reflexivity|].
    assert (Hdim : Rsum (map (fun pair : Complex.t * Complex.t =>
                                1 - Rabs (Complex.magnitude pair.1
                                          - Complex.magnitude pair.2))
                             (zip (WaveFunction.dimensions (waveFunction state1))
                                  (WaveFunction.dimensions (waveFunction state2))))
                   <= INR (length (WaveFunction.dimensions (waveFunction state1)))).
    { rewrite <- (Nat.min_id (length (WaveFunction.dimensions (waveFunction state1)))).
      rewrite Hlen at 2. rewrite <- length_zip_with with (f := pair).
      generalize (zip_with pair (WaveFunction.dimensions (waveFunction state1))
                    (WaveFunction.dimensions (waveFunction state2))).
      intros l. induction l as [|[x y] l IH]; [cbn; lra|].
      cbn [map Rsum foldr length fst snd].
      fold (Rsum (map (fun pair : Complex.t * Complex.t =>
                         1 - Rabs (Complex.magnitude pair.1 - Complex.magnitude pair.2))
                      l)).
      rewrite S_INR.
      pose proof (Rabs_pos (Complex.magnitude x - Complex.magnitude y)). lra. }
    set (S := Rsum _) in *. set (n := INR _) in *.
    assert (Hn : 0 < n).
    { subst n. apply lt_0_INR. destruct (WaveFunction.dimensions (waveFunction state1));
        [contradiction | cbn; lia]. }
    assert (Hq : S / n <= 1).
    { apply (Rmult_le_reg_r n); [assumption|]. unfold Rdiv.
      rewrite Rmult_assoc, Rinv_l by lra. lra. }
    pose proof (Rabs_pos (WaveFunction.getAmplitude (waveFunction state1)
                          - WaveFunction.getAmplitude (waveFunction state2))) as HA.
    pose proof (Rabs_pos (WaveFunction.getPhase (waveFunction state1)
                          - WaveFunction.getPhase (waveFunction state2))) as HP.
    set (A := Rabs (WaveFunction.getAmplitude _ - _)) in *.
    set (P := Rabs (WaveFunction.getPhase _ - _)) in *.
    assert (HP' : 0 <= P / (2 * PI)).
    { apply Rmult_le_pos; [assumption|]. left. apply Rinv_0_lt_compat.
      pose proof PI_RGT_0. lra. }
    set (a := PatternDetector.amplitudeWeight options) in *.
    set (p := PatternDetector.phaseWeight options) in *.
    clearbody S n A P a p. nra.
Qed.

(** X27: [calculateStateSimilarity] throws when the second state has
    fewer dimensions than the first.  Between states of equally many
    dimensions the similarity is symmetric.  For wave functions as the
    class keeps them, a state with dimensions is similar to itself to
    the degree 1 within [1e-9], whatever the weights are up to 1000 in
    absolute value; and with non-negative weights that sum to 1 at
    most, no similarity exceeds [1 + 1e-9]. *)
Theorem PatternDetector_similarity_near_reflexive
    (options : PatternDetector.PatternDetectionOptions)
    (state1 state2 : EncodedState) :
  ((length (WaveFunction.dimensions (waveFunction state2))
    < length (WaveFunction.dimensions (waveFunction state1)))%nat ->
   exists m, PatternDetector.calculateStateSimilarity options state1 state2 = Throw m)
  /\ (length (WaveFunction.dimensions (waveFunction state1))
      = length (WaveFunction.dimensions (waveFunction state2)) ->
      PatternDetector.calculateStateSimilarity options state1 state2
      = PatternDetector.calculateStateSimilarity options state2 state1)
  /\ (WaveFunction.dimensions (waveFunction state1) <> [] ->
      inRangeWave (waveFunction state1) ->
      Rabs (PatternDetector.amplitudeWeight options) <= 1000 ->
      Rabs (PatternDetector.phaseWeight options) <= 1000 ->
      exists similarity,
        PatternDetector.calculateStateSimilarity options state1 state1 = Ok similarity
        /\ Rabs (similarity - 1) <= / 10 ^ 9)
  /\ (length (WaveFunction.dimensions (waveFunction state1))
      = length (WaveFunction.dimensions (waveFunction state2)) ->
      WaveFunction.dimensions (waveFunction state1) <> [] ->
      inRangeWave (waveFunction state1) -> inRangeWave (waveFunction state2) ->
      0 <= PatternDetector.amplitudeWeight options ->
      0 <= PatternDetector.phaseWeight options ->
      PatternDetector.amplitudeWeight options + PatternDetector.phaseWeight options <= 1 ->
      exists similarity,
        PatternDetector.calculateStateSimilarity options state1 state2 = Ok similarity
        /\ similarity <= 1 + / 10 ^ 9).
Proof.
  destruct (calculateStateSimilarity_over_R options state1 state2)
    as [Hthrow [Hself [Hsym Hbound]]].
  split; [exact Hthrow|]. split; [exact Hsym|]. split.
  - intros Hne _ _ _. exists 1. split; [exact (Hself Hne)|].
    apply Rabs_diag_le. lra.
  - intros Hlen Hne _ _ Ha Hp Hsum.
    destruct (Hbound Hlen Hne Ha Hp Hsum) as [similarity [Hvalue Hle]].
    exists similarity. split; [exact Hvalue | lra].
Qed.

Lemma PatternDetector_similarity_near_reflexive_witness :
  exists similarity,
    PatternDetector.calculateStateSimilarity PatternDetector.defaultOptions
      sampleStateA sampleStateA = Ok similarity
    /\ Rabs (similarity - 1) <= / 10 ^ 9.
Proof.
  apply (proj1 (proj2 (proj2 (PatternDetector_similarity_near_reflexive
                                PatternDetector.defaultOptions
                                sampleStateA sampleStateA)))).
  - cbn. discriminate.
  - unfold inRangeWave, squaredModulus. pose proof PI_RGT_0.
    cbn [sampleStateA waveFunction WaveFunction.amplitude WaveFunction.phase
         WaveFunction.dimensions Complex.real Complex.imag].
    split; [lra|]. split; [lra|].
    repeat (apply Forall_cons; split;
            [cbv beta; cbn [Complex.real Complex.imag]; lra|]).
    apply Forall_nil_2.
  - cbn. apply Rabs_bound. split; lra.
  - cbn. apply Rabs_bound. split; lra.
Defined.

Lemma calculateVariance_Rsum (values : list R) :
  PatternDetector.calculateVariance values
  = Rsum (map (fun v => (v - Rsum values / INR (length values))
                        * (v - Rsum values / INR (length values))) values)
    / INR (length values).
Proof.
  unfold PatternDetector.calculateVariance. cbv zeta.
  rewrite (fold_left_Rsum (fun v : R => v) values), map_id, Rplus_0_l.
  rewrite (fold_left_Rsum (fun d : R => d)), map_id, Rplus_0_l. reflexivity.
Qed.

Lemma calculateVariance_nonneg (values : list R) :
  values <> [] -> 0 <= PatternDetector.calculateVariance values.
Proof.
  intros Hne. rewrite calculateVariance_Rsum. apply Rmult_le_pos.
  - apply Rsum_map_nonneg. intros v. apply Rle_0_sqr.
  - left. apply Rinv_0_lt_compat. apply lt_0_INR.
    destruct values; [contradiction | cbn; lia].
Qed.

Lemma Rsum_constant (c : R) (values : list R) :
  Forall (fun v => v = c) values -> Rsum values = INR (length values) * c.
Proof.
  intros Hall. induction Hall as [|v values Hv _ IH]; [cbn; lra|].
  cbn [Rsum foldr length]. fold (Rsum values). rewrite IH, Hv, S_INR. lra.
Qed.

Lemma calculateVariance_constant (c : R) (values : list R) :
  values <> [] -> Forall (fun v => v = c) values ->
  PatternDetector.calculateVariance values = 0.
Proof.
  intros Hne Hall. rewrite calculateVariance_Rsum, (Rsum_constant c values Hall).
  assert (Hn : 0 < INR (length values)).
  { apply lt_0_INR. destruct values; [contradiction | cbn; lia]. }
  replace (INR (length values) * c / INR (length values)) with c by (field; lra).
  assert (Hzero : Rsum (map (fun v => (v - c) * (v - c)) values) = 0).
  { clear Hne Hn. induction Hall as [|v values Hv _ IH]; [reflexivity|].
    cbn [map Rsum foldr]. fold (Rsum (map (fun v => (v - c) * (v - c)) values)).
    rewrite IH, Hv. lra. }
  rewrite Hzero. unfold Rdiv. apply Rmult_0_l.
Qed.

(** X28: the stability [calculateClusterStability] gives a cluster that
    has states lies above 0 and does not exceed 1, and it is 1 when all
    states of the cluster have the same amplitude and the same phase;
    the variance it is computed from is never negative. *)
Theorem PatternDetector_cluster_stability_range (cluster : list EncodedState) :
  cluster <> [] ->
  0 < PatternDetector.calculateClusterStability cluster <= 1
  /\ (forall amplitude phase,
         Forall (fun state =>
                   WaveFunction.getAmplitude (waveFunction state) = amplitude
                   /\ WaveFunction.getPhase (waveFunction state) = phase) cluster ->
         PatternDetector.calculateClusterStability cluster = 1)
  /\ (forall values, values <> [] -> 0 <= PatternDetector.calculateVariance values).
Proof.
  intros Hne. unfold PatternDetector.calculateClusterStability. cbv zeta.
  assert (Hmap : forall f : EncodedState -> R, map f cluster <> []).
  { intros f. destruct cluster; [contradiction | discriminate]. }
  split; [|split].
  - split; [apply exp_pos|].
    pose proof (calculateVariance_nonneg _ (Hmap (fun state =>
                  WaveFunction.getAmplitude (waveFunction state)))) as Ha.
    pose proof (calculateVariance_nonneg _ (Hmap (fun state =>
                  WaveFunction.getPhase (waveFunction state)))) as Hp.
    rewrite <- exp_0.
    destruct (Req_dec_T
                (PatternDetector.calculateVariance
                   (map (fun state => WaveFunction.getAmplitude (waveFunction state)) cluster)
                 + PatternDetector.calculateVariance
                     (map (fun state => WaveFunction.getPhase (waveFunction state)) cluster))
                0) as [Hz|Hnz].
    + rewrite Hz, Ropp_0. lra.
    + left. apply exp_increasing. lra.
  - intros amplitude phase Hall.
    rewrite (calculateVariance_constant amplitude), (calculateVariance_constant phase);
      [rewrite Rplus_0_r, Ropp_0; apply exp_0 | apply Hmap | | apply Hmap |].
    + apply Forall_map. apply (Forall_impl _ _ _ Hall). intros state [_ Hp]. exact Hp.
    + apply Forall_map. apply (Forall_impl _ _ _ Hall). intros state [Ha _]. exact Ha.
  - apply calculateVariance_nonneg.
Qed.

Lemma PatternDetector_cluster_stability_range_witness :
  0 < PatternDetector.calculateClusterStability [sampleStateA; sampleStateB] <= 1.
Proof.
  apply (proj1 (PatternDetector_cluster_stability_range [sampleStateA; sampleStateB]
                  ltac:(discriminate))).
Defined.
